(** * make_bnk.py: the sound-bank encoder, embedded and verified

    A shallow embedding of [make_bnk.py]: the identity hasher, the reading of
    the wem table, the media catalog, and the chunk writer with its seeks and
    back-patched length fields.

    Conventions of the embedding.
    - A Python [str] is a [string]: a sequence of code points below 256
      (ASCII and Latin-1), on which [str.lower] works character by
      character.  Code points from 256 on are outside the model, except
      in the result of [str.upper], which is a list of code points.
    - A byte is a [Z] in [0, 256); [bytes] is [list Z].
    - Python integers are [Z]; lengths, file positions and loop counters,
      which are never negative, are [nat].
    - Exceptions and [exit] are the [Raise] case of [res]. *)

From Stdlib Require Import ZArith String Ascii.
From stdpp Require Import base numbers list strings gmap sorting.

Local Open Scope string_scope.
Local Open Scope list_scope.
Local Open Scope Z_scope.

(** ** Strings *)

Module Str.

(** [ord(c)] *)
Definition ord (c : ascii) : Z := Z.of_N (N_of_ascii c).

(** One character of [str.lower()]: A-Z, and the Latin-1 capitals
    U+00C0..U+00DE except the multiplication sign U+00D7, move 32 up. *)
Definition lower_char (c : ascii) : ascii :=
  let n := N_of_ascii c in
  if (((65 <=? n) && (n <=? 90)) ||
      ((192 <=? n) && (n <=? 222) && negb (n =? 215)))%N
  then ascii_of_N (n + 32)
  else c.

(** [s.lower()] *)
Fixpoint lower (s : string) : string :=
  match s with
  | EmptyString => EmptyString
  | String c rest => String (lower_char c) (lower rest)
  end.

(** [str.upper()] of one character, read in Latin-1.  Sharp s becomes two
    letters; the two letters whose capital lies beyond Latin-1 (micro sign,
    y with diaeresis) are kept in this reading, and have their capitals in
    [upper_points] below, with which the program is modelled.  This reading
    names the category of a line in the statements. *)
Definition upper_char (c : ascii) : string :=
  let n := N_of_ascii c in
  if (n =? 223)%N then "SS"
  else if (((97 <=? n) && (n <=? 122)) ||
           ((224 <=? n) && (n <=? 254) && negb (n =? 247)))%N
  then String (ascii_of_N (n - 32)) EmptyString
  else String c EmptyString.

(** [s.upper()], read in Latin-1. *)
Fixpoint upper (s : string) : string :=
  match s with
  | EmptyString => EmptyString
  | String c rest => upper_char c +:+ upper rest
  end.

(** [c.isspace()] below 256: TAB..CR, FS..US, space, NEL, NBSP. *)
Definition isspace (c : ascii) : bool :=
  let n := N_of_ascii c in
  (((9 <=? n) && (n <=? 13)) || ((28 <=? n) && (n <=? 32)) ||
   (n =? 133) || (n =? 160))%N.

(** [s.lstrip()] *)
Fixpoint lstrip (s : string) : string :=
  match s with
  | EmptyString => EmptyString
  | String c rest => if isspace c then lstrip rest else s
  end.

(** [s.rstrip()] *)
Fixpoint rstrip (s : string) : string :=
  match s with
  | EmptyString => EmptyString
  | String c rest =>
      match rstrip rest with
      | EmptyString => if isspace c then EmptyString else String c EmptyString
      | r => String c r
      end
  end.

(** [s.strip()] *)
Definition strip (s : string) : string := rstrip (lstrip s).

(** [s.split(sep)] for a one-character separator: never empty. *)
Fixpoint split (sep : ascii) (s : string) : list string :=
  match s with
  | EmptyString => [EmptyString]
  | String c rest =>
      if Ascii.eqb c sep then EmptyString :: split sep rest
      else match split sep rest with
           | [] => [String c EmptyString]
           | w :: ws => String c w :: ws
           end
  end.

(** [sep in s] *)
Fixpoint contains (sep : ascii) (s : string) : bool :=
  match s with
  | EmptyString => false
  | String c rest => Ascii.eqb c sep || contains sep rest
  end.

Fixpoint chars (s : string) : list ascii :=
  match s with
  | EmptyString => []
  | String c rest => c :: chars rest
  end.

(** The code points of a string. *)
Definition points (s : string) : list Z := map ord (chars s).

(** [str.upper()] of one character, as code points: as [upper_char], but
    the capitals of the micro sign and of y with diaeresis are U+039C and
    U+0178. *)
Definition upper_points_char (c : ascii) : list Z :=
  let n := N_of_ascii c in
  if (n =? 181)%N then [924]
  else if (n =? 255)%N then [376]
  else points (upper_char c).

(** [s.upper()], as code points. *)
Fixpoint upper_points (s : string) : list Z :=
  match s with
  | EmptyString => []
  | String c rest => upper_points_char c ++ upper_points rest
  end.

End Str.

(** ** Identity hasher *)

(** The body of the loop of [compute_hash]:
    [hash = ((hash * 16777619) ^ ord(c)) & 0xFFFFFFFF]. *)
Definition hash_step (hash : Z) (c : ascii) : Z :=
  Z.land (Z.lxor (hash * 16777619) (Str.ord c)) 0xFFFFFFFF.

Fixpoint hash_loop (name : string) (hash : Z) : Z :=
  match name with
  | EmptyString => hash
  | String c rest => hash_loop rest (hash_step hash c)
  end.

(** [compute_hash(name)] *)
Definition compute_hash (name : string) : Z :=
  let hash := 2166136261 in
  let name := Str.lower name in
  hash_loop name hash.

(** The accumulation as the specification words it: start at the offset
    basis and, per element, multiply, xor and reduce modulo [2^32]. *)
Definition fnv_accum (elements : list Z) : Z :=
  fold_left (fun accum element => Z.lxor (accum * 16777619) element mod 2 ^ 32)
            elements 2166136261.

(** Two strings that differ only in the case of their letters. *)
Definition same_up_to_case (s t : string) : Prop :=
  Forall2 (fun a b => Str.lower_char a = Str.lower_char b)
          (Str.chars s) (Str.chars t).

(** ** Exceptions, results, printed messages *)

Inductive exn : Type :=
| IndexError                 (* [line_split[1]] on a one-element list *)
| SystemExit (code : Z)      (* [exit(1)] *)
| OSError (path : string)    (* [open(path, "rb")] of a file that is not there *)
| OverflowError              (* [int.to_bytes] of a value that does not fit *)
| KeyError (key : Z).        (* [media_file_lookup[key]] of an absent key *)

Inductive res (A : Type) : Type :=
| Ok (a : A)
| Raise (e : exn).
Arguments Ok {A} a.
Arguments Raise {A} e.

#[global] Instance res_ret : MRet res := fun A a => Ok a.
#[global] Instance res_bind : MBind res := fun A B k r =>
  match r with
  | Ok a => k a
  | Raise e => Raise e
  end.

(** What the two [print] calls send to the standard output: the first with
    the index of the line and the code points of the token it prints.  The
    second one is not an f-string in the source: it prints its text as it
    stands. *)
Inductive message : Type :=
| InvalidWemType (i : nat) (wem_type : list Z)
| AlreadyUsed.

(** A Python value of one of the two types that meet at the catalog. *)
Inductive pyval : Type :=
| PyInt (z : Z)
| PyStr (s : string).

(** [a == b]: an [int] and a [str] are never equal. *)
Definition py_eq (a b : pyval) : bool :=
  match a, b with
  | PyInt x, PyInt y => x =? y
  | PyStr s, PyStr t => String.eqb s t
  | _, _ => false
  end.

Inductive wem_type : Type := SFX | BGM.

Definition wem_type_eqb (a b : wem_type) : bool :=
  match a, b with
  | SFX, SFX | BGM, BGM => true
  | _, _ => false
  end.

Module MediaEntry.
Record t : Type := mk
  { hash : Z; wem_filename : string; offset : Z; size : Z }.
End MediaEntry.

Module SoundEntry.
Record t : Type := mk
  { hash : Z; wem_hash : Z; wem_type : wem_type }.
End SoundEntry.

Module EventEntry.
Record t : Type := mk
  { hash : Z; wem_filename : string; wem_type : wem_type }.
End EventEntry.

(** ** Reading the wem table *)

Record table : Type := mkTable
  { printed : list message;
    in_sfx_wems : list string;
    in_bgm_wems : list string }.

Definition TAB : ascii := ascii_of_nat 9.

(** The body of the loop over the lines of the table.  The upper-cased
    token may hold capitals beyond Latin-1, so [wem_type] is kept as code
    points; the [match] compares it with the two words. *)
Definition read_line (i : nat) (line : string) (t : table) : res table :=
  let line_split := Str.split TAB (Str.strip line) in
  f0 ← from_option Ok (Raise IndexError) (line_split !! 0%nat);
  let wem_type := Str.upper_points f0 in
  wem_path ← from_option Ok (Raise IndexError) (line_split !! 1%nat);
  if bool_decide (wem_type = Str.points "SFX") then
    Ok (mkTable (printed t) (in_sfx_wems t ++ [wem_path]) (in_bgm_wems t))
  else if bool_decide (wem_type = Str.points "BGM") then
    Ok (mkTable (printed t) (in_sfx_wems t) (in_bgm_wems t ++ [wem_path]))
  else
    Ok (mkTable (printed t ++ [InvalidWemType i wem_type])
                (in_sfx_wems t) (in_bgm_wems t)).

(** [for i, line in enumerate(wem_table_file)]: the table reached, and the
    exception that stopped the loop if one did. *)
Fixpoint read_wem_table (i : nat) (lines : list string) (t : table)
  : table * option exn :=
  match lines with
  | [] => (t, None)
  | line :: lines' =>
      match read_line i line t with
      | Ok t' => read_wem_table (S i) lines' t'
      | Raise e => (t, Some e)
      end
  end.

(** ** Media catalog *)

(** [key in d] for a dictionary whose keys are ints: some key equals [key]. *)
Definition dict_contains {V} (key : pyval) (d : gmap Z V) : bool :=
  existsb (fun k => py_eq key (PyInt k)) (map fst (map_to_list d)).

(** [d[key]] *)
Definition getitem {V} (d : gmap Z V) (key : Z) : res V :=
  from_option Ok (Raise (KeyError key)) (d !! key).

(** The loop over [stored_wems] that fills [media_file_lookup]. *)
Fixpoint fill_media_file_lookup (stored_wems : list string)
    (media_file_lookup : gmap Z MediaEntry.t)
  : list message * res (gmap Z MediaEntry.t) :=
  match stored_wems with
  | [] => ([], Ok media_file_lookup)
  | wem_filename :: rest =>
      if dict_contains (PyStr wem_filename) media_file_lookup then
        ([AlreadyUsed], Raise (SystemExit 1))
      else
        let hash := compute_hash wem_filename in
        fill_media_file_lookup rest
          (<[hash := MediaEntry.mk hash wem_filename (-1) (-1)]>
             media_file_lookup)
  end.

(** A stable sort by an integer key: what [sorted] and [list.sort(key=...)]
    return.  Any stable sort returns the same list. *)
Fixpoint insert_by {A} (key : A → Z) (x : A) (l : list A) : list A :=
  match l with
  | [] => [x]
  | y :: l' => if key x <=? key y then x :: l else y :: insert_by key x l'
  end.

Definition sort_by {A} (key : A → Z) (l : list A) : list A :=
  foldr (insert_by key) [] l.

(** [sorted(list(d.keys()))] *)
Definition sorted_keys {V} (d : gmap Z V) : list Z :=
  sort_by id (map fst (map_to_list d)).

(** ** The output file: a byte buffer and a position *)

Record file : Type := mkFile { data : list Z; pos : nat }.

(** The file just after [open(bnk_out, "wb")]: created or truncated. *)
Definition opened : file := mkFile [] 0.

(** The bytes of a file after [bs] was written at position [p]: bytes in
    place are overwritten, a gap between the end and [p] reads as zeros, and
    writing nothing changes nothing. *)
Definition write_at (d : list Z) (p : nat) (bs : list Z) : list Z :=
  match bs with
  | [] => d
  | _ => take p d ++ replicate (p - length d) 0 ++ bs ++ drop (p + length bs) d
  end.

(** A computation on the open file that may raise: the file it leaves
    behind is kept in both cases. *)
Definition W (A : Type) : Type := file → res A * file.

#[global] Instance W_ret : MRet W := fun A a f => (Ok a, f).
#[global] Instance W_bind : MBind W := fun A B k m f =>
  match m f with
  | (Ok a, f') => k a f'
  | (Raise e, f') => (Raise e, f')
  end.

(** An operation that touches no file: it returns or raises. *)
Definition lift {A} (r : res A) : W A := fun f => (r, f).

(** [bnk_file.write(bs)] *)
Definition write (bs : list Z) : W unit := fun f =>
  (Ok tt, mkFile (write_at (data f) (pos f) bs) (pos f + length bs)).

(** [bnk_file.tell()] *)
Definition tell : W nat := fun f => (Ok (pos f), f).

Inductive whence : Type := SEEK_SET | SEEK_CUR | SEEK_END.

(** [bnk_file.seek(offset, whence)] with an offset that is not negative. *)
Definition seek (offset : nat) (w : whence) : W unit := fun f =>
  (Ok tt,
   mkFile (data f)
          match w with
          | SEEK_SET => offset
          | SEEK_CUR => pos f + offset
          | SEEK_END => length (data f) + offset
          end).

(** [for x in l: s = body(s, x)] *)
Fixpoint for_fold {A S} (body : S → A → W S) (l : list A) (s : S) : W S :=
  match l with
  | [] => mret s
  | x :: l' => s' ← body s x; for_fold body l' s'
  end.

(** [for x in l: body(x)] *)
Fixpoint for_each {A} (body : A → W unit) (l : list A) : W unit :=
  match l with
  | [] => mret tt
  | x :: l' => body x;; for_each body l'
  end.

(** ** Integers and bytes *)

Fixpoint le_bytes (length : nat) (n : Z) : list Z :=
  match length with
  | O => []
  | S k => n mod 256 :: le_bytes k (n / 256)
  end.

(** [n.to_bytes(length = length, byteorder = "little")] *)
Definition to_bytes (n : Z) (length : nat) : res (list Z) :=
  if (0 <=? n) && (n <? 256 ^ Z.of_nat length)
  then Ok (le_bytes length n)
  else Raise OverflowError.

(** [int.from_bytes(bs, "little")] *)
Fixpoint from_bytes (bs : list Z) : Z :=
  match bs with
  | [] => 0
  | b :: bs' => b + 256 * from_bytes bs'
  end.

(** [bnk_file.write(n.to_bytes(length = 4, byteorder = "little"))] *)
Definition write_int (n : Z) : W unit :=
  bs ← lift (to_bytes n 4); write bs.

(** A bytes literal [b"..."]. *)
Definition b (s : string) : list Z := map Str.ord (Str.chars s).

(** The file system the clips are read from: the content of the file at a
    path, if it can be opened. *)
Definition filesystem : Type := string → option (list Z).

(** [with open(path, "rb") as wem_file: wem_file.read()] *)
Definition read_rb (fs : filesystem) (path : string) : res (list Z) :=
  from_option Ok (Raise (OSError path)) (fs path).

(** ** Clip index and blob area *)

(** The body of the loop that streams the clips into the DATA chunk. *)
Definition write_wem (fs : filesystem)
    (st : nat * gmap Z MediaEntry.t) (media_hash : Z)
  : W (nat * gmap Z MediaEntry.t) :=
  let '(wem_offset, media_file_lookup) := st in
  media_entry ← lift (getitem media_file_lookup media_hash);
  wem_offset ←
    (if negb (wem_offset mod 8 =? 0)%nat then
       write (replicate (wem_offset mod 8)%nat 0);;
       mret (wem_offset + wem_offset mod 8)%nat
     else mret wem_offset);
  wem ← lift (read_rb fs (MediaEntry.wem_filename media_entry));
  write wem;;
  let wem_len := length wem in
  let media_entry :=
    MediaEntry.mk (MediaEntry.hash media_entry)
                  (MediaEntry.wem_filename media_entry)
                  (Z.of_nat wem_offset) (Z.of_nat wem_len) in
  mret ((wem_offset + wem_len)%nat,
        <[media_hash := media_entry]> media_file_lookup).

(** The body of the loop that writes the MediaHeader entries. *)
Definition write_media_header (media_file_lookup : gmap Z MediaEntry.t)
    (media_hash : Z) : W unit :=
  media_entry ← lift (getitem media_file_lookup media_hash);
  write_int (MediaEntry.hash media_entry);;
  write_int (MediaEntry.offset media_entry);;
  write_int (MediaEntry.size media_entry).

(** The DIDX and DATA sections; returns the catalog with the offsets and
    sizes filled in. *)
Definition write_didx_data (fs : filesystem)
    (media_file_lookup : gmap Z MediaEntry.t) (sorted_media_hashes : list Z)
  : W (gmap Z MediaEntry.t) :=
  write (b "DIDX");;
  let didx_section_size := (12 * size media_file_lookup)%nat in
  write_int (Z.of_nat didx_section_size);;
  didx_return_offset ← tell;
  seek didx_section_size SEEK_CUR;;
  write (b "DATA");;
  data_size_offset ← tell;
  write_int 0;;
  st ← for_fold (write_wem fs) sorted_media_hashes (0%nat, media_file_lookup);
  let '(wem_offset, media_file_lookup) := st in
  seek data_size_offset SEEK_SET;;
  write_int (Z.of_nat wem_offset);;
  seek didx_return_offset SEEK_SET;;
  for_each (write_media_header media_file_lookup) sorted_media_hashes;;
  seek 0 SEEK_END;;
  mret media_file_lookup.

(** The BKHD section. *)
Definition write_bkhd (bnk_out : string) : W unit :=
  write (b "BKHD");;
  write_int 0x18;;
  write_int 140;;
  write_int (compute_hash bnk_out);;
  write_int (compute_hash "SFX");;
  write_int 16;;
  write_int 11146;;
  write_int 0.

(** ** Hierarchy *)

(** [(1 if len(in_sfx_wems) > 0 else 0) + (1 if len(in_bgm_wems) > 0 else 0)
     + (1 + 2) * len(in_sfx_wems) + (1 + 4) * len(in_bgm_wems)] *)
Definition hirc_entry_count (in_sfx_wems in_bgm_wems : list string) : Z :=
  (if (0 <? length in_sfx_wems)%nat then 1 else 0) +
  (if (0 <? length in_bgm_wems)%nat then 1 else 0) +
  (1 + 2) * Z.of_nat (length in_sfx_wems) +
  (1 + 4) * Z.of_nat (length in_bgm_wems).

Definition sound_entry (t : wem_type) (wem_filename : string) : SoundEntry.t :=
  SoundEntry.mk (compute_hash (wem_filename +:+ "_sound"))
                (compute_hash wem_filename) t.

Definition sound_entry_list (in_sfx_wems in_bgm_wems : list string)
  : list SoundEntry.t :=
  sort_by SoundEntry.hash
    (map (sound_entry SFX) in_sfx_wems ++ map (sound_entry BGM) in_bgm_wems).

Definition mixer_order (bnk_out : string) : list (Z * wem_type) :=
  sort_by fst
    [ (compute_hash (bnk_out +:+ "_sfx_mix"), SFX);
      (compute_hash (bnk_out +:+ "_bgm_mix"), BGM) ].

(** CAkSound (sfx) *)
Definition write_sound_sfx (media_file_lookup : gmap Z MediaEntry.t)
    (mixer_hash : Z) (sound_entry : SoundEntry.t) : W unit :=
  write [0x02; 0x32; 0x00; 0x00; 0x00];;
  write_int (SoundEntry.hash sound_entry);;
  write [0x01; 0x00; 0x02; 0x00;
         0x00];;
  write_int (SoundEntry.wem_hash sound_entry);;
  media_entry ← lift (getitem media_file_lookup (SoundEntry.wem_hash sound_entry));
  write_int (MediaEntry.size media_entry);;
  write [0x00;
         0x00;
         0x00;
         0x00;
         0x00;
         0x00];;
  write_int 0;;
  write_int mixer_hash;;
  write [0x00;
         0x00;
         0x00;
         0x00;
         0x00;
         0x00; 0x00; 0x00; 0x00;
         0x00;
         0x01;
         0x01; 0x00;
         0x00;
         0x00;
         0x00;
         0x00;
         0x00; 0x00].

(** CAkActorMixer (sfx) *)
Definition write_mixer_sfx (mixer_hash : Z) (mixer_sounds : list SoundEntry.t)
  : W unit :=
  let num_mixer_sounds := length mixer_sounds in
  write [0x07];;
  write_int (0x33 + Z.of_nat num_mixer_sounds * 4);;
  write_int mixer_hash;;
  write [0x00;
         0x00;
         0x00;
         0x00;
         0x00];;
  write_int 1584861537;;
  write_int 0;;
  write [0x00;
         0x02;
         0x00;
         0x07;
         0x00; 0x00; 0x20; 0x40;
         0x00; 0x00; 0x70; 0x42;
         0x00;
         0x03;
         0x08;
         0x00;
         0x00; 0x00; 0x00; 0x00;
         0x00;
         0x01;
         0x00; 0x00;
         0x00;
         0x00;
         0x00;
         0x00;
         0x00; 0x00];;
  write_int (Z.of_nat num_mixer_sounds);;
  for_each (fun sound_entry => write_int (SoundEntry.hash sound_entry))
           mixer_sounds.

(** CAkSound (bgm) *)
Definition write_sound_bgm (media_file_lookup : gmap Z MediaEntry.t)
    (mixer_hash : Z) (sound_entry : SoundEntry.t) : W unit :=
  write [0x02; 0x37; 0x00; 0x00; 0x00];;
  write_int (SoundEntry.hash sound_entry);;
  write [0x01; 0x00; 0x02; 0x00;
         0x02];;
  write_int (SoundEntry.wem_hash sound_entry);;
  (if dict_contains (PyInt (SoundEntry.wem_hash sound_entry)) media_file_lookup
   then
     media_entry ← lift (getitem media_file_lookup (SoundEntry.wem_hash sound_entry));
     write_int (MediaEntry.size media_entry)
   else
     write_int 1024);;
  write [0x00;
         0x00;
         0x00;
         0x00;
         0x00;
         0x00];;
  write_int 0;;
  write_int mixer_hash;;
  write [0x00;
         0x01;
         0x3A;
         0x00; 0x00; 0x00; 0x00;
         0x00;
         0x00;
         0x00;
         0x00; 0x00; 0x00; 0x00;
         0x00;
         0x01;
         0x00; 0x00;
         0x00;
         0x00;
         0x00;
         0x00;
         0x00; 0x00].

(** CAkActorMixer (bgm) *)
Definition write_mixer_bgm (mixer_hash : Z) (mixer_sounds : list SoundEntry.t)
  : W unit :=
  let num_mixer_sounds := length mixer_sounds in
  write [0x07];;
  write_int (0x2E + Z.of_nat num_mixer_sounds * 4);;
  write_int mixer_hash;;
  write [0x00;
         0x00;
         0x00;
         0x00;
         0x00];;
  write_int 0;;
  write_int 289663270;;
  write [0x00;
         0x01;
         0x00;
         0x00; 0x00; 0x20; 0xC0;
         0x00;
         0x03;
         0x08;
         0x00;
         0x00; 0x00; 0x00; 0x00;
         0x00;
         0x01;
         0x00; 0x00;
         0x00;
         0x00;
         0x00;
         0x00;
         0x00; 0x00];;
  write_int (Z.of_nat num_mixer_sounds);;
  for_each (fun sound_entry => write_int (SoundEntry.hash sound_entry))
           mixer_sounds.

(** The body of the loop over [mixer_order]: the sounds of one category in
    hash order, then its mixer; nothing for a category without sounds. *)
Definition write_mixer (media_file_lookup : gmap Z MediaEntry.t)
    (sound_entry_list : list SoundEntry.t) (m : Z * wem_type) : W unit :=
  let '(mixer_hash, mixer_type) := m in
  let mixer_sounds :=
    List.filter (fun x => wem_type_eqb (SoundEntry.wem_type x) mixer_type)
                sound_entry_list in
  let num_mixer_sounds := length mixer_sounds in
  if (num_mixer_sounds =? 0)%nat then mret tt
  else
    match mixer_type with
    | SFX =>
        for_each (write_sound_sfx media_file_lookup mixer_hash) mixer_sounds;;
        write_mixer_sfx mixer_hash mixer_sounds
    | BGM =>
        for_each (write_sound_bgm media_file_lookup mixer_hash) mixer_sounds;;
        write_mixer_bgm mixer_hash mixer_sounds
    end.

Definition event_entry (t : wem_type) (wem_filename : string) : EventEntry.t :=
  EventEntry.mk (compute_hash (wem_filename +:+ "_play_event")) wem_filename t.

Definition event_entry_list (in_sfx_wems in_bgm_wems : list string)
  : list EventEntry.t :=
  sort_by EventEntry.hash
    (map (event_entry SFX) in_sfx_wems ++ map (event_entry BGM) in_bgm_wems).

(** CAkActionPlay, the same for both categories *)
Definition write_action_play (bnk_out : string) (event_entry : EventEntry.t)
  : W unit :=
  let wem_filename := EventEntry.wem_filename event_entry in
  write [0x03; 0x12; 0x00; 0x00; 0x00];;
  write_int (compute_hash (wem_filename +:+ "_play"));;
  write [0x03; 0x04];;
  write_int (compute_hash (wem_filename +:+ "_sound"));;
  write [0x00;
         0x00;
         0x00;
         0x04];;
  write_int (compute_hash bnk_out).

(** The body of the loop over [event_entry_list]. *)
Definition write_event (bnk_out : string) (event_entry : EventEntry.t)
  : W unit :=
  let wem_filename := EventEntry.wem_filename event_entry in
  match EventEntry.wem_type event_entry with
  | SFX =>
      write_action_play bnk_out event_entry;;
      (* CAkEvent (sfx) *)
      write [0x04; 0x09; 0x00; 0x00; 0x00];;
      write_int (EventEntry.hash event_entry);;
      write [0x01];;
      write_int (compute_hash (wem_filename +:+ "_play"))
  | BGM =>
      (* CAkActionStop 1 (bgm) *)
      write [0x03; 0x15; 0x00; 0x00; 0x00];;
      write_int (compute_hash (wem_filename +:+ "_stop1"));;
      write [0x02; 0x01];;
      write_int 289663270;;
      write [0x00;
             0x01;
             0x10;
             0xF4; 0x01; 0x00; 0x00;
             0x00;
             0x04;
             0x06;
             0x00];;
      write_action_play bnk_out event_entry;;
      (* CAkActionStop2 (bgm) *)
      write [0x03; 0x10; 0x00; 0x00; 0x00];;
      write_int (compute_hash (wem_filename +:+ "_stop2"));;
      write [0x02; 0x01];;
      write_int 920168426;;
      write [0x00;
             0x00;
             0x00;
             0x04;
             0x06;
             0x00];;
      (* CAkEvent (bgm) *)
      write [0x04; 0x11; 0x00; 0x00; 0x00];;
      write_int (EventEntry.hash event_entry);;
      write [0x03];;
      write_int (compute_hash (wem_filename +:+ "_stop1"));;
      write_int (compute_hash (wem_filename +:+ "_play"));;
      write_int (compute_hash (wem_filename +:+ "_stop2"))
  end.

(** The objects of the HIRC section, after its entry count. *)
Definition write_hirc_objects (bnk_out : string)
    (in_sfx_wems in_bgm_wems : list string)
    (media_file_lookup : gmap Z MediaEntry.t) : W unit :=
  for_each (write_mixer media_file_lookup
              (sound_entry_list in_sfx_wems in_bgm_wems))
           (mixer_order bnk_out);;
  for_each (write_event bnk_out) (event_entry_list in_sfx_wems in_bgm_wems).

(** The HIRC section, with its length patched in at the end. *)
Definition write_hirc (bnk_out : string)
    (in_sfx_wems in_bgm_wems : list string)
    (media_file_lookup : gmap Z MediaEntry.t) : W unit :=
  write (b "HIRC");;
  HIRC_len_location ← tell;
  write_int 0;;
  write_int (hirc_entry_count in_sfx_wems in_bgm_wems);;
  write_hirc_objects bnk_out in_sfx_wems in_bgm_wems media_file_lookup;;
  HIRC_end_location ← tell;
  seek HIRC_len_location SEEK_SET;;
  write_int (Z.of_nat HIRC_end_location - Z.of_nat HIRC_len_location - 4).

(** Everything under [with open(bnk_out, "wb") as bnk_file]. *)
Definition write_bnk (bnk_out : string) (fs : filesystem)
    (in_sfx_wems in_bgm_wems : list string)
    (media_file_lookup : gmap Z MediaEntry.t) (sorted_media_hashes : list Z)
  : W unit :=
  write_bkhd bnk_out;;
  media_file_lookup ←
    (if (0 <? size media_file_lookup)%nat
     then write_didx_data fs media_file_lookup sorted_media_hashes
     else mret media_file_lookup);
  write_hirc bnk_out in_sfx_wems in_bgm_wems media_file_lookup.

(** ** The program *)

Record args : Type := mkArgs { bnk_file : string; exclude_bgm : bool }.

(** What a run leaves behind: the messages printed, the bank file ([None]
    when the run never opened it) and how the run ended. *)
Record run : Type := mkRun
  { stdout : list message;
    bnk : option (list Z);
    status : res unit }.

(** [stored_wems]: with [--exclude_bgm] the music is not stored in the
    bank. *)
Definition stored_wems (a : args) (t : table) : list string :=
  if exclude_bgm a then in_sfx_wems t else in_sfx_wems t ++ in_bgm_wems t.

(** [make_bnk.py], from the lines of the wem table to the closed bank file.
    The optional C header, written after the bank file is closed, is not
    part of the model. *)
Definition make_bnk (a : args) (wem_table_file : list string)
    (fs : filesystem) : run :=
  let bnk_out := bnk_file a in
  match read_wem_table 0 wem_table_file (mkTable [] [] []) with
  | (t, Some e) => mkRun (printed t) None (Raise e)
  | (t, None) =>
      match fill_media_file_lookup (stored_wems a t) ∅ with
      | (out, Raise e) => mkRun (printed t ++ out) None (Raise e)
      | (out, Ok media_file_lookup) =>
          let sorted_media_hashes := sorted_keys media_file_lookup in
          let '(r, f) :=
            write_bnk bnk_out fs (in_sfx_wems t) (in_bgm_wems t)
                      media_file_lookup sorted_media_hashes opened in
          mkRun (printed t ++ out) (Some (data f)) r
      end
  end.

(** ** Reading a bank file back

    What a consumer of the file sees: chunks with a tag and a declared
    length, the twelve-byte entries of the clip index, and the object records
    of the hierarchy. *)

(** A chunk as it lies in the file: tag, u32 length of the body, body. *)
Definition chunk (tag : string) (body : list Z) : list Z :=
  b tag ++ le_bytes 4 (Z.of_nat (length body)) ++ body.

(** An object record as it lies in the file: u8 type, u32 length of the
    body, body. *)
Definition record (r : Z * list Z) : list Z :=
  r.1 :: le_bytes 4 (Z.of_nat (length r.2)) ++ r.2.

(** Cuts a byte sequence into chunks by their declared lengths; [None] when
    a declared length runs past the end or a header is cut short. *)
Fixpoint parse_chunks_fuel (fuel : nat) (bs : list Z)
  : option (list (list Z * list Z)) :=
  match bs with
  | [] => Some []
  | t0 :: t1 :: t2 :: t3 :: l0 :: l1 :: l2 :: l3 :: rest =>
      match fuel with
      | O => None
      | S fuel' =>
          let n := Z.to_nat (from_bytes [l0; l1; l2; l3]) in
          if (n <=? length rest)%nat then
            cs ← parse_chunks_fuel fuel' (drop n rest);
            Some (([t0; t1; t2; t3], take n rest) :: cs)
          else None
      end
  | _ => None
  end.

Definition parse_chunks (bs : list Z) : option (list (list Z * list Z)) :=
  parse_chunks_fuel (length bs) bs.

(** Cuts the body of the hierarchy chunk, after its count, into records. *)
Fixpoint parse_records_fuel (fuel : nat) (bs : list Z)
  : option (list (Z * list Z)) :=
  match bs with
  | [] => Some []
  | ty :: l0 :: l1 :: l2 :: l3 :: rest =>
      match fuel with
      | O => None
      | S fuel' =>
          let n := Z.to_nat (from_bytes [l0; l1; l2; l3]) in
          if (n <=? length rest)%nat then
            rs ← parse_records_fuel fuel' (drop n rest);
            Some ((ty, take n rest) :: rs)
          else None
      end
  | _ => None
  end.

Definition parse_records (bs : list Z) : option (list (Z * list Z)) :=
  parse_records_fuel (length bs) bs.

(** The entries of a clip index: (id, uOffset, uSize). *)
Fixpoint parse_didx (bs : list Z) : list (Z * Z * Z) :=
  match bs with
  | a0 :: a1 :: a2 :: a3 :: b0 :: b1 :: b2 :: b3 :: c0 :: c1 :: c2 :: c3 :: rest =>
      (from_bytes [a0; a1; a2; a3], from_bytes [b0; b1; b2; b3],
       from_bytes [c0; c1; c2; c3]) :: parse_didx rest
  | _ => []
  end.

(** The little-endian integer of [n] bytes at offset [i]. *)
Definition int_at (i n : nat) (bs : list Z) : Z :=
  from_bytes (take n (drop i bs)).

Fixpoint ints_at (i count : nat) (bs : list Z) : list Z :=
  match count with
  | O => []
  | S k => int_at i 4 bs :: ints_at (i + 4) k bs
  end.

(** What an object record says, field by field. *)
Inductive object : Type :=
| Sound (id clip uSize parent : Z)
| ActorMixer (id : Z) (children : list Z)
| Action (id action_type target : Z)
| Event (id : Z) (actions : list Z)
| Unknown.

Definition PLAY : Z := 0x0403.
Definition STOP_E : Z := 0x0102.

(** The fixed placeholder for the size of a clip that is not in the bank. *)
Definition PLACEHOLDER_SIZE : Z := 1024.

Definition read_object (r : Z * list Z) : object :=
  let '(ty, body) := r in
  if ty =? 2 then
    Sound (int_at 0 4 body) (int_at 9 4 body) (int_at 13 4 body)
          (int_at 27 4 body)
  else if ty =? 7 then
    let cProps := Z.to_nat (int_at 18 1 body) in
    let at_children := (37 + 5 * cProps)%nat in
    ActorMixer (int_at 0 4 body)
               (ints_at (at_children + 4)
                        (Z.to_nat (int_at at_children 4 body)) body)
  else if ty =? 3 then
    Action (int_at 0 4 body) (int_at 4 2 body) (int_at 6 4 body)
  else if ty =? 4 then
    Event (int_at 0 4 body) (ints_at 5 (Z.to_nat (int_at 4 1 body)) body)
  else Unknown.

(** The objects one event entry stands for: its actions, then the event
    that lists them. *)
Definition event_objects (e : EventEntry.t) : list object :=
  let name := EventEntry.wem_filename e in
  let play := compute_hash (name +:+ "_play") in
  let sound := compute_hash (name +:+ "_sound") in
  match EventEntry.wem_type e with
  | SFX =>
      [ Action play PLAY sound;
        Event (EventEntry.hash e) [play] ]
  | BGM =>
      let stop1 := compute_hash (name +:+ "_stop1") in
      let stop2 := compute_hash (name +:+ "_stop2") in
      [ Action stop1 STOP_E 289663270;
        Action play PLAY sound;
        Action stop2 STOP_E 920168426;
        Event (EventEntry.hash e) [stop1; play; stop2] ]
  end.

Definition is_sound_or_mixer (o : object) : bool :=
  match o with
  | Sound _ _ _ _ | ActorMixer _ _ => true
  | _ => false
  end.

(** The body of a chunk by its tag. *)
Definition chunk_body (tag : string) (chunks : list (list Z * list Z))
  : option (list Z) :=
  snd <$> List.find (fun c => bool_decide (c.1 = b tag)) chunks.

(** Consecutive elements increase strictly. *)
Fixpoint ascending (l : list Z) : Prop :=
  match l with
  | x :: ((y :: _) as l') => x < y ∧ ascending l'
  | _ => True
  end.

(** A file system for the examples: every clip holds three bytes. *)
Definition three_bytes : filesystem := fun _ => Some [1; 2; 3].

Definition LF : string := String (ascii_of_nat 10) EmptyString.

(** A line of the table. *)
Definition line (category path : string) : string :=
  category +:+ String TAB EmptyString +:+ path +:+ LF.

(** ** Writers that only move forward

    Most of the program writes one piece after the other without looking at
    the position.  Such a computation is told by what it does on the file
    just opened: its result and the bytes it puts out. *)

Definition result {A} (m : W A) : res A := (m opened).1.

Definition output {A} (m : W A) : list Z := data (m opened).2.

(** [m] behaves on every file as on the opened one: it writes [output m] at
    the position of the file and returns [result m]. *)
Definition sequential {A} (m : W A) : Prop :=
  ∀ f, m f = (result m,
              mkFile (write_at (data f) (pos f) (output m))
                     (pos f + length (output m))).

(** The position is at the end of the file. *)
Definition at_end (f : file) : Prop := pos f = length (data f).

(** An integer that fits a u32. *)
Definition u32 (n : Z) : Prop := 0 ≤ n < 2 ^ 32.

(** A record whose body length fits the u32 that declares it. *)
Definition well_sized (r : Z * list Z) : Prop := u32 (Z.of_nat (length r.2)).

(** The sound object of a sound entry under a parent mixer: its size is the
    size of its clip in the catalog, or the placeholder when the clip is not
    there. *)
Definition sound_of (mfl : gmap Z MediaEntry.t) (parent : Z)
    (se : SoundEntry.t) : object :=
  Sound (SoundEntry.hash se) (SoundEntry.wem_hash se)
        (from_option MediaEntry.size PLACEHOLDER_SIZE
           (mfl !! SoundEntry.wem_hash se)) parent.

(** The number of records one round of the mixer loop puts out: none for a
    category without sounds, else its sounds and its mixer. *)
Definition mixer_round (n : nat) : nat := if (n =? 0)%nat then 0%nat else S n.

(** Two catalogs with the same keys, and under each key the same hash and
    file name. *)
Definition same_clips (m1 m2 : gmap Z MediaEntry.t) : Prop :=
  ∀ k, (fun e => (MediaEntry.hash e, MediaEntry.wem_filename e)) <$> m1 !! k
       = (fun e => (MediaEntry.hash e, MediaEntry.wem_filename e)) <$> m2 !! k.

(** The bytes of the blob area: before each clip as many zeros as the loop
    put there. *)
Definition segments (segs : list (nat * list Z)) : list Z :=
  flat_map (fun s => replicate s.1 0 ++ s.2) segs.

(** One entry of the clip index. *)
Definition didx_entry (e : MediaEntry.t) : list Z :=
  le_bytes 4 (MediaEntry.hash e) ++ le_bytes 4 (MediaEntry.offset e)
    ++ le_bytes 4 (MediaEntry.size e).

(** The catalog: its keys are the hashes of the stored paths, and every
    entry sits under its own hash. *)
Definition keyed (m : gmap Z MediaEntry.t) : Prop :=
  ∀ k e, m !! k = Some e → MediaEntry.hash e = k.

(** A chunk with its tag as bytes. *)
Definition chunk_bytes (c : list Z * list Z) : list Z :=
  c.1 ++ le_bytes 4 (Z.of_nat (length c.2)) ++ c.2.

(** The chunks of the file a run leaves behind. *)
Definition bank_chunks (mfl : gmap Z MediaEntry.t) (bkhd : list Z)
    (entries : list MediaEntry.t) (segs : list (nat * list Z))
    (count : Z) (recs : list (Z * list Z)) : list (list Z * list Z) :=
  [(b "BKHD", bkhd)]
  ++ (if (0 <? size mfl)%nat
      then [(b "DIDX", flat_map didx_entry entries); (b "DATA", segments segs)]
      else [])
  ++ [(b "HIRC", le_bytes 4 count ++ flat_map record recs)].

(** The category token of a line, as the loop compares it. *)
Definition line_category (line : string) : string :=
  Str.upper (default "" (Str.split TAB (Str.strip line) !! 0%nat)).

(** The category token of a line, as the loop prints it. *)
Definition line_token (line : string) : list Z :=
  Str.upper_points (default "" (Str.split TAB (Str.strip line) !! 0%nat)).

(** A character whose capital lies beyond Latin-1. *)
Definition beyond (c : ascii) : Prop :=
  N_of_ascii c = 181%N ∨ N_of_ascii c = 255%N.

(** The number of categories that have at least one clip. *)
Definition mixers_present (t : table) : Z :=
  (match in_sfx_wems t with [] => 0 | _ => 1 end)
  + (match in_bgm_wems t with [] => 0 | _ => 1 end).

(** The clips a table holds, whatever was printed on the way. *)
Definition wems (t : table) : list string * list string :=
  (in_sfx_wems t, in_bgm_wems t).

(** One SFX clip and one BGM clip, as in scenario A of the specification. *)
Definition scenario_A : list string :=
  [line "SFX" "foo.wem"; line "BGM" "bar.wem"].

Definition bank_A : list Z :=
  default [] (bnk (make_bnk (mkArgs "out.bnk" false) scenario_A three_bytes)).

(** The same table with the music left out of the bank. *)
Definition bank_A_excluded : list Z :=
  default [] (bnk (make_bnk (mkArgs "out.bnk" true) scenario_A three_bytes)).

(** The claim about an unknown category as the specification states it: a
    line with such a category makes the run fatal, and no bank file is
    created. *)
Definition invalid_category_is_fatal (a : args) (wem_table_file : list string)
    (fs : filesystem) : Prop :=
  ∀ l, l ∈ wem_table_file →
       line_category l ≠ "SFX" → line_category l ≠ "BGM" →
       (∃ e, status (make_bnk a wem_table_file fs) = Raise e) ∧
       bnk (make_bnk a wem_table_file fs) = None.

(** The claim about excluded music as the specification states it: no entry
    of the clip index belongs to a BGM clip, and the sound of every BGM clip
    carries the placeholder size. *)
Definition excluded_bgm_as_specified (a : args) (wem_table_file : list string)
    (fs : filesystem) : Prop :=
  exclude_bgm a = true →
  ∀ t bytes chunks hirc recs,
    read_wem_table 0 wem_table_file (mkTable [] [] []) = (t, None) →
    bnk (make_bnk a wem_table_file fs) = Some bytes →
    parse_chunks bytes = Some chunks →
    chunk_body "HIRC" chunks = Some hirc →
    parse_records (drop 4 hirc) = Some recs →
    ∀ p, p ∈ in_bgm_wems t →
      (∀ didx e, chunk_body "DIDX" chunks = Some didx → e ∈ parse_didx didx →
                 e.1.1 ≠ compute_hash p) ∧
      (∀ parent uSize,
         Sound (compute_hash (p +:+ "_sound")) (compute_hash p) uSize parent
           ∈ map read_object recs →
         uSize = PLACEHOLDER_SIZE).

(** The entries of a clip index lie one after another between [start] and
    [stop]: each begins [start mod 8] bytes after the end of the one
    before. *)
Fixpoint laid_out (start : Z) (entries : list (Z * Z * Z)) (stop : Z) : Prop :=
  match entries with
  | [] => stop = start
  | (_, uOffset, uSize) :: rest =>
      uOffset = start + start mod 8 ∧ 0 ≤ uSize ∧
      laid_out (uOffset + uSize) rest stop
  end.

(** The second field of a line, as the loop reads it. *)
Definition line_path (line : string) : option string :=
  Str.split TAB (Str.strip line) !! 1%nat.

(** The paths of the lines of one category, in the order of the lines. *)
Definition paths_of (category : string) (lines : list string) : list string :=
  omap line_path (filter (fun l => line_category l = category) lines).

(** The messages for the lines of neither category, each with the index of
    its line; [i] is the index of the first line. *)
Fixpoint invalid_lines (i : nat) (lines : list string) : list message :=
  match lines with
  | [] => []
  | l :: lines' =>
      (if String.eqb (line_category l) "SFX" then []
       else if String.eqb (line_category l) "BGM" then []
       else [InvalidWemType i (line_token l)])
      ++ invalid_lines (S i) lines'
  end.

(** The size of a clip as the clip index of a file gives it. *)
Definition clip_size (chunks : list (list Z * list Z)) (id : Z) : option Z :=
  didx ← chunk_body "DIDX" chunks;
  snd <$> List.find (fun e => bool_decide (e.1.1 = id)) (parse_didx didx).

(** The sound object of a sound entry under a parent mixer, for a given
    table of clip sizes: a clip without a size has the placeholder. *)
Definition sound_object (sizes : Z → option Z) (parent : Z)
    (se : SoundEntry.t) : object :=
  Sound (SoundEntry.hash se) (SoundEntry.wem_hash se)
        (default PLACEHOLDER_SIZE (sizes (SoundEntry.wem_hash se))) parent.

(** The objects of one round of the mixer loop: nothing for a category
    without sounds, else its sounds and then the mixer that lists them. *)
Definition mixer_objects (sizes : Z → option Z) (sel : list SoundEntry.t)
    (m : Z * wem_type) : list object :=
  let mixer_sounds :=
    List.filter (fun x => wem_type_eqb (SoundEntry.wem_type x) m.2) sel in
  if (length mixer_sounds =? 0)%nat then []
  else map (sound_object sizes m.1) mixer_sounds
       ++ [ActorMixer m.1 (map SoundEntry.hash mixer_sounds)].

(** The objects of a hierarchy, in the order of the file. *)
Definition hirc_objects (bnk_out : string) (t : table)
    (sizes : Z → option Z) : list object :=
  flat_map (mixer_objects sizes
              (sound_entry_list (in_sfx_wems t) (in_bgm_wems t)))
           (mixer_order bnk_out)
  ++ flat_map event_objects (event_entry_list (in_sfx_wems t) (in_bgm_wems t)).

(** Every reference inside a list of objects leads to an object of the
    list: a sound to the mixer that lists it, a mixer to the sounds under
    it, a play action to its sound, an event to its actions. *)
Definition well_linked (objs : list object) : Prop :=
  ∀ o, o ∈ objs →
    match o with
    | Sound id _ _ parent =>
        ∃ children, ActorMixer parent children ∈ objs ∧ id ∈ children
    | ActorMixer id children =>
        ∀ c, c ∈ children → ∃ clip uSize, Sound c clip uSize id ∈ objs
    | Action _ action_type target =>
        action_type = PLAY →
        ∃ clip uSize parent, Sound target clip uSize parent ∈ objs
    | Event _ actions =>
        ∀ x, x ∈ actions → ∃ action_type target, Action x action_type target ∈ objs
    | Unknown => False
    end.

(** * Properties *)

(** ** Identity hasher *)

Section Hasher.

Lemma land_mask (x : Z) : Z.land x 0xFFFFFFFF = x mod 2 ^ 32.
Proof. change 0xFFFFFFFF with (Z.ones 32). by rewrite Z.land_ones. Qed.

Lemma hash_step_range (h : Z) (c : ascii) : 0 ≤ hash_step h c < 2 ^ 32.
Proof. unfold hash_step. rewrite land_mask. apply Z.mod_pos_bound. lia. Qed.

Lemma hash_loop_range (name : string) (h : Z) :
  0 ≤ h < 2 ^ 32 → 0 ≤ hash_loop name h < 2 ^ 32.
Proof.
  revert h. induction name as [|c rest IH]; intros h Hh; simpl; [done|].
  apply IH, hash_step_range.
Qed.

Lemma compute_hash_range (name : string) : 0 ≤ compute_hash name < 2 ^ 32.
Proof. unfold compute_hash. apply hash_loop_range. lia. Qed.

Lemma hash_loop_fold (name : string) (h : Z) :
  hash_loop name h =
  fold_left (fun accum element => Z.lxor (accum * 16777619) element mod 2 ^ 32)
            (map Str.ord (Str.chars name)) h.
Proof.
  revert h. induction name as [|c rest IH]; intros h; simpl; [done|].
  rewrite IH. unfold hash_step. by rewrite land_mask.
Qed.

Lemma lower_char_idemp (c : ascii) :
  Str.lower_char (Str.lower_char c) = Str.lower_char c.
Proof.
  destruct c as [[] [] [] [] [] [] [] []]; vm_compute; reflexivity.
Qed.

Lemma lower_idemp (s : string) : Str.lower (Str.lower s) = Str.lower s.
Proof.
  induction s as [|c rest IH]; simpl; [done|].
  by rewrite lower_char_idemp, IH.
Qed.

Lemma same_up_to_case_lower (s t : string) :
  same_up_to_case s t → Str.lower s = Str.lower t.
Proof.
  unfold same_up_to_case. revert t.
  induction s as [|c rest IH]; intros [|d t'] H; simpl in *;
    inversion H; subst; [done|].
  f_equal; auto.
Qed.

End Hasher.

(** C1. [compute_hash] is the 32-bit FNV-style accumulation over the
    lower-cased string: it starts at 2166136261 and per element takes
    [((accum * 16777619) XOR element) mod 2^32].  It is therefore blind to
    case (strings that differ only in case, such as "foo.wem" and "FOO.WEM",
    hash alike), and the empty string hashes to 2166136261. *)
Theorem compute_hash_fnv :
  (∀ s, compute_hash s = fnv_accum (map Str.ord (Str.chars (Str.lower s)))) ∧
  (∀ s, 0 ≤ compute_hash s < 2 ^ 32) ∧
  (∀ s, compute_hash (Str.lower s) = compute_hash s) ∧
  (∀ s t, same_up_to_case s t → compute_hash s = compute_hash t) ∧
  same_up_to_case "foo.wem" "FOO.WEM" ∧
  compute_hash "foo.wem" = compute_hash "FOO.WEM" ∧
  compute_hash "FoO.wEm" = compute_hash "foo.wem" ∧
  compute_hash "" = 2166136261.
Proof.
  split; [|split; [|split; [|split; [|split; [|split; [|split]]]]]].
  - intros s. unfold compute_hash, fnv_accum. apply hash_loop_fold.
  - apply compute_hash_range.
  - intros s. unfold compute_hash. by rewrite lower_idemp.
  - intros s t H. unfold compute_hash.
    by rewrite (same_up_to_case_lower s t H).
  - unfold same_up_to_case. simpl. repeat constructor.
  - reflexivity.
  - reflexivity.
  - reflexivity.
Qed.

(** ** Bytes *)

Section Bytes.

Lemma length_le_bytes (n : nat) (z : Z) : length (le_bytes n z) = n.
Proof. revert z. induction n as [|n IH]; intros z; simpl; [done|]. by rewrite IH. Qed.

Lemma from_le_bytes (n : nat) (z : Z) :
  from_bytes (le_bytes n z) = z mod 256 ^ Z.of_nat n.
Proof.
  revert z. induction n as [|n IH]; intros z.
  - simpl. by rewrite Z.mod_1_r.
  - cbn [le_bytes from_bytes]. rewrite IH.
    rewrite Nat2Z.inj_succ, Z.pow_succ_r by lia.
    rewrite Z.rem_mul_r by lia. lia.
Qed.

Lemma from_le_bytes_4 (z : Z) : u32 z → from_bytes (le_bytes 4 z) = z.
Proof.
  intros Hz. rewrite from_le_bytes. apply Z.mod_small.
  unfold u32 in Hz. change (256 ^ Z.of_nat 4) with (2 ^ 32). lia.
Qed.

Lemma to_bytes_4_Ok (z : Z) (bs : list Z) :
  to_bytes z 4 = Ok bs → bs = le_bytes 4 z ∧ u32 z.
Proof.
  unfold to_bytes, u32. change (256 ^ Z.of_nat 4) with (2 ^ 32).
  destruct (0 <=? z) eqn:E1; destruct (z <? 2 ^ 32) eqn:E2; simpl;
    intros [= <-]. split; [done|lia].
Qed.

Lemma to_bytes_4_u32 (z : Z) : u32 z → to_bytes z 4 = Ok (le_bytes 4 z).
Proof.
  unfold to_bytes, u32. change (256 ^ Z.of_nat 4) with (2 ^ 32). intros Hz.
  destruct (0 <=? z) eqn:E1; destruct (z <? 2 ^ 32) eqn:E2; simpl; try done; lia.
Qed.

End Bytes.

(** ** Writing at a position *)

Section WriteAt.

Lemma write_at_over (a c bs : list Z) :
  write_at (a ++ c) (length a) bs = a ++ bs ++ drop (length bs) c.
Proof.
  destruct bs as [|x bs]; [done|]. unfold write_at.
  rewrite take_app_length.
  replace (length a - length (a ++ c))%nat with 0%nat
    by (rewrite length_app; lia).
  rewrite drop_app_add. reflexivity.
Qed.

Lemma write_at_end (d bs : list Z) : write_at d (length d) bs = d ++ bs.
Proof.
  rewrite <-(app_nil_r d) at 1. rewrite write_at_over.
  by rewrite drop_nil, app_nil_r.
Qed.

Lemma write_at_opened (bs : list Z) : write_at [] 0 bs = bs.
Proof. apply (write_at_end [] bs). Qed.

(** Overwriting a piece in the middle by one of the same length. *)
Lemma write_at_middle (a old new c : list Z) :
  length old = length new →
  write_at (a ++ old ++ c) (length a) new = a ++ new ++ c.
Proof.
  intros Hlen. rewrite write_at_over, <-Hlen. by rewrite drop_app_length.
Qed.

(** Writing past the end fills the gap with zeros. *)
Lemma write_at_gap (d bs : list Z) (n : nat) :
  bs ≠ [] →
  write_at d (length d + n) bs = d ++ replicate n 0 ++ bs.
Proof.
  intros Hbs. destruct bs as [|x bs]; [done|]. unfold write_at.
  rewrite take_ge by lia.
  replace (length d + n - length d)%nat with n by lia.
  rewrite drop_ge by lia. by rewrite app_nil_r.
Qed.

(** Two writes in a row are one write of both pieces. *)
Lemma write_at_app (d : list Z) (p : nat) (b1 b2 : list Z) :
  write_at (write_at d p b1) (p + length b1) b2 = write_at d p (b1 ++ b2).
Proof.
  destruct b1 as [|x1 b1].
  { simpl. by rewrite Nat.add_0_r. }
  destruct b2 as [|x2 b2].
  { by rewrite app_nil_r. }
  set (B1 := x1 :: b1). set (B2 := x2 :: b2).
  assert (HA : length (take p d ++ replicate (p - length d) 0) = p).
  { rewrite length_app, length_take, length_replicate. lia. }
  assert (E1 : write_at d p B1 =
               (take p d ++ replicate (p - length d) 0) ++ B1
                 ++ drop (p + length B1) d).
  { unfold B1, write_at. by rewrite <-app_assoc. }
  assert (E2 : write_at d p (B1 ++ B2) =
               (take p d ++ replicate (p - length d) 0) ++ B1 ++ B2
                 ++ drop (p + length (B1 ++ B2)) d).
  { unfold B1, B2, write_at. simpl app. by rewrite <-!app_assoc. }
  rewrite E1, E2.
  set (A := take p d ++ replicate (p - length d) 0) in *.
  rewrite (app_assoc A B1 (drop _ d)).
  replace (p + length B1)%nat with (length (A ++ B1)) at 2
    by (rewrite length_app; lia).
  rewrite write_at_over, drop_drop, <-!app_assoc.
  by rewrite (length_app B1 B2), Nat.add_assoc.
Qed.

End WriteAt.

(** ** Sequential writers *)

Section Sequential.

Lemma run_opened {A} (m : W A) :
  sequential m → m opened = (result m, mkFile (output m) (length (output m))).
Proof.
  intros Hm. rewrite (Hm opened). simpl. by rewrite write_at_opened.
Qed.

Lemma run_at_end {A} (m : W A) (f : file) :
  sequential m → at_end f →
  m f = (result m, mkFile (data f ++ output m) (length (data f ++ output m))).
Proof.
  intros Hm Hf. rewrite (Hm f), Hf, write_at_end. by rewrite length_app.
Qed.

Lemma sequential_intro {A} (m : W A) (r : res A) (bs : list Z) :
  (∀ f, m f = (r, mkFile (write_at (data f) (pos f) bs) (pos f + length bs))) →
  sequential m ∧ result m = r ∧ output m = bs.
Proof.
  intros H.
  assert (Hr : result m = r) by (unfold result; by rewrite H).
  assert (Ho : output m = bs).
  { unfold output. rewrite H. simpl. apply write_at_opened. }
  split; [|done]. intros f. by rewrite Hr, Ho.
Qed.

Lemma sequential_ret {A} (a : A) : sequential (mret a : W A).
Proof. apply (sequential_intro _ (Ok a) []). intros [d p]. simpl.
       unfold mret, W_ret. by rewrite Nat.add_0_r. Qed.

Lemma sequential_lift {A} (r : res A) : sequential (lift r).
Proof. apply (sequential_intro _ r []). intros [d p]. simpl.
       unfold lift. by rewrite Nat.add_0_r. Qed.

Lemma sequential_write (bs : list Z) : sequential (write bs).
Proof. by apply (sequential_intro _ (Ok tt) bs). Qed.

Lemma output_write (bs : list Z) : output (write bs) = bs.
Proof. apply write_at_opened. Qed.

Lemma output_ret {A} (a : A) : output (mret a : W A) = [].
Proof. done. Qed.

Lemma output_lift {A} (r : res A) : output (lift r) = [].
Proof. done. Qed.

Lemma result_lift {A} (r : res A) : result (lift r) = r.
Proof. done. Qed.

Lemma result_bind_Raise {A B} (m : W A) (k : A → W B) (e : exn) :
  result m = Raise e → result (m ≫= k) = Raise e.
Proof.
  unfold result, mbind, W_bind. destruct (m opened) as [[a|e'] f']; simpl; congruence.
Qed.

Lemma bind_Ok {A B} (m : W A) (k : A → W B) (a : A) :
  sequential m → sequential (k a) → result m = Ok a →
  result (m ≫= k) = result (k a) ∧
  output (m ≫= k) = output m ++ output (k a).
Proof.
  intros Hm Hk Ha. unfold result at 1, output at 1, mbind, W_bind.
  rewrite (run_opened m Hm), Ha.
  rewrite (run_at_end (k a) _ Hk) by done. done.
Qed.

Lemma sequential_bind {A B} (m : W A) (k : A → W B) :
  sequential m → (∀ a, sequential (k a)) → sequential (m ≫= k).
Proof.
  intros Hm Hk f. destruct (result m) as [a|e] eqn:Hr.
  - destruct (bind_Ok m k a Hm (Hk a) Hr) as [-> ->].
    unfold mbind, W_bind. rewrite (Hm f), Hr, (Hk a). simpl.
    by rewrite write_at_app, length_app, Nat.add_assoc.
  - rewrite (result_bind_Raise m k e Hr).
    unfold output, mbind, W_bind. rewrite (Hm f), Hr.
    unfold result in Hr. destruct (m opened) as [r' f'] eqn:E.
    simpl in Hr. subst r'. unfold output. by rewrite E.
Qed.

Lemma bind_Ok_inv {A B} (m : W A) (k : A → W B) (r : B) :
  sequential m → (∀ a, sequential (k a)) →
  result (m ≫= k) = Ok r →
  ∃ a, result m = Ok a ∧ result (k a) = Ok r ∧
       output (m ≫= k) = output m ++ output (k a).
Proof.
  intros Hm Hk Hr. destruct (result m) as [a|e] eqn:Ha.
  - exists a. destruct (bind_Ok m k a Hm (Hk a) Ha) as [E1 E2].
    by rewrite <-E1, E2.
  - by rewrite (result_bind_Raise m k e Ha) in Hr.
Qed.

Lemma sequential_write_int (n : Z) : sequential (write_int n).
Proof.
  apply sequential_bind; [apply sequential_lift|]. intros a. apply sequential_write.
Qed.

Lemma write_int_Ok_inv (n : Z) :
  result (write_int n) = Ok tt → u32 n ∧ output (write_int n) = le_bytes 4 n.
Proof.
  unfold write_int. intros H.
  apply bind_Ok_inv in H as (bs & H1 & _ & H3);
    [|apply sequential_lift|intros; apply sequential_write].
  rewrite result_lift in H1. apply to_bytes_4_Ok in H1 as [-> Hu].
  split; [done|]. by rewrite H3, output_lift, output_write.
Qed.

Lemma sequential_for_each {A} (body : A → W unit) (l : list A) :
  (∀ x, sequential (body x)) → sequential (for_each body l).
Proof.
  intros Hb. induction l as [|x l IH]; simpl.
  - apply sequential_ret.
  - apply sequential_bind; [apply Hb|]. by intros _.
Qed.

Lemma for_each_Ok_inv {A} (body : A → W unit) (l : list A) :
  (∀ x, sequential (body x)) →
  result (for_each body l) = Ok tt →
  Forall (fun x => result (body x) = Ok tt) l ∧
  output (for_each body l) = flat_map (fun x => output (body x)) l.
Proof.
  intros Hb. induction l as [|x l IH]; simpl; intros H.
  - done.
  - apply bind_Ok_inv in H as ([] & H1 & H2 & H3);
      [|apply Hb|intros; by apply sequential_for_each].
    destruct (IH H2) as [IH1 IH2]. split; [by constructor|].
    by rewrite H3, IH2.
Qed.

Lemma sequential_for_fold {A S} (body : S → A → W S) (l : list A) (s : S) :
  (∀ s x, sequential (body s x)) → sequential (for_fold body l s).
Proof.
  intros Hb. revert s. induction l as [|x l IH]; intros s; simpl.
  - apply sequential_ret.
  - apply sequential_bind; [apply Hb|]. intros s'. apply IH.
Qed.

End Sequential.

(** ** Sorting *)

Section Sorting.
Context {A : Type} (key : A → Z).

Lemma insert_by_Permutation (x : A) (l : list A) :
  insert_by key x l ≡ₚ x :: l.
Proof.
  induction l as [|y l IH]; simpl; [done|].
  destruct (key x <=? key y); [done|].
  rewrite IH. apply Permutation_swap.
Qed.

Lemma sort_by_Permutation (l : list A) : sort_by key l ≡ₚ l.
Proof.
  induction l as [|x l IH]; simpl; [done|].
  fold (sort_by key l). by rewrite insert_by_Permutation, IH.
Qed.

Lemma length_sort_by (l : list A) : length (sort_by key l) = length l.
Proof. apply Permutation_length, sort_by_Permutation. Qed.

Lemma insert_by_sorted (x : A) (l : list A) :
  StronglySorted (fun a b => key a ≤ key b) l →
  StronglySorted (fun a b => key a ≤ key b) (insert_by key x l).
Proof.
  induction 1 as [|y l Hl IH Hy]; simpl.
  - repeat constructor.
  - destruct (key x <=? key y) eqn:E.
    + apply Z.leb_le in E. constructor; [by constructor|].
      constructor; [done|]. eapply Forall_impl; [exact Hy|].
      simpl. intros z Hz. lia.
    + apply Z.leb_gt in E. constructor; [done|].
      rewrite insert_by_Permutation. constructor; [lia|done].
Qed.

Lemma sort_by_sorted (l : list A) :
  StronglySorted (fun a b => key a ≤ key b) (sort_by key l).
Proof.
  induction l as [|x l IH]; simpl; [constructor|].
  by apply insert_by_sorted.
Qed.

End Sorting.

Lemma ascending_sorted_NoDup (l : list Z) :
  StronglySorted (fun a b => id a ≤ id b) l → NoDup l → ascending l.
Proof.
  induction 1 as [|x l Hl IH Hx]; intros Hnd; [done|].
  apply NoDup_cons in Hnd as [Hx' Hnd].
  destruct l as [|y l']; [done|]. split; [|by apply IH].
  apply Forall_cons in Hx as [Hxy _]. unfold id in Hxy.
  assert (x ≠ y) by (intros ->; apply Hx'; left). lia.
Qed.

Lemma sorted_keys_ascending {V} (d : gmap Z V) : ascending (sorted_keys d).
Proof.
  apply ascending_sorted_NoDup; [apply sort_by_sorted|].
  unfold sorted_keys. rewrite sort_by_Permutation.
  apply NoDup_fst_map_to_list.
Qed.

Lemma sorted_keys_elem_of {V} (d : gmap Z V) (k : Z) :
  k ∈ sorted_keys d ↔ is_Some (d !! k).
Proof.
  unfold sorted_keys. rewrite sort_by_Permutation.
  rewrite list_elem_of_fmap. split.
  - intros ([k' v] & -> & H). apply elem_of_map_to_list in H. by exists v.
  - intros [v Hv]. exists (k, v). split; [done|]. by apply elem_of_map_to_list.
Qed.

Lemma length_sorted_keys {V} (d : gmap Z V) : length (sorted_keys d) = size d.
Proof.
  unfold sorted_keys. rewrite length_sort_by, length_map.
  by rewrite length_map_to_list.
Qed.

(** ** The object records *)

Create HintDb seq.

#[local] Hint Resolve sequential_write sequential_write_int sequential_lift
sequential_ret : seq.

(** Proves that a writer made of writes, binds, loops and branches is
  sequential. *)
Ltac seq :=
repeat first
  [ assumption
  | apply sequential_bind; [|intros]
  | apply sequential_for_each; intros
  | apply sequential_for_fold; intros
  | progress auto with seq nocore
  | match goal with
    | |- sequential (if ?c then _ else _) => destruct c
    | |- sequential (match ?x with _ => _ end) => destruct x
    end ].

(** From a run of [m ≫= k] that returned, the first step returned and the
  output is the output of the step followed by that of the rest. *)
Ltac step H Hm Ho :=
apply bind_Ok_inv in H as ([] & Hm & H & Ho); [|seq|intros; seq].

(** The same for a step that returns a value. *)
Ltac step_val H a Hm Ho :=
apply bind_Ok_inv in H as (a & Hm & H & Ho); [|seq|intros; seq].

(** [step] for a leading [write]. *)
Ltac step_write H Hout :=
let Hm := fresh "Hm" in
let Ho := fresh "Ho" in
step H Hm Ho; clear Hm; rewrite output_write in Ho;
rewrite Ho in Hout; clear Ho.

(** [step] for a leading [write_int]. *)
Ltac step_int H Hout Hu :=
let Hm := fresh "Hm" in
let Ho := fresh "Ho" in
step H Hm Ho; apply write_int_Ok_inv in Hm as [Hu Hm];
rewrite Hm in Ho; rewrite Ho in Hout; clear Ho Hm.

Lemma le_bytes_4_shape (z : Z) :
u32 z →
∃ a0 a1 a2 a3, le_bytes 4 z = [a0; a1; a2; a3] ∧ from_bytes [a0; a1; a2; a3] = z.
Proof.
intros U. exists (z mod 256), (z / 256 mod 256), (z / 256 / 256 mod 256),
  (z / 256 / 256 / 256 mod 256).
split; [done|]. by apply (from_le_bytes_4 z).
Qed.

(** Names the four bytes of every integer of the goal that is known to fit
  a u32, so that the fields of a record can be read off by computation. *)
Ltac name_bytes :=
repeat match goal with
| U : u32 ?z |- context [le_bytes 4 ?z] =>
    lazymatch z with
    | Z0 => fail | Zpos _ => fail | Zneg _ => fail | _ => idtac
    end;
    let E := fresh "E" in
    let F := fresh "F" in
    destruct (le_bytes_4_shape z U) as (? & ? & ? & ? & E & F);
    rewrite !E; clear E; try rewrite <-!F; clear F
end.

Lemma write_action_play_records (bnk_out : string) (e : EventEntry.t) :
  result (write_action_play bnk_out e) = Ok tt →
  ∃ body,
    output (write_action_play bnk_out e) = record (3, body) ∧
    well_sized (3, body) ∧
    read_object (3, body) =
      Action (compute_hash (EventEntry.wem_filename e +:+ "_play")) PLAY
             (compute_hash (EventEntry.wem_filename e +:+ "_sound")).
Proof.
  intros H. pose proof (eq_refl (output (write_action_play bnk_out e))) as Hout.
  unfold write_action_play in H, Hout at 2.
  step_write H Hout. step_int H Hout U1. step_write H Hout.
  step_int H Hout U2. step_write H Hout.
  apply write_int_Ok_inv in H as [U3 H]. rewrite H in Hout. clear H.
  match type of Hout with _ = _ ++ ?body => exists body end.
  split; [rewrite Hout; reflexivity|]. split.
  - unfold well_sized, u32. simpl. lia.
  - name_bytes. reflexivity.
Qed.

Lemma sequential_write_action_play (bnk_out : string) (e : EventEntry.t) :
  sequential (write_action_play bnk_out e).
Proof. unfold write_action_play. seq. Qed.
#[local] Hint Resolve sequential_write_action_play : seq.

Lemma sequential_write_event (bnk_out : string) (e : EventEntry.t) :
  sequential (write_event bnk_out e).
Proof. unfold write_event. seq. Qed.

Lemma write_event_records (bnk_out : string) (e : EventEntry.t) :
  result (write_event bnk_out e) = Ok tt →
  ∃ recs,
    output (write_event bnk_out e) = flat_map record recs ∧
    Forall well_sized recs ∧
    map read_object recs = event_objects e.
Proof.
  intros H. pose proof (eq_refl (output (write_event bnk_out e))) as Hout.
  unfold write_event in H, Hout at 2. unfold event_objects.
  destruct (EventEntry.wem_type e).
  - step H Hp Ho. rewrite Ho in Hout. clear Ho.
    apply write_action_play_records in Hp as (play & Ep & Wp & Rp).
    rewrite Ep in Hout. clear Ep.
    step_write H Hout. step_int H Hout U1. step_write H Hout.
    apply write_int_Ok_inv in H as [U2 H]. rewrite H in Hout. clear H.
    match type of Hout with _ = _ ++ _ ++ ?body =>
      exists [(3, play); (4, body)] end.
    split; [rewrite Hout; reflexivity|]. split.
    + repeat first [apply Forall_nil_2 | apply Forall_cons_2]; try done;
        unfold well_sized, u32; simpl; lia.
    + cbn [map]. rewrite Rp. name_bytes. reflexivity.
  - step_write H Hout. step_int H Hout U1. step_write H Hout.
    step_int H Hout U2. step_write H Hout.
    step H Hp Ho. rewrite Ho in Hout. clear Ho.
    apply write_action_play_records in Hp as (play & Ep & Wp & Rp).
    rewrite Ep in Hout. clear Ep.
    step_write H Hout. step_int H Hout U3. step_write H Hout.
    step_int H Hout U4. step_write H Hout.
    step_write H Hout. step_int H Hout U5. step_write H Hout.
    step_int H Hout U6. step_int H Hout U7.
    apply write_int_Ok_inv in H as [U8 H]. rewrite H in Hout. clear H.
    match type of Hout with
      _ = _ ++ ?stop1 ++ ?a ++ ?b ++ ?c ++ record _ ++ _ ++ ?stop2 ++ ?d ++ ?f ++ ?g
            ++ _ ++ ?ev =>
      exists [(3, stop1 ++ a ++ b ++ c); (3, play); (3, stop2 ++ d ++ f ++ g);
              (4, ev)] end.
    split; [rewrite Hout; reflexivity|]. split.
    + repeat first [apply Forall_nil_2 | apply Forall_cons_2]; try done;
        unfold well_sized, u32; simpl; lia.
    + cbn [map]. rewrite Rp. name_bytes. reflexivity.
Qed.

Lemma dict_contains_int {V} (k : Z) (d : gmap Z V) :
  dict_contains (PyInt k) d = true ↔ is_Some (d !! k).
Proof.
  unfold dict_contains. rewrite existsb_exists. split.
  - intros (k' & Hin & Heq). simpl in Heq. apply Z.eqb_eq in Heq as <-.
    apply list_elem_of_In, list_elem_of_fmap in Hin as ([k'' v] & -> & Hin).
    apply elem_of_map_to_list in Hin. by exists v.
  - intros [v Hv]. exists k. split; [|simpl; apply Z.eqb_refl].
    apply list_elem_of_In, list_elem_of_fmap. exists (k, v).
    split; [done|]. by apply elem_of_map_to_list.
Qed.

Lemma dict_contains_str {V} (s : string) (d : gmap Z V) :
  dict_contains (PyStr s) d = false.
Proof.
  unfold dict_contains. induction (map fst (map_to_list d)); simpl; auto.
Qed.

Lemma getitem_Ok {V} (d : gmap Z V) (k : Z) (v : V) :
  getitem d k = Ok v ↔ d !! k = Some v.
Proof.
  unfold getitem. destruct (d !! k); simpl; split; congruence.
Qed.

Lemma for_each_write_int_inv {A} (f : A → Z) (l : list A) :
  result (for_each (fun x => write_int (f x)) l) = Ok tt →
  Forall (fun x => u32 (f x)) l ∧
  output (for_each (fun x => write_int (f x)) l)
    = flat_map (fun x => le_bytes 4 (f x)) l.
Proof.
  intros H. apply for_each_Ok_inv in H as [H1 H2]; [|intros; seq].
  rewrite H2. clear H2. induction H1 as [|x l Hx Hl [IH1 IH2]]; [done|].
  apply write_int_Ok_inv in Hx as [Hx1 Hx2]. split; [by constructor|].
  simpl. by rewrite Hx2, IH2.
Qed.

Lemma length_flat_map_le_bytes {A} (f : A → Z) (l : list A) :
  length (flat_map (fun x => le_bytes 4 (f x)) l) = (4 * length l)%nat.
Proof.
  induction l as [|x l IH]; [done|]. cbn [flat_map].
  rewrite length_app, length_le_bytes, IH. simpl. lia.
Qed.

Lemma sequential_write_sound_sfx mfl mh se :
  sequential (write_sound_sfx mfl mh se).
Proof. unfold write_sound_sfx. seq. Qed.

Lemma sequential_write_sound_bgm mfl mh se :
  sequential (write_sound_bgm mfl mh se).
Proof. unfold write_sound_bgm. seq. Qed.

Lemma sequential_write_mixer_sfx mh l : sequential (write_mixer_sfx mh l).
Proof. unfold write_mixer_sfx. seq. Qed.

Lemma sequential_write_mixer_bgm mh l : sequential (write_mixer_bgm mh l).
Proof. unfold write_mixer_bgm. seq. Qed.

#[local] Hint Resolve sequential_write_sound_sfx sequential_write_sound_bgm
sequential_write_mixer_sfx sequential_write_mixer_bgm sequential_write_event : seq.

Lemma write_sound_sfx_records mfl (mh : Z) (se : SoundEntry.t) :
  result (write_sound_sfx mfl mh se) = Ok tt →
  ∃ body me,
    mfl !! SoundEntry.wem_hash se = Some me ∧
    output (write_sound_sfx mfl mh se) = record (2, body) ∧
    well_sized (2, body) ∧
    read_object (2, body) =
      Sound (SoundEntry.hash se) (SoundEntry.wem_hash se)
            (MediaEntry.size me) mh.
Proof.
  intros H. pose proof (eq_refl (output (write_sound_sfx mfl mh se))) as Hout.
  unfold write_sound_sfx in H, Hout at 2.
  step_write H Hout. step_int H Hout U1. step_write H Hout.
  step_int H Hout U2. step_val H me Hme Ho. rewrite Ho, output_lift in Hout.
  clear Ho. rewrite result_lift in Hme. apply getitem_Ok in Hme.
  step_int H Hout U3. step_write H Hout. step_int H Hout U4.
  step_int H Hout U5. rewrite output_write in Hout. clear H.
  match type of Hout with _ = _ ++ ?a ++ ?x ++ ?c ++ _ ++ ?rest =>
    exists (a ++ x ++ c ++ rest), me end.
  split; [done|]. split; [rewrite Hout; reflexivity|]. split.
  - unfold well_sized, u32. simpl. lia.
  - name_bytes. reflexivity.
Qed.

Lemma write_sound_bgm_records mfl (mh : Z) (se : SoundEntry.t) :
  result (write_sound_bgm mfl mh se) = Ok tt →
  ∃ body,
    output (write_sound_bgm mfl mh se) = record (2, body) ∧
    well_sized (2, body) ∧
    read_object (2, body) =
      Sound (SoundEntry.hash se) (SoundEntry.wem_hash se)
            (from_option MediaEntry.size PLACEHOLDER_SIZE
               (mfl !! SoundEntry.wem_hash se)) mh.
Proof.
  intros H. pose proof (eq_refl (output (write_sound_bgm mfl mh se))) as Hout.
  unfold write_sound_bgm in H, Hout at 2.
  step_write H Hout. step_int H Hout U1. step_write H Hout.
  step_int H Hout U2. step H Hsz Ho. rewrite Ho in Hout. clear Ho.
  assert (Hsize : u32 (from_option MediaEntry.size PLACEHOLDER_SIZE
                         (mfl !! SoundEntry.wem_hash se)) ∧
                  output (if dict_contains (PyInt (SoundEntry.wem_hash se)) mfl
                          then media_entry ← lift (getitem mfl (SoundEntry.wem_hash se));
                               write_int (MediaEntry.size media_entry)
                          else write_int 1024)
                  = le_bytes 4 (from_option MediaEntry.size PLACEHOLDER_SIZE
                                  (mfl !! SoundEntry.wem_hash se))).
  { destruct (dict_contains _ mfl) eqn:Hc.
    - apply dict_contains_int in Hc as [me Hme].
      step_val Hsz me' Hme' Ho. rewrite output_lift in Ho.
      rewrite result_lift in Hme'. apply getitem_Ok in Hme'.
      assert (me' = me) as -> by congruence.
      apply write_int_Ok_inv in Hsz as [U Hw]. rewrite Hme. simpl.
      split; [done|]. by rewrite Ho, Hw.
    - assert (mfl !! SoundEntry.wem_hash se = None) as ->.
      { apply eq_None_not_Some. intros Hs. apply dict_contains_int in Hs.
        congruence. }
      apply write_int_Ok_inv in Hsz as [U Hw]. done. }
  destruct Hsize as [U3 Hsize]. rewrite Hsize in Hout. clear Hsize Hsz.
  step_write H Hout. step_int H Hout U4.
  step_int H Hout U5. rewrite output_write in Hout. clear H.
  set (sz := from_option _ _ _) in *. clearbody sz.
  match type of Hout with _ = _ ++ ?a ++ ?x ++ ?c ++ ?d ++ ?rest =>
    exists (a ++ x ++ c ++ d ++ rest) end.
  split; [rewrite Hout; reflexivity|]. split.
  - unfold well_sized, u32. simpl. lia.
  - name_bytes. reflexivity.
Qed.

Lemma record_intro (ty : Z) (n : Z) (body out : list Z) :
  out = [ty] ++ le_bytes 4 n ++ body →
  Z.of_nat (length body) = n →
  out = record (ty, body).
Proof. intros -> <-. reflexivity. Qed.

Lemma write_mixer_sfx_records (mh : Z) (l : list SoundEntry.t) :
  result (write_mixer_sfx mh l) = Ok tt →
  ∃ body,
    output (write_mixer_sfx mh l) = record (7, body) ∧
    well_sized (7, body) ∧
    ∃ children, read_object (7, body) = ActorMixer mh children.
Proof.
  intros H. pose proof (eq_refl (output (write_mixer_sfx mh l))) as Hout.
  unfold write_mixer_sfx in H, Hout at 2.
  step_write H Hout. step_int H Hout U1. step_int H Hout U2.
  step_write H Hout. step_int H Hout U3. step_int H Hout U4.
  step_write H Hout. step_int H Hout U5.
  apply for_each_write_int_inv in H as [U6 H]. rewrite H in Hout. clear H.
  match type of Hout with _ = _ ++ _ ++ ?body => set (B := body) in * end.
  assert (HB : Z.of_nat (length B) = 51 + Z.of_nat (length l) * 4).
  { unfold B. rewrite !length_app, !length_le_bytes, length_flat_map_le_bytes.
    simpl length. lia. }
  exists B. split; [by eapply record_intro|]. split.
  - change (u32 (Z.of_nat (length B))). by rewrite HB.
  - unfold B. clear HB Hout B. name_bytes. eexists. reflexivity.
Qed.

Lemma write_mixer_bgm_records (mh : Z) (l : list SoundEntry.t) :
  result (write_mixer_bgm mh l) = Ok tt →
  ∃ body,
    output (write_mixer_bgm mh l) = record (7, body) ∧
    well_sized (7, body) ∧
    ∃ children, read_object (7, body) = ActorMixer mh children.
Proof.
  intros H. pose proof (eq_refl (output (write_mixer_bgm mh l))) as Hout.
  unfold write_mixer_bgm in H, Hout at 2.
  step_write H Hout. step_int H Hout U1. step_int H Hout U2.
  step_write H Hout. step_int H Hout U3. step_int H Hout U4.
  step_write H Hout. step_int H Hout U5.
  apply for_each_write_int_inv in H as [U6 H]. rewrite H in Hout. clear H.
  match type of Hout with _ = _ ++ _ ++ ?body => set (B := body) in * end.
  assert (HB : Z.of_nat (length B) = 46 + Z.of_nat (length l) * 4).
  { unfold B. rewrite !length_app, !length_le_bytes, length_flat_map_le_bytes.
    simpl length. lia. }
  exists B. split; [by eapply record_intro|]. split.
  - change (u32 (Z.of_nat (length B))). by rewrite HB.
  - unfold B. clear HB Hout B. name_bytes. eexists. reflexivity.
Qed.

(** ** The objects of the hierarchy *)

Lemma List_filter_Permutation {A} (f : A → bool) (l l' : list A) :
  l ≡ₚ l' → List.filter f l ≡ₚ List.filter f l'.
Proof.
  induction 1 as [|x l l' _ IH|x y l|l l' l'' _ IH1 _ IH2]; simpl.
  - done.
  - destruct (f x); by rewrite IH.
  - destruct (f x), (f y); try done. apply Permutation_swap.
  - by rewrite IH1.
Qed.

(** A loop whose every round puts out whole records puts out the records of
    all rounds, in order. *)
Lemma for_each_records {A} (body : A → W unit)
    (P : A → list (Z * list Z) → Prop) (l : list A) :
  (∀ x, sequential (body x)) →
  (∀ x, x ∈ l → result (body x) = Ok tt →
        ∃ recs, output (body x) = flat_map record recs ∧ P x recs) →
  result (for_each body l) = Ok tt →
  ∃ recss, output (for_each body l) = flat_map record (concat recss) ∧
           Forall2 P l recss.
Proof.
  intros Hs HP H. apply for_each_Ok_inv in H as [H1 ->]; [|done].
  induction l as [|x l IH].
  - exists []. split; [done|constructor].
  - apply Forall_cons in H1 as [Hx Hl].
    destruct (HP x) as (recs & E & Px); [left|done|].
    destruct IH as (recss & E' & HF); [|done|].
    { intros y Hy. apply HP. by right. }
    exists (recs :: recss). split; [|by constructor].
    cbn [flat_map concat]. by rewrite flat_map_app, E, E'.
Qed.

Lemma Forall2_concat_Forall {A B} (P : A → list B → Prop) (Q : B → Prop)
    (l : list A) (recss : list (list B)) :
  Forall2 P l recss → (∀ x recs, P x recs → Forall Q recs) →
  Forall Q (concat recss).
Proof.
  intros HF HP. induction HF as [|x recs l recss Hx _ IH]; simpl; [done|].
  apply Forall_app. split; [by eapply HP|done].
Qed.

Lemma Forall2_concat_map {A B C} (P : A → list B → Prop) (g : B → C)
    (h : A → list C) (l : list A) (recss : list (list B)) :
  Forall2 P l recss → (∀ x recs, P x recs → map g recs = h x) →
  map g (concat recss) = flat_map h l.
Proof.
  intros HF HP. induction HF as [|x recs l recss Hx _ IH]; simpl; [done|].
  by rewrite map_app, IH, (HP x recs Hx).
Qed.

(** The events: every entry puts out its actions and then its event. *)
Lemma write_events_records (bnk_out : string) (l : list EventEntry.t) :
  result (for_each (write_event bnk_out) l) = Ok tt →
  ∃ recs,
    output (for_each (write_event bnk_out) l) = flat_map record recs ∧
    Forall well_sized recs ∧
    map read_object recs = flat_map event_objects l.
Proof.
  intros H.
  destruct (for_each_records (write_event bnk_out)
              (fun e recs => Forall well_sized recs ∧
                             map read_object recs = event_objects e) l)
    as (recss & E & HF); [intros; seq| |done|].
  { intros e _ He. by apply write_event_records. }
  exists (concat recss). split; [done|]. split.
  - eapply Forall2_concat_Forall; [exact HF|]. by intros x recs [? _].
  - eapply Forall2_concat_map; [exact HF|]. by intros x recs [_ ?].
Qed.

Lemma length_event_objects (e : EventEntry.t) :
  length (event_objects e) =
  match EventEntry.wem_type e with SFX => 2%nat | BGM => 4%nat end.
Proof. unfold event_objects. by destruct (EventEntry.wem_type e). Qed.

Lemma length_events (in_sfx_wems in_bgm_wems : list string) :
  length (flat_map event_objects (event_entry_list in_sfx_wems in_bgm_wems))
  = (2 * length in_sfx_wems + 4 * length in_bgm_wems)%nat.
Proof.
  unfold event_entry_list.
  rewrite (Permutation_length
             (Permutation_flat_map event_objects
                (sort_by_Permutation EventEntry.hash _))).
  rewrite flat_map_app, length_app.
  assert (H : ∀ t l, length (flat_map event_objects (map (event_entry t) l))
                     = (match t with SFX => 2 | BGM => 4 end * length l)%nat).
  { intros t l. induction l as [|x l IH]; simpl; [lia|].
    rewrite length_app, IH, length_event_objects. simpl. destruct t; lia. }
  by rewrite !H.
Qed.
(** The sounds of a category and its mixer. *)

Lemma wem_type_eqb_eq (a c : wem_type) : wem_type_eqb a c = true ↔ a = c.
Proof. destruct a, c; simpl; split; congruence. Qed.

Lemma write_sounds_records (mfl : gmap Z MediaEntry.t) (mh : Z) (t : wem_type)
    (l : list SoundEntry.t) :
  result (for_each (match t with
                    | SFX => write_sound_sfx mfl mh
                    | BGM => write_sound_bgm mfl mh
                    end) l) = Ok tt →
  ∃ recs,
    output (for_each (match t with
                      | SFX => write_sound_sfx mfl mh
                      | BGM => write_sound_bgm mfl mh
                      end) l) = flat_map record recs ∧
    Forall well_sized recs ∧
    map read_object recs = map (sound_of mfl mh) l.
Proof.
  set (round := match t with
               | SFX => write_sound_sfx mfl mh
               | BGM => write_sound_bgm mfl mh
               end).
  intros H.
  destruct (for_each_records round
              (fun se recs => Forall well_sized recs ∧
                              map read_object recs = [sound_of mfl mh se]) l)
    as (recss & E & HF); [unfold round; destruct t; intros; seq| |done|].
  { intros se _ Hse. unfold round in *. destruct t.
    - apply write_sound_sfx_records in Hse as (body & me & Hme & Eo & Hw & Hr).
      exists [(2, body)]. split; [by rewrite Eo; simpl; rewrite app_nil_r|].
      split; [by apply Forall_singleton|]. cbn [map]. rewrite Hr.
      unfold sound_of. by rewrite Hme.
    - apply write_sound_bgm_records in Hse as (body & Eo & Hw & Hr).
      exists [(2, body)]. split; [by rewrite Eo; simpl; rewrite app_nil_r|].
      split; [by apply Forall_singleton|]. cbn [map]. by rewrite Hr. }
  exists (concat recss). split; [done|]. split.
  - eapply Forall2_concat_Forall; [exact HF|]. by intros x recs [? _].
  - erewrite (Forall2_concat_map _ read_object (fun se => [sound_of mfl mh se]));
      [|exact HF|by intros x recs [_ ?]].
    clear. induction l as [|x l IH]; simpl; [done|]. by rewrite IH.
Qed.

Lemma sequential_write_mixer mfl sel m : sequential (write_mixer mfl sel m).
Proof. unfold write_mixer. destruct m as [mh mt]. seq. Qed.
#[local] Hint Resolve sequential_write_mixer : seq.

Lemma write_mixer_records (mfl : gmap Z MediaEntry.t)
    (sel : list SoundEntry.t) (m : Z * wem_type) :
  result (write_mixer mfl sel m) = Ok tt →
  ∃ recs,
    output (write_mixer mfl sel m) = flat_map record recs ∧
    Forall well_sized recs ∧
    Forall (fun r => is_sound_or_mixer (read_object r) = true) recs ∧
    length recs =
      mixer_round (length (List.filter
        (fun x => wem_type_eqb (SoundEntry.wem_type x) m.2) sel)) ∧
    ∀ se, se ∈ sel → SoundEntry.wem_type se = m.2 →
          sound_of mfl m.1 se ∈ map read_object recs.
Proof.
  destruct m as [mh mt]. unfold write_mixer. cbn [fst snd].
  set (mixer_sounds := List.filter _ sel).
  assert (Hin : ∀ se, se ∈ sel → SoundEntry.wem_type se = mt → se ∈ mixer_sounds).
  { intros se Hse Ht. apply list_elem_of_In, filter_In. split.
    - by apply list_elem_of_In.
    - by apply wem_type_eqb_eq. }
  unfold mixer_round.
  destruct (length mixer_sounds =? 0)%nat eqn:En.
  { intros _. exists []. repeat split; try constructor.
    intros se Hse Ht. specialize (Hin se Hse Ht).
    apply Nat.eqb_eq in En. destruct mixer_sounds; [|done].
    by apply elem_of_nil in Hin. }
  intros H.
  assert (∃ srecs mbody,
    output (match mt with
            | SFX => for_each (write_sound_sfx mfl mh) mixer_sounds;;
                     write_mixer_sfx mh mixer_sounds
            | BGM => for_each (write_sound_bgm mfl mh) mixer_sounds;;
                     write_mixer_bgm mh mixer_sounds
            end) = flat_map record (srecs ++ [(7, mbody)]) ∧
    Forall well_sized srecs ∧ well_sized (7, mbody) ∧
    map read_object srecs = map (sound_of mfl mh) mixer_sounds ∧
    ∃ children, read_object (7, mbody) = ActorMixer mh children)
    as (srecs & mbody & Eo & Hws & Hwm & Hrs & children & Hrm).
  { destruct mt.
    - step H Hs Ho. rewrite Ho.
      apply (write_sounds_records mfl mh SFX) in Hs as (srecs & Es & Hws & Hrs).
      apply write_mixer_sfx_records in H as (mbody & Em & Hwm & Hrm).
      exists srecs, mbody. rewrite flat_map_app, Es, Em. simpl.
      by rewrite app_nil_r.
    - step H Hs Ho. rewrite Ho.
      apply (write_sounds_records mfl mh BGM) in Hs as (srecs & Es & Hws & Hrs).
      apply write_mixer_bgm_records in H as (mbody & Em & Hwm & Hrm).
      exists srecs, mbody. rewrite flat_map_app, Es, Em. simpl.
      by rewrite app_nil_r. }
  exists (srecs ++ [(7, mbody)]). split; [done|]. split.
  { apply Forall_app. split; [done|]. by apply Forall_singleton. }
  split.
  { apply Forall_app. split.
    - apply Forall_forall. intros r Hr.
      assert (read_object r ∈ map read_object srecs)
        by (by apply list_elem_of_fmap_2).
      rewrite Hrs in H0. apply list_elem_of_fmap in H0 as (se & -> & _). done.
    - apply Forall_singleton. by rewrite Hrm. }
  split.
  { rewrite length_app. simpl.
    rewrite <-(length_map read_object srecs), Hrs, length_map. lia. }
  intros se Hse Ht. rewrite map_app, Hrs. apply elem_of_app. left.
  apply list_elem_of_fmap_2. by apply Hin.
Qed.

Lemma filter_sound_entries (t t' : wem_type) (l : list string) :
  List.filter (fun x => wem_type_eqb (SoundEntry.wem_type x) t)
              (map (sound_entry t') l)
  = if wem_type_eqb t' t then map (sound_entry t') l else [].
Proof.
  induction l as [|x l IH]; simpl; [by destruct (wem_type_eqb t' t)|].
  rewrite IH. by destruct (wem_type_eqb t' t).
Qed.

Lemma length_mixer_sounds (t : wem_type) (in_sfx_wems in_bgm_wems : list string) :
  length (List.filter (fun x => wem_type_eqb (SoundEntry.wem_type x) t)
                      (sound_entry_list in_sfx_wems in_bgm_wems))
  = match t with SFX => length in_sfx_wems | BGM => length in_bgm_wems end.
Proof.
  unfold sound_entry_list.
  rewrite (Permutation_length
             (List_filter_Permutation _ _ _
                (sort_by_Permutation SoundEntry.hash _))).
  rewrite List.filter_app, !filter_sound_entries, length_app.
  destruct t; simpl; rewrite length_map; lia.
Qed.

Lemma mixer_order_cases (bnk_out : string) :
  let sfx_mix := (compute_hash (bnk_out +:+ "_sfx_mix"), SFX) in
  let bgm_mix := (compute_hash (bnk_out +:+ "_bgm_mix"), BGM) in
  mixer_order bnk_out = [sfx_mix; bgm_mix] ∨
  mixer_order bnk_out = [bgm_mix; sfx_mix].
Proof.
  unfold mixer_order. simpl.
  destruct (_ <=? _); [by left|by right].
Qed.

Lemma sound_entry_elem_of (t : wem_type) (p : string)
    (in_sfx_wems in_bgm_wems : list string) :
  p ∈ match t with SFX => in_sfx_wems | BGM => in_bgm_wems end →
  sound_entry t p ∈ sound_entry_list in_sfx_wems in_bgm_wems.
Proof.
  intros Hp. unfold sound_entry_list. rewrite sort_by_Permutation.
  apply elem_of_app. destruct t; [left|right]; by apply list_elem_of_fmap_2.
Qed.

Lemma sequential_write_hirc_objects bnk_out sfx bgm mfl :
  sequential (write_hirc_objects bnk_out sfx bgm mfl).
Proof. unfold write_hirc_objects. seq. Qed.
#[local] Hint Resolve sequential_write_hirc_objects : seq.

(** The hierarchy as a whole: the sounds and mixers, then the events. *)
Lemma write_hirc_objects_records (bnk_out : string)
    (in_sfx_wems in_bgm_wems : list string) (mfl : gmap Z MediaEntry.t) :
  result (write_hirc_objects bnk_out in_sfx_wems in_bgm_wems mfl) = Ok tt →
  ∃ sounds events,
    output (write_hirc_objects bnk_out in_sfx_wems in_bgm_wems mfl)
      = flat_map record (sounds ++ events) ∧
    Forall well_sized (sounds ++ events) ∧
    Forall (fun r => is_sound_or_mixer (read_object r) = true) sounds ∧
    map read_object events
      = flat_map event_objects (event_entry_list in_sfx_wems in_bgm_wems) ∧
    Z.of_nat (length (sounds ++ events))
      = hirc_entry_count in_sfx_wems in_bgm_wems ∧
    ∀ t p, p ∈ match t with SFX => in_sfx_wems | BGM => in_bgm_wems end →
           ∃ parent, sound_of mfl parent (sound_entry t p)
                     ∈ map read_object sounds.
Proof.
  intros H. unfold write_hirc_objects in *.
  step H Hm Ho. rewrite Ho. clear Ho.
  apply write_events_records in H as (events & -> & Hwe & Hre).
  set (sel := sound_entry_list in_sfx_wems in_bgm_wems) in *.
  assert (∃ m1 m2 r1 r2,
    mixer_order bnk_out ≡ₚ [(compute_hash (bnk_out +:+ "_sfx_mix"), SFX);
                           (compute_hash (bnk_out +:+ "_bgm_mix"), BGM)] ∧
    mixer_order bnk_out = [m1; m2] ∧
    output (for_each (write_mixer mfl sel) (mixer_order bnk_out))
      = flat_map record (r1 ++ r2) ∧
    (∀ m r, (m, r) ∈ [(m1, r1); (m2, r2)] →
       Forall well_sized r ∧
       Forall (fun r => is_sound_or_mixer (read_object r) = true) r ∧
       length r = mixer_round (length (List.filter
         (fun x => wem_type_eqb (SoundEntry.wem_type x) m.2) sel)) ∧
       ∀ se, se ∈ sel → SoundEntry.wem_type se = m.2 →
             sound_of mfl m.1 se ∈ map read_object r))
    as (m1 & m2 & r1 & r2 & Hperm & Hord & Eo & Hr).
  { assert (∃ m1 m2, mixer_order bnk_out = [m1; m2] ∧
              mixer_order bnk_out ≡ₚ
                [(compute_hash (bnk_out +:+ "_sfx_mix"), SFX);
                 (compute_hash (bnk_out +:+ "_bgm_mix"), BGM)])
      as (m1 & m2 & Hord & Hperm).
    { destruct (mixer_order_cases bnk_out) as [E|E]; rewrite E;
        do 2 eexists; (split; [done|]); [done|apply Permutation_swap]. }
    exists m1, m2. rewrite Hord in Hm |- *. simpl in Hm |- *.
    step Hm H1 Ho. rewrite Ho. clear Ho.
    step Hm H2 Ho. rewrite Ho, output_ret, app_nil_r. clear Ho Hm.
    apply write_mixer_records in H1 as (r1 & -> & P1).
    apply write_mixer_records in H2 as (r2 & -> & P2).
    exists r1, r2. split; [by rewrite <-Hord|]. split; [done|].
    split; [by rewrite flat_map_app|].
    intros m r Hin. apply elem_of_cons in Hin as [[= -> ->]|Hin]; [done|].
    apply list_elem_of_singleton in Hin as [= -> ->]. done. }
  exists (r1 ++ r2), events.
  destruct (Hr m1 r1) as (W1 & S1 & L1 & I1); [left|].
  destruct (Hr m2 r2) as (W2 & S2 & L2 & I2); [right; left|].
  split; [by rewrite Eo, <-flat_map_app|].
  split; [by rewrite !Forall_app|].
  split; [by rewrite Forall_app|].
  split; [done|]. split.
  - rewrite !length_app, <-(length_map read_object events), Hre, length_events.
    rewrite L1, L2. unfold hirc_entry_count.
    assert (Hsum : (mixer_round (length (List.filter
                     (fun x => wem_type_eqb (SoundEntry.wem_type x) m1.2) sel))
                    + mixer_round (length (List.filter
                     (fun x => wem_type_eqb (SoundEntry.wem_type x) m2.2) sel))
                    = mixer_round (length in_sfx_wems)
                      + mixer_round (length in_bgm_wems))%nat).
    { rewrite Hord in Hperm.
      assert (Hp : [m1; m2] = [(compute_hash (bnk_out +:+ "_sfx_mix"), SFX);
                             (compute_hash (bnk_out +:+ "_bgm_mix"), BGM)] ∨
                   [m1; m2] = [(compute_hash (bnk_out +:+ "_bgm_mix"), BGM);
                             (compute_hash (bnk_out +:+ "_sfx_mix"), SFX)]).
      { rewrite <-Hord. apply mixer_order_cases. }
      unfold sel. destruct Hp as [[= -> ->]|[= -> ->]];
        rewrite !length_mixer_sounds; simpl; lia. }
    unfold mixer_round in *.
    destruct (length in_sfx_wems) as [|n1] eqn:E1;
      destruct (length in_bgm_wems) as [|n2] eqn:E2; simpl in *; lia.
  - intros t p Hp. pose proof (sound_entry_elem_of t p _ _ Hp) as Hse.
    fold sel in Hse.
    assert (Hm12 : ∃ m, (m = m1 ∨ m = m2) ∧ m.2 = t).
    { assert (Hp' : [m1; m2] = [(compute_hash (bnk_out +:+ "_sfx_mix"), SFX);
                             (compute_hash (bnk_out +:+ "_bgm_mix"), BGM)] ∨
                   [m1; m2] = [(compute_hash (bnk_out +:+ "_bgm_mix"), BGM);
                             (compute_hash (bnk_out +:+ "_sfx_mix"), SFX)]).
      { rewrite <-Hord. apply mixer_order_cases. }
      destruct Hp' as [[= -> ->]|[= -> ->]]; destruct t; eauto. }
    destruct Hm12 as (m & [->| ->] & Ht).
    + exists m1.1. rewrite map_app. apply elem_of_app. left.
      apply I1; [done|]. by rewrite Ht.
    + exists m2.1. rewrite map_app. apply elem_of_app. right.
      apply I2; [done|]. by rewrite Ht.
Qed.

(** ** The clip index and the blob area *)

Lemma sequential_write_wem fs st k : sequential (write_wem fs st k).
Proof. unfold write_wem. destruct st. seq. Qed.

Lemma sequential_write_media_header mfl k :
  sequential (write_media_header mfl k).
Proof. unfold write_media_header. seq. Qed.

#[local] Hint Resolve sequential_write_wem sequential_write_media_header : seq.

Lemma read_rb_Ok (fs : filesystem) (path : string) (bs : list Z) :
  read_rb fs path = Ok bs ↔ fs path = Some bs.
Proof. unfold read_rb. destruct (fs path); simpl; split; congruence. Qed.

Lemma write_wem_eq (fs : filesystem) (wem_offset : nat)
    (mfl : gmap Z MediaEntry.t) (k : Z) :
  write_wem fs (wem_offset, mfl) k =
  (media_entry ← lift (getitem mfl k);
   wem_offset ←
     (if negb (wem_offset mod 8 =? 0)%nat then
        write (replicate (wem_offset mod 8)%nat 0);;
        mret (wem_offset + wem_offset mod 8)%nat
      else mret wem_offset);
   wem ← lift (read_rb fs (MediaEntry.wem_filename media_entry));
   write wem;;
   mret ((wem_offset + length wem)%nat,
         <[k := MediaEntry.mk (MediaEntry.hash media_entry)
                  (MediaEntry.wem_filename media_entry)
                  (Z.of_nat wem_offset) (Z.of_nat (length wem))]> mfl)).
Proof. reflexivity. Qed.

(** One round of the loop over the clips. *)
Lemma write_wem_inv (fs : filesystem) (wem_offset : nat)
    (mfl : gmap Z MediaEntry.t) (k : Z) (wem_offset' : nat)
    (mfl' : gmap Z MediaEntry.t) :
  result (write_wem fs (wem_offset, mfl) k) = Ok (wem_offset', mfl') →
  ∃ e wem,
    mfl !! k = Some e ∧
    fs (MediaEntry.wem_filename e) = Some wem ∧
    output (write_wem fs (wem_offset, mfl) k)
      = replicate (wem_offset mod 8) 0 ++ wem ∧
    wem_offset' = (wem_offset + wem_offset mod 8 + length wem)%nat ∧
    mfl' = <[k := MediaEntry.mk (MediaEntry.hash e) (MediaEntry.wem_filename e)
                    (Z.of_nat (wem_offset + wem_offset mod 8))
                    (Z.of_nat (length wem))]> mfl.
Proof.
  rewrite write_wem_eq. intros H.
  step_val H e He Ho. rewrite Ho, output_lift. clear Ho.
  rewrite result_lift in He. apply getitem_Ok in He.
  step_val H off Hoff Ho. rewrite Ho. clear Ho.
  step_val H wem Hwem Ho. rewrite Ho, output_lift. clear Ho.
  rewrite result_lift in Hwem. apply read_rb_Ok in Hwem.
  step H Hw Ho. rewrite Ho, output_write, output_ret, app_nil_r.
  clear Ho Hw. unfold result in H. simpl in H. injection H as <- <-.
  exists e, wem. split; [done|]. split; [done|].
  destruct (wem_offset mod 8 =? 0)%nat eqn:E8; cbn [negb] in Hoff |- *.
  - apply Nat.eqb_eq in E8. unfold result in Hoff. simpl in Hoff.
    injection Hoff as <-. rewrite E8, Nat.add_0_r. done.
  - step Hoff Hw Ho. rewrite Ho, output_write, output_ret, app_nil_r.
    unfold result in Hoff. simpl in Hoff. injection Hoff as <-. done.
Qed.

Lemma same_clips_trans m1 m2 m3 :
  same_clips m1 m2 → same_clips m2 m3 → same_clips m1 m3.
Proof. intros H1 H2 k. by rewrite H1. Qed.

Lemma same_clips_insert m k e off sz :
  m !! k = Some e →
  same_clips m (<[k := MediaEntry.mk (MediaEntry.hash e)
                         (MediaEntry.wem_filename e) off sz]> m).
Proof.
  intros He k'. destruct (decide (k = k')) as [<-|Hne].
  - by rewrite lookup_insert_eq, He.
  - by rewrite lookup_insert_ne.
Qed.

Lemma same_clips_lookup m1 m2 k e :
  same_clips m1 m2 → m1 !! k = Some e →
  ∃ e', m2 !! k = Some e' ∧ MediaEntry.hash e' = MediaEntry.hash e ∧
        MediaEntry.wem_filename e' = MediaEntry.wem_filename e.
Proof.
  intros H He. specialize (H k). rewrite He in H. simpl in H.
  destruct (m2 !! k) as [e'|]; [|done]. injection H as H1 H2. by exists e'.
Qed.

Lemma same_clips_is_Some m1 m2 k :
  same_clips m1 m2 → is_Some (m1 !! k) ↔ is_Some (m2 !! k).
Proof.
  intros H. specialize (H k). rewrite <-!not_eq_None_Some.
  destruct (m1 !! k), (m2 !! k); simpl in H; try done.
Qed.

Lemma write_wems_inv (fs : filesystem) (l : list Z) (wem_offset : nat)
    (mfl : gmap Z MediaEntry.t) (wem_offset' : nat)
    (mfl' : gmap Z MediaEntry.t) :
  result (for_fold (write_wem fs) l (wem_offset, mfl)) = Ok (wem_offset', mfl') →
  same_clips mfl mfl' ∧
  wem_offset' = (wem_offset
                 + length (output (for_fold (write_wem fs) l (wem_offset, mfl))))%nat ∧
  ∃ segs,
    output (for_fold (write_wem fs) l (wem_offset, mfl)) = segments segs ∧
    Forall2 (fun k s => ∃ e, mfl !! k = Some e ∧
                             fs (MediaEntry.wem_filename e) = Some s.2) l segs.
Proof.
  revert wem_offset mfl. induction l as [|k l IH]; intros off mfl H.
  - unfold result in H. simpl in H. injection H as <- <-.
    split; [done|]. split; [simpl; lia|]. exists []. split; [done|constructor].
  - cbn [for_fold] in H |- *.
    apply bind_Ok_inv in H as ([off1 mfl1] & H1 & H2 & Ho);
      [|seq|intros; seq].
    rewrite Ho. clear Ho.
    apply write_wem_inv in H1 as (e & wem & He & Hfs & Eo & -> & ->).
    apply IH in H2 as (Hsame & Eoff & segs & Es & HF).
    pose proof (same_clips_insert mfl k e
                  (Z.of_nat (off + off mod 8)) (Z.of_nat (length wem)) He) as Hs1.
    split; [by eapply same_clips_trans|]. split.
    { rewrite Eoff, Eo, !length_app, length_replicate. lia. }
    exists ((off mod 8, wem)%nat :: segs). split.
    { unfold segments in *. cbn [flat_map fst snd].
      by rewrite Eo, Es, <-app_assoc. }
    constructor; [by exists e|].
    eapply Forall2_impl; [exact HF|]. simpl.
    intros k' s (e' & He' & Hfs').
    destruct (same_clips_lookup _ _ k' e' (fun k => eq_sym (Hs1 k)) He')
      as (e'' & He'' & _ & Hn).
    exists e''. split; [done|]. by rewrite Hn.
Qed.

Lemma write_media_header_inv (mfl : gmap Z MediaEntry.t) (k : Z) :
  result (write_media_header mfl k) = Ok tt →
  ∃ e, mfl !! k = Some e ∧
       output (write_media_header mfl k) = didx_entry e ∧
       u32 (MediaEntry.hash e) ∧ u32 (MediaEntry.offset e) ∧
       u32 (MediaEntry.size e).
Proof.
  intros H. pose proof (eq_refl (output (write_media_header mfl k))) as Hout.
  unfold write_media_header in H, Hout at 2.
  step_val H e He Ho. rewrite Ho, output_lift in Hout. clear Ho.
  rewrite result_lift in He. apply getitem_Ok in He.
  step_int H Hout U1. step_int H Hout U2.
  apply write_int_Ok_inv in H as [U3 H]. rewrite H in Hout.
  by exists e.
Qed.

Lemma write_media_headers_inv (mfl : gmap Z MediaEntry.t) (l : list Z) :
  result (for_each (write_media_header mfl) l) = Ok tt →
  ∃ es,
    output (for_each (write_media_header mfl) l) = flat_map didx_entry es ∧
    Forall2 (fun k e => mfl !! k = Some e) l es ∧
    Forall (fun e => u32 (MediaEntry.hash e) ∧ u32 (MediaEntry.offset e) ∧
                     u32 (MediaEntry.size e)) es.
Proof.
  intros H. apply for_each_Ok_inv in H as [H ->]; [|intros; seq].
  induction H as [|k l Hk Hl (es & E & HF & HU)].
  - exists []. by repeat split; constructor.
  - apply write_media_header_inv in Hk as (e & He & Eo & U).
    exists (e :: es). split; [simpl; by rewrite Eo, E|].
    split; by constructor.
Qed.

Lemma length_flat_map_didx_entry (es : list MediaEntry.t) :
  length (flat_map didx_entry es) = (12 * length es)%nat.
Proof.
  induction es as [|e es IH]; [done|]. cbn [flat_map].
  rewrite length_app, IH. unfold didx_entry.
  rewrite !length_app, !length_le_bytes. simpl. lia.
Qed.

Lemma parse_didx_entries (es : list MediaEntry.t) :
  Forall (fun e => u32 (MediaEntry.hash e) ∧ u32 (MediaEntry.offset e) ∧
                   u32 (MediaEntry.size e)) es →
  parse_didx (flat_map didx_entry es)
  = map (fun e => (MediaEntry.hash e, MediaEntry.offset e, MediaEntry.size e)) es.
Proof.
  induction 1 as [|e es (U1 & U2 & U3) _ IH]; [done|].
  cbn [flat_map map]. rewrite <-IH. unfold didx_entry.
  destruct (le_bytes_4_shape _ U1) as (a0 & a1 & a2 & a3 & -> & <-).
  destruct (le_bytes_4_shape _ U2) as (b0 & b1 & b2 & b3 & -> & <-).
  destruct (le_bytes_4_shape _ U3) as (c0 & c1 & c2 & c3 & -> & <-).
  reflexivity.
Qed.

(** ** The chunks *)

Lemma bind_run_inv {A B} (m : W A) (k : A → W B) (f : file) (r : B) (f' : file) :
  (m ≫= k) f = (Ok r, f') → ∃ a f1, m f = (Ok a, f1) ∧ k a f1 = (Ok r, f').
Proof.
  unfold mbind, W_bind. destruct (m f) as [[a|e] f1]; [|done].
  intros H. by exists a, f1.
Qed.

Lemma run_seq_inv {A} (m : W A) (f : file) (a : A) (f1 : file) :
  sequential m → at_end f → m f = (Ok a, f1) →
  result m = Ok a ∧
  f1 = mkFile (data f ++ output m) (length (data f ++ output m)).
Proof.
  intros Hm Hf H. rewrite (run_at_end m f Hm Hf) in H. by injection H as -> <-.
Qed.

Lemma run_seq_at_inv {A} (m : W A) (f : file) (a : A) (f1 : file) :
  sequential m → m f = (Ok a, f1) →
  result m = Ok a ∧
  f1 = mkFile (write_at (data f) (pos f) (output m))
              (pos f + length (output m)).
Proof. intros Hm H. rewrite (Hm f) in H. by injection H as -> <-. Qed.

Lemma pos_mk (d : list Z) (p : nat) : pos (mkFile d p) = p.
Proof. done. Qed.

Lemma data_mk (d : list Z) (p : nat) : data (mkFile d p) = d.
Proof. done. Qed.

Lemma run_tell_inv (f : file) (a : nat) (f1 : file) :
  tell f = (Ok a, f1) → a = pos f ∧ f1 = f.
Proof. unfold tell. by intros [= <- <-]. Qed.

Lemma run_seek_inv (n : nat) (w : whence) (f : file) (a : unit) (f1 : file) :
  seek n w f = (Ok a, f1) →
  f1 = mkFile (data f)
              match w with
              | SEEK_SET => n
              | SEEK_CUR => (pos f + n)%nat
              | SEEK_END => (length (data f) + n)%nat
              end.
Proof. unfold seek. by intros [= <-]. Qed.

Lemma at_end_mk (d : list Z) : at_end (mkFile d (length d)).
Proof. done. Qed.
#[local] Hint Resolve at_end_mk : seq.

Lemma sequential_write_bkhd bnk_out : sequential (write_bkhd bnk_out).
Proof. unfold write_bkhd. seq. Qed.
#[local] Hint Resolve sequential_write_bkhd : seq.

Lemma write_bkhd_inv (bnk_out : string) :
  result (write_bkhd bnk_out) = Ok tt →
  ∃ body, output (write_bkhd bnk_out) = chunk "BKHD" body ∧
          length body = 24%nat.
Proof.
  intros H. pose proof (eq_refl (output (write_bkhd bnk_out))) as Hout.
  unfold write_bkhd in H, Hout at 2.
  step_write H Hout. step_int H Hout U0. step_int H Hout U1.
  step_int H Hout U2. step_int H Hout U3. step_int H Hout U4.
  step_int H Hout U5.
  apply write_int_Ok_inv in H as [U6 H]. rewrite H in Hout. clear H.
  match type of Hout with _ = _ ++ _ ++ ?body => exists body end.
  split; [by rewrite Hout|]. by rewrite !length_app, !length_le_bytes.
Qed.

(** Steps of a run that starts with the position at the end. *)
Ltac run_seq_val H a Hr :=
  let f1 := fresh "f" in
  let Hm := fresh "Hm" in
  apply bind_run_inv in H as (a & f1 & Hm & H);
  apply run_seq_inv in Hm as [Hr ->]; [|seq|auto with seq nocore];
  rewrite ?pos_mk, ?data_mk in H.

Ltac run_seq H Hr :=
  let a := fresh "a" in
  run_seq_val H a Hr; destruct a.

(** A sequential step from any position. *)
Ltac run_seq_at H Hr :=
  let a := fresh "a" in
  let f1 := fresh "f" in
  let Hm := fresh "Hm" in
  apply bind_run_inv in H as (a & f1 & Hm & H);
  apply run_seq_at_inv in Hm as [Hr ->]; [|seq];
  destruct a; rewrite ?pos_mk, ?data_mk in H.

Ltac run_tell H :=
  let a := fresh "a" in
  let f1 := fresh "f" in
  let Hm := fresh "Hm" in
  apply bind_run_inv in H as (a & f1 & Hm & H);
  apply run_tell_inv in Hm as [-> ->]; rewrite ?pos_mk, ?data_mk in H.

Ltac run_seek H :=
  let a := fresh "a" in
  let f1 := fresh "f" in
  let Hm := fresh "Hm" in
  apply bind_run_inv in H as (a & f1 & Hm & H);
  apply run_seek_inv in Hm as ->; rewrite ?pos_mk, ?data_mk in H.

Lemma write_hirc_run (bnk_out : string) (in_sfx_wems in_bgm_wems : list string)
    (mfl : gmap Z MediaEntry.t) (f f' : file) :
  at_end f →
  write_hirc bnk_out in_sfx_wems in_bgm_wems mfl f = (Ok tt, f') →
  result (write_hirc_objects bnk_out in_sfx_wems in_bgm_wems mfl) = Ok tt ∧
  u32 (hirc_entry_count in_sfx_wems in_bgm_wems) ∧
  u32 (Z.of_nat (length
         (le_bytes 4 (hirc_entry_count in_sfx_wems in_bgm_wems)
          ++ output (write_hirc_objects bnk_out in_sfx_wems in_bgm_wems mfl)))) ∧
  data f' = data f
    ++ chunk "HIRC"
         (le_bytes 4 (hirc_entry_count in_sfx_wems in_bgm_wems)
          ++ output (write_hirc_objects bnk_out in_sfx_wems in_bgm_wems mfl)).
Proof.
  intros Hf H. unfold write_hirc in H. destruct f as [d p].
  unfold at_end in Hf. simpl in Hf. subst p.
  run_seq H R1. clear R1. rewrite output_write in H.
  run_tell H.
  run_seq H R2. apply write_int_Ok_inv in R2 as [_ R2]. rewrite R2 in H.
  run_seq H R3. apply write_int_Ok_inv in R3 as [U R3]. rewrite R3 in H.
  run_seq H R4.
  run_tell H. run_seek H.
  set (objs := output (write_hirc_objects bnk_out in_sfx_wems in_bgm_wems mfl)) in *.
  set (count := le_bytes 4 (hirc_entry_count in_sfx_wems in_bgm_wems)) in *.
  apply run_seq_at_inv in H as [R5 ->]; [|seq].
  apply write_int_Ok_inv in R5 as [U' ->]. rewrite ?pos_mk, ?data_mk.
  match type of U' with u32 ?n =>
    assert (Hn : n = Z.of_nat (length (count ++ objs))) end.
  { unfold count. rewrite !length_app, !length_le_bytes. lia. }
  rewrite Hn in U' |- *.
  split; [done|]. split; [done|]. split; [done|].
  rewrite <-!app_assoc.
  rewrite (app_assoc d (b "HIRC")).
  rewrite write_at_middle by (by rewrite !length_le_bytes).
  by rewrite <-app_assoc.
Qed.

Lemma write_didx_data_run (fs : filesystem) (mfl : gmap Z MediaEntry.t)
    (l : list Z) (f f' : file) (mfl' : gmap Z MediaEntry.t) :
  at_end f → length l = size mfl →
  write_didx_data fs mfl l f = (Ok mfl', f') →
  ∃ wem_offset,
    result (for_fold (write_wem fs) l (0%nat, mfl)) = Ok (wem_offset, mfl') ∧
    result (for_each (write_media_header mfl') l) = Ok tt ∧
    at_end f' ∧
    u32 (Z.of_nat (length (output (for_each (write_media_header mfl') l)))) ∧
    u32 (Z.of_nat (length (output (for_fold (write_wem fs) l (0%nat, mfl))))) ∧
    data f' = data f
      ++ chunk "DIDX" (output (for_each (write_media_header mfl') l))
      ++ chunk "DATA" (output (for_fold (write_wem fs) l (0%nat, mfl))).
Proof.
  intros Hf Hlen H. unfold write_didx_data in H. destruct f as [d p].
  unfold at_end in Hf. simpl in Hf. subst p.
  run_seq H R1. clear R1. rewrite output_write in H.
  run_seq H R2. apply write_int_Ok_inv in R2 as [U1 R2]. rewrite R2 in H.
  clear R2.
  run_tell H. run_seek H.
  set (X := (d ++ b "DIDX") ++ le_bytes 4 (Z.of_nat (12 * size mfl))) in *.
  run_seq_at H R0. clear R0. rewrite output_write in H.
  rewrite write_at_gap in H by done.
  replace (length X + 12 * size mfl + length (b "DATA"))%nat
    with (length (X ++ replicate (12 * size mfl) 0 ++ b "DATA")) in H
    by (rewrite !length_app, length_replicate; lia).
  run_tell H.
  run_seq H R3. apply write_int_Ok_inv in R3 as [_ R3]. rewrite R3 in H.
  clear R3.
  run_seq_val H st R4. destruct st as [wem_offset mfl1].
  run_seek H.
  set (blob := output (for_fold (write_wem fs) l (0%nat, mfl))) in *.
  run_seq_at H R5.
  apply write_int_Ok_inv in R5 as [U2 R5]. rewrite R5 in H. clear R5.
  rewrite <-(app_assoc _ (le_bytes 4 0) blob) in H.
  rewrite write_at_middle in H by (by rewrite !length_le_bytes).
  run_seek H.
  run_seq_at H R6.
  set (E := output (for_each (write_media_header mfl1) l)) in *.
  run_seek H. unfold mret, W_ret in H.
  apply pair_equal_spec in H as [Hr <-]. injection Hr as <-.
  exists wem_offset. split; [done|]. split; [done|]. split; [done|].
  rewrite data_mk.
  assert (HE : length E = (12 * size mfl)%nat).
  { destruct (write_media_headers_inv mfl1 l R6) as (es & HE & HF & _).
    unfold E. rewrite HE, length_flat_map_didx_entry.
    by rewrite <-(Forall2_length _ _ _ HF), Hlen. }
  apply write_wems_inv in R4 as (_ & Hoff & _). fold blob in Hoff.
  simpl in Hoff. subst wem_offset.
  split; [fold E; by rewrite HE|]. split; [done|].
  rewrite <-(app_assoc X), <-(app_assoc (replicate _ _)).
  rewrite write_at_middle by (by rewrite length_replicate).
  unfold X, chunk, E, blob in *. rewrite HE, <-!app_assoc. done.
Qed.

(** ** The file as a whole *)

Lemma write_bnk_run (bnk_out : string) (fs : filesystem)
    (in_sfx_wems in_bgm_wems : list string) (mfl : gmap Z MediaEntry.t)
    (f' : file) :
  write_bnk bnk_out fs in_sfx_wems in_bgm_wems mfl (sorted_keys mfl) opened
    = (Ok tt, f') →
  ∃ bkhd mfl',
    length bkhd = 24%nat ∧
    (if (0 <? size mfl)%nat
     then ∃ wem_offset,
            result (for_fold (write_wem fs) (sorted_keys mfl) (0%nat, mfl))
              = Ok (wem_offset, mfl') ∧
            result (for_each (write_media_header mfl') (sorted_keys mfl))
              = Ok tt
     else mfl' = mfl) ∧
    result (write_hirc_objects bnk_out in_sfx_wems in_bgm_wems mfl') = Ok tt ∧
    u32 (hirc_entry_count in_sfx_wems in_bgm_wems) ∧
    ((0 < size mfl)%nat →
     u32 (Z.of_nat (length (output (for_each (write_media_header mfl')
                                      (sorted_keys mfl))))) ∧
     u32 (Z.of_nat (length (output (for_fold (write_wem fs)
                                      (sorted_keys mfl) (0%nat, mfl)))))) ∧
    u32 (Z.of_nat (length
           (le_bytes 4 (hirc_entry_count in_sfx_wems in_bgm_wems)
            ++ output (write_hirc_objects bnk_out in_sfx_wems in_bgm_wems mfl')))) ∧
    data f' =
      chunk "BKHD" bkhd
      ++ (if (0 <? size mfl)%nat
          then chunk "DIDX" (output (for_each (write_media_header mfl')
                                       (sorted_keys mfl)))
               ++ chunk "DATA" (output (for_fold (write_wem fs)
                                          (sorted_keys mfl) (0%nat, mfl)))
          else [])
      ++ chunk "HIRC"
           (le_bytes 4 (hirc_entry_count in_sfx_wems in_bgm_wems)
            ++ output (write_hirc_objects bnk_out in_sfx_wems in_bgm_wems mfl')).
Proof.
  intros H. unfold write_bnk in H.
  apply bind_run_inv in H as ([] & f1 & Hm & H).
  apply run_seq_inv in Hm as [R1 ->]; [|seq|done].
  apply write_bkhd_inv in R1 as (bkhd & Eb & Lb).
  change (data opened) with (@nil Z) in H. rewrite app_nil_l, Eb in H.
  apply bind_run_inv in H as (mfl' & f2 & Hm & H).
  exists bkhd, mfl'. split; [done|].
  destruct (0 <? size mfl)%nat eqn:Esz.
  - apply write_didx_data_run in Hm as (off & R2 & R3 & Hf2 & U1 & U2 & Ed);
      [|apply at_end_mk|apply length_sorted_keys].
    apply write_hirc_run in H as (R4 & U & U3 & Eh); [|done].
    split; [by exists off|]. split; [done|]. split; [done|].
    split; [done|]. split; [done|].
    rewrite Eh, Ed, data_mk. by rewrite <-!app_assoc.
  - unfold mret, W_ret in Hm. apply pair_equal_spec in Hm as [Hr <-].
    injection Hr as <-.
    apply write_hirc_run in H as (R4 & U & U3 & Eh); [|apply at_end_mk].
    split; [done|]. split; [done|]. split; [done|].
    split; [apply Nat.ltb_ge in Esz; lia|]. split; [done|].
    by rewrite Eh, data_mk.
Qed.

Lemma fill_media_file_lookup_inv (stored_wems : list string)
    (d : gmap Z MediaEntry.t) :
  ∃ mfl,
    fill_media_file_lookup stored_wems d = ([], Ok mfl) ∧
    (keyed d → keyed mfl) ∧
    ∀ k, is_Some (mfl !! k) ↔
         is_Some (d !! k) ∨ ∃ p, p ∈ stored_wems ∧ k = compute_hash p.
Proof.
  revert d. induction stored_wems as [|p l IH]; intros d; simpl.
  - exists d. split; [done|]. split; [done|]. intros k. split; [by left|].
    intros [H|(p & Hp & _)]; [done|]. by apply elem_of_nil in Hp.
  - rewrite dict_contains_str.
    destruct (IH (<[compute_hash p := MediaEntry.mk (compute_hash p) p (-1) (-1)]> d))
      as (mfl & E & Hk & Hdom).
    exists mfl. split; [done|]. split.
    + intros Hd. apply Hk. intros k e.
      destruct (decide (compute_hash p = k)) as [<-|Hne].
      * rewrite lookup_insert_eq. by intros [= <-].
      * rewrite lookup_insert_ne by done. apply Hd.
    + intros k. rewrite Hdom. split.
      * intros [Hs|(q & Hq & ->)].
        -- destruct (decide (compute_hash p = k)) as [<-|Hne].
           ++ right. exists p. split; [left|done].
           ++ rewrite lookup_insert_ne in Hs by done. by left.
        -- right. exists q. split; [by right|done].
      * intros [Hs|(q & Hq & ->)].
        -- left. destruct (decide (compute_hash p = k)) as [<-|Hne].
           ++ by rewrite lookup_insert_eq.
           ++ by rewrite lookup_insert_ne.
        -- apply elem_of_cons in Hq as [->|Hq].
           ++ left. by rewrite lookup_insert_eq.
           ++ right. by exists q.
Qed.

(** A run that returned: the table was read, the catalog was built, and the
    writer went through. *)
(** The catalog holds stored paths under their own hashes. *)
Lemma fill_media_file_lookup_names (stored : list string)
    (d mfl : gmap Z MediaEntry.t) (out : list message) :
  fill_media_file_lookup stored d = (out, Ok mfl) →
  ∀ k e, mfl !! k = Some e →
    d !! k = Some e ∨
    (MediaEntry.wem_filename e ∈ stored ∧
     compute_hash (MediaEntry.wem_filename e) = k ∧
     MediaEntry.hash e = k ∧
     MediaEntry.offset e = -1 ∧ MediaEntry.size e = -1).
Proof.
  revert d. induction stored as [|p l IH]; intros d H k e He; simpl in H.
  - injection H as _ <-. by left.
  - rewrite dict_contains_str in H.
    destruct (IH _ H k e He) as [Hd|(Hin & Hh & Hrest)].
    + destruct (decide (compute_hash p = k)) as [<-|Hne].
      * rewrite lookup_insert_eq in Hd. injection Hd as <-. right.
        simpl. split; [by left|done].
      * rewrite lookup_insert_ne in Hd by done. by left.
    + right. split; [by right|done].
Qed.

Lemma make_bnk_Ok (a : args) (wem_table_file : list string) (fs : filesystem)
    (bytes : list Z) :
  status (make_bnk a wem_table_file fs) = Ok tt →
  bnk (make_bnk a wem_table_file fs) = Some bytes →
  ∃ t mfl f',
    read_wem_table 0 wem_table_file (mkTable [] [] []) = (t, None) ∧
    fill_media_file_lookup (stored_wems a t) ∅ = ([], Ok mfl) ∧
    write_bnk (bnk_file a) fs (in_sfx_wems t) (in_bgm_wems t) mfl
              (sorted_keys mfl) opened = (Ok tt, f') ∧
    bytes = data f'.
Proof.
  unfold make_bnk.
  destruct (read_wem_table 0 wem_table_file (mkTable [] [] []))
    as [t [e|]] eqn:Et; [done|].
  destruct (fill_media_file_lookup_inv (stored_wems a t) ∅) as (mfl & Ef & _).
  rewrite Ef.
  destruct (write_bnk _ _ _ _ _ _ _) as [r f'] eqn:E. simpl.
  intros -> [= <-]. by exists t, mfl, f'.
Qed.

(** ** Reading back what was written *)

Lemma parse_records_fuel_records (rs : list (Z * list Z)) (fuel : nat) :
  Forall well_sized rs → (length rs ≤ fuel)%nat →
  parse_records_fuel fuel (flat_map record rs) = Some rs.
Proof.
  intros Hw. revert fuel. induction Hw as [|[ty body] rs Hr _ IH]; intros fuel Hf.
  - by destruct fuel.
  - destruct fuel as [|fuel]; [simpl in Hf; lia|].
    cbn [flat_map]. unfold record at 1. cbn [fst snd].
    unfold well_sized in Hr. cbn [snd] in Hr.
    destruct (le_bytes_4_shape _ Hr) as (a0 & a1 & a2 & a3 & -> & Ha).
    cbn [app parse_records_fuel]. rewrite Ha, Nat2Z.id.
    rewrite length_app.
    replace (length body <=? length body + length (flat_map record rs))%nat
      with true by (symmetry; apply Nat.leb_le; lia).
    rewrite drop_app_length, take_app_length.
    rewrite IH by (simpl in Hf; lia). done.
Qed.

Lemma length_flat_map_record (rs : list (Z * list Z)) :
  (length rs ≤ length (flat_map record rs))%nat.
Proof.
  induction rs as [|r rs IH]; [done|]. cbn [flat_map].
  rewrite length_app. unfold record in *. cbn [length]. lia.
Qed.

Lemma parse_records_records (rs : list (Z * list Z)) :
  Forall well_sized rs → parse_records (flat_map record rs) = Some rs.
Proof.
  intros Hw. apply parse_records_fuel_records; [done|].
  apply length_flat_map_record.
Qed.

Lemma parse_chunks_fuel_chunks (cs : list (list Z * list Z)) (fuel : nat) :
  Forall (fun c => length c.1 = 4%nat ∧ u32 (Z.of_nat (length c.2))) cs →
  (length cs ≤ fuel)%nat →
  parse_chunks_fuel fuel (flat_map chunk_bytes cs) = Some cs.
Proof.
  intros Hw. revert fuel.
  induction Hw as [|[tag body] cs [Ht Hu] _ IH]; intros fuel Hf.
  - by destruct fuel.
  - destruct fuel as [|fuel]; [simpl in Hf; lia|].
    cbn [flat_map]. unfold chunk_bytes at 1. cbn [fst snd] in *.
    destruct tag as [|t0 [|t1 [|t2 [|t3 [|]]]]]; try done.
    destruct (le_bytes_4_shape _ Hu) as (a0 & a1 & a2 & a3 & -> & Ha).
    cbn [app parse_chunks_fuel]. rewrite Ha, Nat2Z.id.
    rewrite length_app.
    replace (length body <=? length body + length (flat_map chunk_bytes cs))%nat
      with true by (symmetry; apply Nat.leb_le; lia).
    rewrite drop_app_length, take_app_length.
    rewrite IH by (simpl in Hf; lia). done.
Qed.

Lemma parse_chunks_chunks (cs : list (list Z * list Z)) :
  Forall (fun c => length c.1 = 4%nat ∧ u32 (Z.of_nat (length c.2))) cs →
  parse_chunks (flat_map chunk_bytes cs) = Some cs.
Proof.
  intros Hw. apply parse_chunks_fuel_chunks; [done|].
  clear. induction cs as [|c cs IH]; [done|]. cbn [flat_map].
  rewrite length_app. unfold chunk_bytes in *. rewrite !length_app, length_le_bytes.
  cbn [length]. lia.
Qed.

(** ** The layout of a bank file *)

Lemma make_bnk_layout (a : args) (wem_table_file : list string)
    (fs : filesystem) (bytes : list Z) :
  status (make_bnk a wem_table_file fs) = Ok tt →
  bnk (make_bnk a wem_table_file fs) = Some bytes →
  ∃ t mfl mfl' bkhd entries segs sounds events,
    read_wem_table 0 wem_table_file (mkTable [] [] []) = (t, None) ∧
    fill_media_file_lookup (stored_wems a t) ∅ = ([], Ok mfl) ∧
    (∀ k, is_Some (mfl !! k) ↔ ∃ p, p ∈ stored_wems a t ∧ k = compute_hash p) ∧
    same_clips mfl mfl' ∧ keyed mfl' ∧
    length bkhd = 24%nat ∧
    Forall2 (fun k e => mfl' !! k = Some e) (sorted_keys mfl) entries ∧
    Forall (fun e => u32 (MediaEntry.hash e) ∧ u32 (MediaEntry.offset e) ∧
                     u32 (MediaEntry.size e)) entries ∧
    Forall2 (fun k s => ∃ e, mfl !! k = Some e ∧
                             fs (MediaEntry.wem_filename e) = Some s.2)
            (sorted_keys mfl) segs ∧
    Forall well_sized (sounds ++ events) ∧
    Forall (fun r => is_sound_or_mixer (read_object r) = true) sounds ∧
    map read_object events
      = flat_map event_objects
          (event_entry_list (in_sfx_wems t) (in_bgm_wems t)) ∧
    Z.of_nat (length (sounds ++ events))
      = hirc_entry_count (in_sfx_wems t) (in_bgm_wems t) ∧
    u32 (hirc_entry_count (in_sfx_wems t) (in_bgm_wems t)) ∧
    (∀ ty p, p ∈ match ty with SFX => in_sfx_wems t | BGM => in_bgm_wems t end →
             ∃ parent, sound_of mfl' parent (sound_entry ty p)
                       ∈ map read_object sounds) ∧
    bytes = flat_map chunk_bytes
              (bank_chunks mfl bkhd entries segs
                 (hirc_entry_count (in_sfx_wems t) (in_bgm_wems t))
                 (sounds ++ events)) ∧
    parse_chunks bytes
      = Some (bank_chunks mfl bkhd entries segs
                (hirc_entry_count (in_sfx_wems t) (in_bgm_wems t))
                (sounds ++ events)).
Proof.
  intros Hs Hb.
  destruct (make_bnk_Ok a wem_table_file fs bytes Hs Hb)
    as (t & mfl & f' & Et & Ef & Ew & ->).
  destruct (fill_media_file_lookup_inv (stored_wems a t) ∅)
    as (mfl0 & Ef0 & Hkeyed & Hdom).
  rewrite Ef in Ef0. injection Ef0 as <-.
  assert (Hk : keyed mfl) by (apply Hkeyed; intros k e; by rewrite lookup_empty).
  assert (Hdom' : ∀ k, is_Some (mfl !! k) ↔
                       ∃ p, p ∈ stored_wems a t ∧ k = compute_hash p).
  { intros k. rewrite Hdom, lookup_empty. split; [|by right].
    intros [[? [=]]|H]; done. }
  apply write_bnk_run in Ew
    as (bkhd & mfl' & Lb & Hd & Rh & Uc & Ud & Uh & Ed).
  apply write_hirc_objects_records in Rh
    as (sounds & events & Eo & Hw & Hsm & Hev & Hcount & Hsound).
  assert (∃ entries segs,
    same_clips mfl mfl' ∧
    Forall2 (fun k e => mfl' !! k = Some e) (sorted_keys mfl) entries ∧
    Forall (fun e => u32 (MediaEntry.hash e) ∧ u32 (MediaEntry.offset e) ∧
                     u32 (MediaEntry.size e)) entries ∧
    Forall2 (fun k s => ∃ e, mfl !! k = Some e ∧
                             fs (MediaEntry.wem_filename e) = Some s.2)
            (sorted_keys mfl) segs ∧
    ((0 < size mfl)%nat →
     output (for_each (write_media_header mfl') (sorted_keys mfl))
       = flat_map didx_entry entries ∧
     output (for_fold (write_wem fs) (sorted_keys mfl) (0%nat, mfl))
       = segments segs))
    as (entries & segs & Hsame & Hent & Hu & Hsegs & Hout).
  { destruct (0 <? size mfl)%nat eqn:Esz.
    - destruct Hd as (off & R1 & R2).
      apply write_wems_inv in R1 as (Hsame & _ & segs & Es & HF).
      apply write_media_headers_inv in R2 as (es & Ee & HF' & HU).
      by exists es, segs.
    - subst mfl'. exists [], []. apply Nat.ltb_ge in Esz.
      assert (sorted_keys mfl = []) as ->.
      { apply length_zero_iff_nil. rewrite length_sorted_keys. lia. }
      repeat split; try constructor; lia. }
  exists t, mfl, mfl', bkhd, entries, segs, sounds, events.
  assert (Hk' : keyed mfl').
  { intros k e He.
    destruct (same_clips_lookup mfl' mfl k e (fun k => eq_sym (Hsame k)) He)
      as (e0 & He0 & Hh & _). rewrite <-Hh. by apply Hk. }
  assert (Ebytes : data f' = flat_map chunk_bytes
            (bank_chunks mfl bkhd entries segs
               (hirc_entry_count (in_sfx_wems t) (in_bgm_wems t))
               (sounds ++ events))).
  { rewrite Ed, Eo. unfold bank_chunks.
    destruct (0 <? size mfl)%nat eqn:Esz.
    - apply Nat.ltb_lt in Esz. destruct (Hout Esz) as [-> ->].
      unfold chunk, chunk_bytes. cbn [flat_map app fst snd].
      by rewrite <-!app_assoc, app_nil_r.
    - unfold chunk, chunk_bytes. cbn [flat_map app fst snd].
      by rewrite <-!app_assoc, app_nil_r. }
  repeat (split; [done|]).
  rewrite Ebytes. apply parse_chunks_chunks. unfold bank_chunks.
  rewrite Eo in Uh.
  apply Forall_app. split.
  { apply Forall_singleton. split; [done|]. simpl. rewrite Lb. done. }
  apply Forall_app. split.
  - destruct (0 <? size mfl)%nat eqn:Esz; [|constructor].
    apply Nat.ltb_lt in Esz. destruct (Hout Esz) as [E1 E2].
    destruct (Ud Esz) as [U1 U2]. rewrite E1 in U1. rewrite E2 in U2.
    apply Forall_cons_2; [by split|]. apply Forall_singleton. by split.
  - by apply Forall_singleton.
Qed.

(** ** What a reader finds in the chunks *)

Lemma chunk_body_didx mfl bkhd entries segs count recs :
  chunk_body "DIDX" (bank_chunks mfl bkhd entries segs count recs)
  = if (0 <? size mfl)%nat then Some (flat_map didx_entry entries) else None.
Proof. unfold bank_chunks, chunk_body. by destruct (0 <? size mfl)%nat. Qed.

Lemma chunk_body_data mfl bkhd entries segs count recs :
  chunk_body "DATA" (bank_chunks mfl bkhd entries segs count recs)
  = if (0 <? size mfl)%nat then Some (segments segs) else None.
Proof. unfold bank_chunks, chunk_body. by destruct (0 <? size mfl)%nat. Qed.

Lemma chunk_body_hirc mfl bkhd entries segs count recs :
  chunk_body "HIRC" (bank_chunks mfl bkhd entries segs count recs)
  = Some (le_bytes 4 count ++ flat_map record recs).
Proof. unfold bank_chunks, chunk_body. by destruct (0 <? size mfl)%nat. Qed.

Lemma int_at_count (count : Z) (rest : list Z) :
  u32 count → int_at 0 4 (le_bytes 4 count ++ rest) = count.
Proof.
  intros U. destruct (le_bytes_4_shape count U) as (a0 & a1 & a2 & a3 & -> & <-).
  done.
Qed.

Lemma drop_count (count : Z) (rest : list Z) :
  drop 4 (le_bytes 4 count ++ rest) = rest.
Proof. done. Qed.

Lemma entries_hashes (mfl' : gmap Z MediaEntry.t) (l : list Z)
    (entries : list MediaEntry.t) :
  keyed mfl' → Forall2 (fun k e => mfl' !! k = Some e) l entries →
  map MediaEntry.hash entries = l.
Proof.
  intros Hk. induction 1 as [|k e l es He _ IH]; [done|].
  simpl. by rewrite IH, (Hk k e He).
Qed.

(** C2. The entries of the clip index of a produced file are strictly
    ascending in their hash field: their hashes are the keys of the catalog
    in sorted order, and the keys of a dictionary are pairwise distinct. *)
Theorem didx_strictly_ascending (a : args) (wem_table_file : list string)
    (fs : filesystem) (bytes : list Z) :
  status (make_bnk a wem_table_file fs) = Ok tt →
  bnk (make_bnk a wem_table_file fs) = Some bytes →
  ∃ t mfl chunks,
    read_wem_table 0 wem_table_file (mkTable [] [] []) = (t, None) ∧
    fill_media_file_lookup (stored_wems a t) ∅ = ([], Ok mfl) ∧
    parse_chunks bytes = Some chunks ∧
    ((0 < size mfl)%nat → is_Some (chunk_body "DIDX" chunks)) ∧
    ∀ didx, chunk_body "DIDX" chunks = Some didx →
      map (fun e => e.1.1) (parse_didx didx) = sorted_keys mfl ∧
      NoDup (map (fun e => e.1.1) (parse_didx didx)) ∧
      ascending (map (fun e => e.1.1) (parse_didx didx)).
Proof.
  intros Hs Hb.
  destruct (make_bnk_layout a wem_table_file fs bytes Hs Hb)
    as (t & mfl & mfl' & bkhd & entries & segs & sounds & events & Et & Ef
        & _ & _ & Hk & _ & Hent & Hu & _ & _ & _ & _ & _ & _ & _ & _ & Hp).
  exists t, mfl, (bank_chunks mfl bkhd entries segs
                    (hirc_entry_count (in_sfx_wems t) (in_bgm_wems t))
                    (sounds ++ events)).
  split; [done|]. split; [done|]. split; [done|].
  rewrite chunk_body_didx. split.
  { intros Hsz. apply Nat.ltb_lt in Hsz. by rewrite Hsz. }
  intros didx Hd. destruct (0 <? size mfl)%nat; [|done].
  injection Hd as <-. rewrite (parse_didx_entries entries Hu), map_map.
  change (map _ entries) with (map MediaEntry.hash entries).
  rewrite (entries_hashes mfl' _ _ Hk Hent).
  split; [done|]. split; [|apply sorted_keys_ascending].
  unfold sorted_keys. rewrite sort_by_Permutation.
  apply NoDup_fst_map_to_list.
Qed.

Lemma length_didx_entry (e : MediaEntry.t) : length (didx_entry e) = 12%nat.
Proof. unfold didx_entry. by rewrite !length_app, !length_le_bytes. Qed.

Lemma length_segments (segs : list (nat * list Z)) :
  length (segments segs) = list_sum (map (fun s => (s.1 + length s.2)%nat) segs).
Proof.
  unfold segments. induction segs as [|s segs IH]; [done|].
  cbn [flat_map map list_sum].
  rewrite !length_app, length_replicate, IH. reflexivity.
Qed.

(** C3. In a produced file every chunk declares the exact length of its
    body: BKHD declares 0x18 and has 24 body bytes; DIDX declares 12 times
    the number of catalog entries and has 12 bytes per entry; DATA declares
    the clip bytes plus the padding written before them; HIRC, the last
    chunk, declares the end of the file minus the position just after its
    length field.  Read back by their declared lengths, the chunks are
    exactly these, up to the last byte of the file. *)
Theorem chunk_lengths (a : args) (wem_table_file : list string)
    (fs : filesystem) (bytes : list Z) :
  status (make_bnk a wem_table_file fs) = Ok tt →
  bnk (make_bnk a wem_table_file fs) = Some bytes →
  ∃ t mfl bkhd entries segs recs,
    let count := hirc_entry_count (in_sfx_wems t) (in_bgm_wems t) in
    let didx := flat_map didx_entry entries in
    let hirc := le_bytes 4 count ++ flat_map record recs in
    let before_hirc :=
      chunk "BKHD" bkhd
      ++ (if (0 <? size mfl)%nat
          then chunk "DIDX" didx ++ chunk "DATA" (segments segs) else []) in
    let HIRC_len_location := (length before_hirc + 4)%nat in
    read_wem_table 0 wem_table_file (mkTable [] [] []) = (t, None) ∧
    fill_media_file_lookup (stored_wems a t) ∅ = ([], Ok mfl) ∧
    bytes = before_hirc ++ chunk "HIRC" hirc ∧
    parse_chunks bytes
      = Some (bank_chunks mfl bkhd entries segs count recs) ∧
    (* BKHD *)
    length bkhd = 24%nat ∧
    take 8 bytes = b "BKHD" ++ [0x18; 0; 0; 0] ∧
    (* DIDX *)
    length entries = size mfl ∧
    Forall (fun e => length (didx_entry e) = 12%nat) entries ∧
    length didx = (12 * size mfl)%nat ∧
    (* DATA *)
    Forall2 (fun k s => ∃ e, mfl !! k = Some e ∧
                             fs (MediaEntry.wem_filename e) = Some s.2)
            (sorted_keys mfl) segs ∧
    length (segments segs)
      = list_sum (map (fun s => (s.1 + length s.2)%nat) segs) ∧
    (* HIRC *)
    Z.of_nat (length hirc)
      = Z.of_nat (length bytes) - Z.of_nat HIRC_len_location - 4.
Proof.
  intros Hs Hb.
  destruct (make_bnk_layout a wem_table_file fs bytes Hs Hb)
    as (t & mfl & mfl' & bkhd & entries & segs & sounds & events & Et & Ef
        & _ & _ & Hk & Lb & Hent & Hu & Hsegs & _ & _ & _ & _ & _ & _
        & Eb & Hp).
  exists t, mfl, bkhd, entries, segs, (sounds ++ events). cbv zeta.
  assert (Hlen : length entries = size mfl).
  { by rewrite <-(Forall2_length _ _ _ Hent), length_sorted_keys. }
  assert (Ebytes : bytes =
    (chunk "BKHD" bkhd
     ++ (if (0 <? size mfl)%nat
         then chunk "DIDX" (flat_map didx_entry entries)
              ++ chunk "DATA" (segments segs) else []))
    ++ chunk "HIRC"
         (le_bytes 4 (hirc_entry_count (in_sfx_wems t) (in_bgm_wems t))
          ++ flat_map record (sounds ++ events))).
  { rewrite Eb. unfold bank_chunks, chunk, chunk_bytes.
    destruct (0 <? size mfl)%nat; cbn [flat_map app fst snd];
      by rewrite <-!app_assoc, ?app_nil_r. }
  split; [done|]. split; [done|]. split; [done|]. split; [done|].
  split; [done|]. split.
  { rewrite Ebytes. unfold chunk at 1. rewrite Lb.
    rewrite <-!app_assoc. done. }
  split; [done|]. split.
  { apply Forall_forall. intros e _. apply length_didx_entry. }
  split; [by rewrite length_flat_map_didx_entry, Hlen|].
  split; [done|]. split; [apply length_segments|].
  set (P := chunk "BKHD" bkhd ++ _) in *. clearbody P.
  rewrite Ebytes at 1. rewrite length_app. unfold chunk.
  rewrite !length_app, !length_le_bytes.
  change (length (b "HIRC")) with 4%nat. lia.
Qed.

(** ** Upper case *)

Lemma ord_range (c : ascii) : 0 ≤ Str.ord c < 256.
Proof.
  unfold Str.ord. pose proof (N_ascii_bounded c). lia.
Qed.

Lemma ord_inj (c d : ascii) : Str.ord c = Str.ord d → c = d.
Proof.
  unfold Str.ord. intros H. apply N2Z.inj in H.
  by rewrite <-(ascii_N_embedding c), <-(ascii_N_embedding d), H.
Qed.

Lemma points_app (u v : string) :
  Str.points (u +:+ v) = Str.points u ++ Str.points v.
Proof.
  unfold Str.points. induction u as [|c u IH]; simpl; [done|].
  by rewrite IH.
Qed.

Lemma points_inj (u v : string) : Str.points u = Str.points v → u = v.
Proof.
  unfold Str.points. revert v.
  induction u as [|c u IH]; intros [|d v]; simpl; try done.
  intros [= Hc Hr]. apply ord_inj in Hc as ->. by rewrite (IH v Hr).
Qed.

Lemma points_app_inv (u w : string) (X : list Z) :
  Str.points u ++ X = Str.points w →
  ∃ w', w = u +:+ w' ∧ X = Str.points w'.
Proof.
  revert w. induction u as [|c u IH]; intros w H.
  - by exists w.
  - destruct w as [|d w]; [done|]. unfold Str.points in H. simpl in H.
    injection H as Hc Hr. apply ord_inj in Hc as ->.
    destruct (IH w Hr) as (w' & -> & ->). by exists w'.
Qed.

Lemma chars_app (u v : string) :
  Str.chars (u +:+ v) = Str.chars u ++ Str.chars v.
Proof. induction u as [|c u IH]; simpl; [done|]. by rewrite IH. Qed.

Lemma upper_points_char_cases (c : ascii) :
  (beyond c ∧ Str.upper_char c = String c EmptyString ∧
   ∃ z, Str.upper_points_char c = [z] ∧ 256 ≤ z) ∨
  (¬ beyond c ∧ Str.upper_points_char c = Str.points (Str.upper_char c)).
Proof.
  unfold beyond, Str.upper_points_char.
  destruct (N_of_ascii c =? 181)%N eqn:E1.
  { apply N.eqb_eq in E1. left. split; [by left|]. split.
    - rewrite <-(ascii_N_embedding c), E1. reflexivity.
    - exists 924. split; [done|lia]. }
  destruct (N_of_ascii c =? 255)%N eqn:E2.
  { apply N.eqb_eq in E2. left. split; [by right|]. split.
    - rewrite <-(ascii_N_embedding c), E2. reflexivity.
    - exists 376. split; [done|lia]. }
  apply N.eqb_neq in E1, E2. right. split; [|done]. by intros [?|?].
Qed.

(** The loop's comparison of the upper-cased token with a word without
    such characters comes out as on the Latin-1 reading of the token. *)
Lemma upper_points_eq (s w : string) :
  Forall (fun c => ¬ beyond c) (Str.chars w) →
  Str.upper_points s = Str.points w ↔ Str.upper s = w.
Proof.
  revert w. induction s as [|c rest IH]; intros w Hw.
  - simpl. split.
    + intros H. by apply (points_inj EmptyString w).
    + by intros <-.
  - cbn [Str.upper_points Str.upper].
    destruct (upper_points_char_cases c)
      as [(Hb & Hu & z & Hz & Hzr)|[Hb Hp]].
    + rewrite Hu, Hz. split.
      * intros H. destruct w as [|d w]; [done|].
        unfold Str.points in H. simpl in H. injection H as Hd _.
        pose proof (ord_range d). lia.
      * intros <-. simpl in Hw. apply Forall_cons in Hw as [Hc _]. done.
    + rewrite Hp. split.
      * intros H. apply points_app_inv in H as (w' & -> & H).
        f_equal. apply IH; [|done].
        rewrite chars_app in Hw. by apply Forall_app in Hw as [_ ?].
      * intros <-. rewrite points_app. f_equal. apply IH; [|done].
        rewrite chars_app in Hw. by apply Forall_app in Hw as [_ ?].
Qed.

Lemma category_test (f0 w : string) :
  Forall (fun c => ¬ beyond c) (Str.chars w) →
  bool_decide (Str.upper_points f0 = Str.points w) = String.eqb (Str.upper f0) w.
Proof.
  intros Hw. destruct (String.eqb _ w) eqn:E.
  - apply String.eqb_eq in E. apply bool_decide_eq_true.
    by apply upper_points_eq.
  - apply String.eqb_neq in E. apply bool_decide_eq_false.
    by rewrite upper_points_eq.
Qed.

Lemma category_words :
  Forall (fun c => ¬ beyond c) (Str.chars "SFX") ∧
  Forall (fun c => ¬ beyond c) (Str.chars "BGM").
Proof.
  split; repeat constructor; intros [H|H]; vm_compute in H; discriminate.
Qed.

(** The capitals of the micro sign and of y with diaeresis, and the two
    letters of sharp s. *)
Lemma upper_points_beyond :
  Str.upper_points
    (String (ascii_of_nat 181)
       (String (ascii_of_nat 255) (String (ascii_of_nat 223) EmptyString)))
  = [924; 376; 83; 83].
Proof. reflexivity. Qed.

(** The loop body with its comparisons on the Latin-1 reading. *)
Lemma read_line_eq (i : nat) (line : string) (t : table) :
  read_line i line t =
  (f0 ← from_option Ok (Raise IndexError)
         (Str.split TAB (Str.strip line) !! 0%nat);
   wem_path ← from_option Ok (Raise IndexError)
                (Str.split TAB (Str.strip line) !! 1%nat);
   if String.eqb (Str.upper f0) "SFX" then
     Ok (mkTable (printed t) (in_sfx_wems t ++ [wem_path]) (in_bgm_wems t))
   else if String.eqb (Str.upper f0) "BGM" then
     Ok (mkTable (printed t) (in_sfx_wems t) (in_bgm_wems t ++ [wem_path]))
   else
     Ok (mkTable (printed t ++ [InvalidWemType i (Str.upper_points f0)])
                 (in_sfx_wems t) (in_bgm_wems t))).
Proof.
  unfold read_line.
  destruct (Str.split TAB (Str.strip line) !! 0%nat) as [f0|]; [|done].
  cbn [from_option mbind res_bind].
  destruct (Str.split TAB (Str.strip line) !! 1%nat) as [p|]; [|done].
  cbn [from_option mbind res_bind].
  by rewrite !category_test by apply category_words.
Qed.

Lemma read_line_Ok (i : nat) (line : string) (t t' : table) :
  read_line i line t = Ok t' →
  ∃ wem_path,
    Str.split TAB (Str.strip line) !! 1%nat = Some wem_path ∧
    t' = if String.eqb (line_category line) "SFX" then
           mkTable (printed t) (in_sfx_wems t ++ [wem_path]) (in_bgm_wems t)
         else if String.eqb (line_category line) "BGM" then
           mkTable (printed t) (in_sfx_wems t) (in_bgm_wems t ++ [wem_path])
         else
           mkTable (printed t ++ [InvalidWemType i (line_token line)])
                   (in_sfx_wems t) (in_bgm_wems t).
Proof.
  rewrite read_line_eq. unfold line_category, line_token.
  destruct (Str.split TAB (Str.strip line) !! 0%nat) as [f0|]; [|done].
  destruct (Str.split TAB (Str.strip line) !! 1%nat) as [p|]; [|done].
  simpl. intros H. exists p. split; [done|].
  destruct (String.eqb (Str.upper f0) "SFX"); [congruence|].
  destruct (String.eqb (Str.upper f0) "BGM"); congruence.
Qed.

(** The table counts the lines of each category. *)
Lemma read_wem_table_counts (lines : list string) (i : nat) (t0 t : table) :
  read_wem_table i lines t0 = (t, None) →
  length (in_sfx_wems t)
    = (length (in_sfx_wems t0)
       + length (filter (fun l => line_category l = "SFX") lines))%nat ∧
  length (in_bgm_wems t)
    = (length (in_bgm_wems t0)
       + length (filter (fun l => line_category l = "BGM") lines))%nat.
Proof.
  revert i t0. induction lines as [|l lines IH]; intros i t0 H; simpl in H.
  - injection H as <-. rewrite !filter_nil. simpl. lia.
  - destruct (read_line i l t0) as [t1|e] eqn:E; [|done].
    apply IH in H as [H1 H2]. rewrite H1, H2. clear IH H1 H2.
    apply read_line_Ok in E as (p & _ & ->).
    rewrite !filter_cons.
    destruct (String.eqb (line_category l) "SFX") eqn:E1.
    { apply String.eqb_eq in E1. rewrite E1.
      rewrite decide_True by done. rewrite decide_False by done.
      simpl. rewrite length_app. simpl. lia. }
    apply String.eqb_neq in E1. rewrite (decide_False (P := _ = "SFX")) by done.
    destruct (String.eqb (line_category l) "BGM") eqn:E2.
    { apply String.eqb_eq in E2. rewrite decide_True by done.
      simpl. rewrite length_app. simpl. lia. }
    apply String.eqb_neq in E2. rewrite decide_False by done. simpl. lia.
Qed.

Lemma hirc_entry_count_eq (t : table) :
  hirc_entry_count (in_sfx_wems t) (in_bgm_wems t)
  = mixers_present t + 3 * Z.of_nat (length (in_sfx_wems t))
    + 5 * Z.of_nat (length (in_bgm_wems t)).
Proof.
  unfold hirc_entry_count, mixers_present.
  destruct (in_sfx_wems t), (in_bgm_wems t); cbn [length Nat.ltb Nat.leb]; lia.
Qed.

(** C7. In a produced file the object count at the start of the HIRC chunk
    is [mixers_present + 3 * sfx_count + 5 * bgm_count], where the counts
    are those of the SFX and BGM lines of the table, and it is the number of
    object records that follow it in the chunk. *)
Theorem hirc_object_count (a : args) (wem_table_file : list string)
    (fs : filesystem) (bytes : list Z) :
  status (make_bnk a wem_table_file fs) = Ok tt →
  bnk (make_bnk a wem_table_file fs) = Some bytes →
  ∃ t chunks hirc recs,
    let sfx_count :=
      length (filter (fun l => line_category l = "SFX") wem_table_file) in
    let bgm_count :=
      length (filter (fun l => line_category l = "BGM") wem_table_file) in
    read_wem_table 0 wem_table_file (mkTable [] [] []) = (t, None) ∧
    length (in_sfx_wems t) = sfx_count ∧
    length (in_bgm_wems t) = bgm_count ∧
    parse_chunks bytes = Some chunks ∧
    chunk_body "HIRC" chunks = Some hirc ∧
    int_at 0 4 hirc
      = mixers_present t + 3 * Z.of_nat sfx_count + 5 * Z.of_nat bgm_count ∧
    parse_records (drop 4 hirc) = Some recs ∧
    Z.of_nat (length recs) = int_at 0 4 hirc.
Proof.
  intros Hs Hb.
  destruct (make_bnk_layout a wem_table_file fs bytes Hs Hb)
    as (t & mfl & mfl' & bkhd & entries & segs & sounds & events & Et & Ef
        & _ & _ & _ & _ & _ & _ & _ & Hw & _ & _ & Hc & Uc & _ & _ & Hp).
  destruct (read_wem_table_counts _ _ _ _ Et) as [C1 C2]. simpl in C1, C2.
  eexists t, _, _, (sounds ++ events). cbv zeta.
  split; [done|]. split; [done|]. split; [done|]. split; [exact Hp|].
  split; [apply chunk_body_hirc|].
  rewrite int_at_count by done. rewrite drop_count.
  split; [by rewrite hirc_entry_count_eq, C1, C2|].
  split; [by apply parse_records_records|done].
Qed.

Lemma event_entry_list_Permutation (in_sfx_wems in_bgm_wems : list string) :
  event_entry_list in_sfx_wems in_bgm_wems
  ≡ₚ map (event_entry SFX) in_sfx_wems ++ map (event_entry BGM) in_bgm_wems.
Proof. apply sort_by_Permutation. Qed.

(** C8. In a produced file the records after the sounds and mixers are the
    events in ascending order of event identifier, each right after its own
    actions: one Play action for an SFX clip, and stop-previous, play,
    stop-competing, in this order, for a BGM clip; the event lists the
    identifiers of its actions in the same order. *)
Theorem events_sorted_after_their_actions (a : args)
    (wem_table_file : list string) (fs : filesystem) (bytes : list Z) :
  status (make_bnk a wem_table_file fs) = Ok tt →
  bnk (make_bnk a wem_table_file fs) = Some bytes →
  ∃ t chunks hirc sounds events,
    let entries := event_entry_list (in_sfx_wems t) (in_bgm_wems t) in
    read_wem_table 0 wem_table_file (mkTable [] [] []) = (t, None) ∧
    parse_chunks bytes = Some chunks ∧
    chunk_body "HIRC" chunks = Some hirc ∧
    parse_records (drop 4 hirc) = Some (sounds ++ events) ∧
    Forall (fun r => is_sound_or_mixer (read_object r) = true) sounds ∧
    map read_object events = flat_map event_objects entries ∧
    entries ≡ₚ map (event_entry SFX) (in_sfx_wems t)
               ++ map (event_entry BGM) (in_bgm_wems t) ∧
    StronglySorted (fun x y => EventEntry.hash x ≤ EventEntry.hash y) entries ∧
    (∀ p, event_objects (event_entry SFX p) =
          [ Action (compute_hash (p +:+ "_play")) PLAY
                   (compute_hash (p +:+ "_sound"));
            Event (compute_hash (p +:+ "_play_event"))
                  [compute_hash (p +:+ "_play")] ]) ∧
    (∀ p, event_objects (event_entry BGM p) =
          [ Action (compute_hash (p +:+ "_stop1")) STOP_E 289663270;
            Action (compute_hash (p +:+ "_play")) PLAY
                   (compute_hash (p +:+ "_sound"));
            Action (compute_hash (p +:+ "_stop2")) STOP_E 920168426;
            Event (compute_hash (p +:+ "_play_event"))
                  [ compute_hash (p +:+ "_stop1");
                    compute_hash (p +:+ "_play");
                    compute_hash (p +:+ "_stop2") ] ]).
Proof.
  intros Hs Hb.
  destruct (make_bnk_layout a wem_table_file fs bytes Hs Hb)
    as (t & mfl & mfl' & bkhd & entries & segs & sounds & events & Et & Ef
        & _ & _ & _ & _ & _ & _ & _ & Hw & Hsm & Hev & _ & _ & _ & _ & Hp).
  eexists t, _, _, sounds, events. cbv zeta.
  split; [done|]. split; [exact Hp|]. split; [apply chunk_body_hirc|].
  rewrite drop_count.
  split; [by apply parse_records_records|]. split; [done|]. split; [done|].
  split; [apply event_entry_list_Permutation|].
  split; [apply sort_by_sorted|]. split; done.
Qed.

Lemma flat_map_elem_of_split {A B} (f : A → list B) (l : list A) (x : A) :
  x ∈ l → ∃ before after, flat_map f l = before ++ f x ++ after.
Proof.
  intros Hx. apply list_elem_of_split in Hx as (l1 & l2 & ->).
  exists (flat_map f l1), (flat_map f l2). by rewrite flat_map_app.
Qed.

Lemma Forall2_join {A B C} (P : A → B → Prop) (Q : A → C → Prop)
    (l : list A) (k : list B) (m : list C) :
  Forall2 P l k → Forall2 Q l m →
  Forall2 (fun y z => ∃ x, x ∈ l ∧ P x y ∧ Q x z) k m.
Proof.
  intros HP. revert m. induction HP as [|x y l k Hxy _ IH]; intros m HQ.
  - apply Forall2_nil_inv_l in HQ as ->. constructor.
  - apply Forall2_cons_inv_l in HQ as (z & m' & Hxz & HQ & ->).
    constructor.
    + exists x. split; [left|done].
    + eapply Forall2_impl; [by apply IH|].
      intros y' z' (x' & Hx' & ? & ?). exists x'. split; [by right|done].
Qed.

(** C9, as amended.  With the exclude-BGM option the catalog holds the SFX
    clips only, so every entry of the clip index carries the identifier of
    an SFX clip, and the blob area is made, entry by entry, of some zeros
    and the content of the file of an SFX clip with the identifier of the
    entry (and without SFX clips there is neither a clip index nor a blob
    area); the hierarchy still holds, for every BGM clip, its sound and its
    two stops, play and event; and the sound of a BGM clip whose identifier
    is not that of any SFX clip carries the placeholder size. *)
Theorem excluded_bgm_hierarchy (a : args) (wem_table_file : list string)
    (fs : filesystem) (bytes : list Z) :
  exclude_bgm a = true →
  status (make_bnk a wem_table_file fs) = Ok tt →
  bnk (make_bnk a wem_table_file fs) = Some bytes →
  ∃ t chunks hirc sounds events,
    read_wem_table 0 wem_table_file (mkTable [] [] []) = (t, None) ∧
    parse_chunks bytes = Some chunks ∧
    chunk_body "HIRC" chunks = Some hirc ∧
    parse_records (drop 4 hirc) = Some (sounds ++ events) ∧
    (∀ didx e, chunk_body "DIDX" chunks = Some didx → e ∈ parse_didx didx →
               ∃ q, q ∈ in_sfx_wems t ∧ e.1.1 = compute_hash q) ∧
    (∀ didx, chunk_body "DIDX" chunks = Some didx →
       ∃ segs,
         chunk_body "DATA" chunks = Some (segments segs) ∧
         Forall2 (fun e s => ∃ q, q ∈ in_sfx_wems t ∧ e.1.1 = compute_hash q ∧
                                  fs q = Some s.2)
                 (parse_didx didx) segs) ∧
    (in_sfx_wems t = [] →
     chunk_body "DIDX" chunks = None ∧ chunk_body "DATA" chunks = None) ∧
    ∀ p, p ∈ in_bgm_wems t →
      (∃ parent uSize,
         Sound (compute_hash (p +:+ "_sound")) (compute_hash p) uSize parent
           ∈ map read_object sounds ∧
         ((∀ q, q ∈ in_sfx_wems t → compute_hash q ≠ compute_hash p) →
          uSize = PLACEHOLDER_SIZE)) ∧
      (∃ before after,
         map read_object events
           = before ++ event_objects (event_entry BGM p) ++ after).
Proof.
  intros Hx Hs Hb.
  destruct (make_bnk_layout a wem_table_file fs bytes Hs Hb)
    as (t & mfl & mfl' & bkhd & entries & segs & sounds & events & Et & Ef
        & Hdom & Hsame & Hk & _ & Hent & Hu & Hsegs & Hw & Hsm & Hev & _ & _
        & Hsound & _ & Hp).
  assert (Hstored : stored_wems a t = in_sfx_wems t)
    by (unfold stored_wems; by rewrite Hx).
  rewrite Hstored in Hdom, Ef.
  eexists t, _, _, sounds, events.
  split; [done|]. split; [exact Hp|]. split; [apply chunk_body_hirc|].
  rewrite drop_count. split; [by apply parse_records_records|].
  rewrite chunk_body_didx, chunk_body_data. split; [|split; [|split]].
  2: { intros didx Hd. destruct (0 <? size mfl)%nat; [|done].
       injection Hd as <-. exists segs. split; [done|].
       rewrite (parse_didx_entries entries Hu). apply Forall2_fmap_l.
       eapply Forall2_impl; [exact (Forall2_join _ _ _ _ _ Hent Hsegs)|].
       intros e s (k & _ & He & e0 & He0 & Hfs). cbn [fst].
       destruct (fill_media_file_lookup_names _ _ _ _ Ef k e0 He0)
         as [Hempty|(Hin & Hh & _)].
       { by rewrite lookup_empty in Hempty. }
       exists (MediaEntry.wem_filename e0).
       split; [done|]. split; [|done]. by rewrite (Hk k e He), Hh. }
  - intros didx e Hd He. destruct (0 <? size mfl)%nat; [|done].
    injection Hd as <-. rewrite (parse_didx_entries entries Hu) in He.
    apply list_elem_of_fmap in He as (me & -> & Hme). cbn [fst].
    apply Hdom.
    assert (Hin : MediaEntry.hash me ∈ map MediaEntry.hash entries)
      by (by apply list_elem_of_fmap_2).
    rewrite (entries_hashes mfl' _ _ Hk Hent) in Hin.
    by apply sorted_keys_elem_of in Hin.
  - intros Hnil. rewrite Hnil in Hdom.
    assert (mfl = ∅) as ->.
    { apply map_empty. intros k. apply eq_None_not_Some. intros Hs'.
      apply Hdom in Hs' as (p & Hp' & _). by apply elem_of_nil in Hp'. }
    by rewrite map_size_empty.
  - intros p Hp'. split.
    + destruct (Hsound BGM p Hp') as (parent & Hin).
      eexists parent, _. split; [exact Hin|]. intros Hne. simpl.
      assert (mfl' !! compute_hash p = None) as ->; [|done].
      apply eq_None_not_Some. intros Hs'.
      apply (same_clips_is_Some mfl mfl') in Hs'; [|done].
      apply Hdom in Hs' as (q & Hq & Heq). by apply (Hne q).
    + rewrite Hev. apply flat_map_elem_of_split.
      rewrite event_entry_list_Permutation. apply elem_of_app. right.
      by apply list_elem_of_fmap_2.
Qed.

(** ** The table reader *)

Lemma split_no_sep (sep : ascii) (s : string) :
  Str.contains sep s = false → Str.split sep s = [s].
Proof.
  induction s as [|c rest IH]; simpl; [done|].
  destruct (Ascii.eqb c sep); [done|]. simpl. intros H. by rewrite IH.
Qed.

Lemma read_line_Raise (i : nat) (line : string) (t : table) (e : exn) :
  read_line i line t = Raise e → e = IndexError.
Proof.
  rewrite read_line_eq.
  destruct (Str.split TAB (Str.strip line) !! 0%nat) as [f0|]; simpl;
    [|congruence].
  destruct (Str.split TAB (Str.strip line) !! 1%nat) as [p|]; simpl;
    [|congruence].
  destruct (String.eqb (Str.upper f0) "SFX"); [done|].
  destruct (String.eqb (Str.upper f0) "BGM"); done.
Qed.

Lemma read_line_no_tab (i : nat) (line : string) (t : table) :
  Str.contains TAB (Str.strip line) = false →
  Str.split TAB (Str.strip line) !! 1%nat = None ∧
  read_line i line t = Raise IndexError.
Proof.
  intros H. unfold read_line. by rewrite (split_no_sep _ _ H).
Qed.

Lemma read_wem_table_no_tab (lines : list string) (line : string) (i : nat)
    (t : table) :
  line ∈ lines → Str.contains TAB (Str.strip line) = false →
  ∃ t', read_wem_table i lines t = (t', Some IndexError).
Proof.
  intros Hin Hc. revert i t. induction Hin as [line lines|line l lines _ IH];
    intros i t; simpl.
  - destruct (read_line_no_tab i line t Hc) as [_ ->]. by exists t.
  - destruct (read_line i l t) as [t1|e] eqn:E.
    + by apply IH.
    + apply read_line_Raise in E as ->. by exists t.
Qed.

(** C10. A line that has no tab after stripping has no second field: the
    loop's access to it raises IndexError, and the run stops there, before
    the bank file is opened. *)
Theorem line_without_tab_stops_the_run (a : args)
    (wem_table_file : list string) (fs : filesystem) (line : string) :
  line ∈ wem_table_file →
  Str.contains TAB (Str.strip line) = false →
  Str.split TAB (Str.strip line) !! 1%nat = None ∧
  (∀ i t, read_line i line t = Raise IndexError) ∧
  status (make_bnk a wem_table_file fs) = Raise IndexError ∧
  bnk (make_bnk a wem_table_file fs) = None.
Proof.
  intros Hin Hc. split; [by apply (read_line_no_tab 0 line (mkTable [] [] []))|].
  split; [intros i t; by apply read_line_no_tab|].
  unfold make_bnk.
  destruct (read_wem_table_no_tab _ _ 0 (mkTable [] [] []) Hin Hc) as (t' & ->).
  done.
Qed.

Lemma read_line_wems (i j : nat) (line : string) (t t' : table) :
  wems t = wems t' →
  match read_line i line t, read_line j line t' with
  | Ok u, Ok u' => wems u = wems u'
  | Raise e, Raise e' => e = e'
  | _, _ => False
  end.
Proof.
  rewrite !read_line_eq. unfold wems. intros [= E1 E2].
  destruct (Str.split TAB (Str.strip line) !! 0%nat) as [f0|]; simpl; [|done].
  destruct (Str.split TAB (Str.strip line) !! 1%nat) as [p|]; simpl; [|done].
  destruct (String.eqb (Str.upper f0) "SFX"); simpl; [by rewrite E1, E2|].
  destruct (String.eqb (Str.upper f0) "BGM"); simpl; by rewrite E1, E2.
Qed.

Lemma read_wem_table_wems (lines : list string) (i j : nat) (t t' : table) :
  wems t = wems t' →
  (read_wem_table i lines t).2 = (read_wem_table j lines t').2 ∧
  ((read_wem_table i lines t).2 = None →
   wems (read_wem_table i lines t).1 = wems (read_wem_table j lines t').1).
Proof.
  revert i j t t'. induction lines as [|l lines IH]; intros i j t t' E; simpl.
  - done.
  - pose proof (read_line_wems i j l t t' E) as H.
    destruct (read_line i l t) as [u|e], (read_line j l t') as [u'|e'];
      try done.
    + by apply IH.
    + subst e'. done.
Qed.

Lemma read_wem_table_app (l1 l2 : list string) (i : nat) (t : table) :
  read_wem_table i (l1 ++ l2) t
  = match read_wem_table i l1 t with
    | (u, None) => read_wem_table (i + length l1) l2 u
    | (u, Some e) => (u, Some e)
    end.
Proof.
  revert i t. induction l1 as [|l l1 IH]; intros i t; simpl.
  - by rewrite Nat.add_0_r.
  - destruct (read_line i l t) as [u|e]; [|done].
    rewrite IH. by rewrite Nat.add_succ_r.
Qed.

Lemma read_wem_table_printed (lines : list string) (i : nat) (t : table)
    (m : message) :
  m ∈ printed t → m ∈ printed (read_wem_table i lines t).1.
Proof.
  revert i t. induction lines as [|l lines IH]; intros i t Hm; simpl; [done|].
  destruct (read_line i l t) as [u|e] eqn:E; [|done].
  apply IH. apply read_line_Ok in E as (p & _ & ->).
  destruct (String.eqb _ "SFX"); [done|].
  destruct (String.eqb _ "BGM"); [done|].
  simpl. apply elem_of_app. by left.
Qed.

Lemma make_bnk_unfold (a : args) (lines : list string) (fs : filesystem) :
  make_bnk a lines fs
  = match (read_wem_table 0 lines (mkTable [] [] [])).2 with
    | Some e => mkRun (printed (read_wem_table 0 lines (mkTable [] [] [])).1)
                      None (Raise e)
    | None =>
        let t := (read_wem_table 0 lines (mkTable [] [] [])).1 in
        match fill_media_file_lookup (stored_wems a t) ∅ with
        | (out, Raise e) => mkRun (printed t ++ out) None (Raise e)
        | (out, Ok media_file_lookup) =>
            let '(r, f) :=
              write_bnk (bnk_file a) fs (in_sfx_wems t) (in_bgm_wems t)
                        media_file_lookup (sorted_keys media_file_lookup)
                        opened in
            mkRun (printed t ++ out) (Some (data f)) r
        end
    end.
Proof.
  unfold make_bnk.
  by destruct (read_wem_table 0 lines (mkTable [] [] [])) as [t [e|]].
Qed.

Lemma stdout_printed (a : args) (lines : list string) (fs : filesystem)
    (m : message) :
  m ∈ printed (read_wem_table 0 lines (mkTable [] [] [])).1 →
  m ∈ stdout (make_bnk a lines fs).
Proof.
  rewrite make_bnk_unfold. intros Hm.
  destruct (read_wem_table 0 lines (mkTable [] [] [])).2; [done|].
  cbv zeta.
  destruct (fill_media_file_lookup _ ∅) as [out [mfl|e]].
  - destruct (write_bnk _ _ _ _ _ _ _). simpl. apply elem_of_app. by left.
  - simpl. apply elem_of_app. by left.
Qed.

(** C5, as amended.  A line with two fields whose category token is neither
    SFX nor BGM is reported on the standard output with its index and its
    upper-cased token, whose capitals may lie beyond Latin-1, and then
    skipped: the run ends as it does for the table without that line, and
    leaves the same bank file. *)
Theorem invalid_category_is_reported_and_skipped (a : args)
    (before after : list string) (line : string) (fs : filesystem) :
  is_Some (Str.split TAB (Str.strip line) !! 1%nat) →
  line_category line ≠ "SFX" → line_category line ≠ "BGM" →
  status (make_bnk a (before ++ line :: after) fs)
    = status (make_bnk a (before ++ after) fs) ∧
  bnk (make_bnk a (before ++ line :: after) fs)
    = bnk (make_bnk a (before ++ after) fs) ∧
  ((read_wem_table 0 before (mkTable [] [] [])).2 = None →
   InvalidWemType (length before) (line_token line)
     ∈ stdout (make_bnk a (before ++ line :: after) fs)).
Proof.
  intros [p Hp] H1 H2.
  assert (Hline : ∀ i t, read_line i line t =
            Ok (mkTable (printed t ++ [InvalidWemType i (line_token line)])
                        (in_sfx_wems t) (in_bgm_wems t))).
  { intros i t. rewrite read_line_eq. unfold line_category, line_token in *.
    destruct (Str.split TAB (Str.strip line) !! 0%nat) as [f0|] eqn:E0.
    - simpl in *. rewrite Hp. simpl.
      apply String.eqb_neq in H1, H2. by rewrite H1, H2.
    - destruct (Str.split TAB (Str.strip line)); done. }
  destruct (read_wem_table 0 before (mkTable [] [] [])) as [u o] eqn:Eb.
  assert (Hread :
    (read_wem_table 0 (before ++ line :: after) (mkTable [] [] [])).2
      = (read_wem_table 0 (before ++ after) (mkTable [] [] [])).2 ∧
    ((read_wem_table 0 (before ++ line :: after) (mkTable [] [] [])).2 = None →
     wems (read_wem_table 0 (before ++ line :: after) (mkTable [] [] [])).1
       = wems (read_wem_table 0 (before ++ after) (mkTable [] [] [])).1)).
  { rewrite !read_wem_table_app, Eb. destruct o as [e|]; [done|].
    cbn [read_wem_table]. rewrite Hline. by apply read_wem_table_wems. }
  destruct Hread as [Ho Hw]. split; [|split].
  - rewrite !make_bnk_unfold, <-Ho.
    destruct (read_wem_table 0 (before ++ line :: after) (mkTable [] [] [])).2; [done|].
    specialize (Hw eq_refl). injection Hw as Hw1 Hw2. cbv zeta.
    unfold stored_wems. rewrite Hw1, Hw2.
    destruct (fill_media_file_lookup _ ∅) as [out [mfl|e]]; [|done].
    by destruct (write_bnk _ _ _ _ _ _ _).
  - rewrite !make_bnk_unfold, <-Ho.
    destruct (read_wem_table 0 (before ++ line :: after) (mkTable [] [] [])).2; [done|].
    specialize (Hw eq_refl). injection Hw as Hw1 Hw2. cbv zeta.
    unfold stored_wems. rewrite Hw1, Hw2.
    destruct (fill_media_file_lookup _ ∅) as [out [mfl|e]]; [|done].
    by destruct (write_bnk _ _ _ _ _ _ _).
  - simpl. intros ->. apply stdout_printed.
    rewrite read_wem_table_app, Eb. cbn [read_wem_table]. rewrite Hline.
    apply read_wem_table_printed. simpl. apply elem_of_app. right.
    by left.
Qed.

(** ** Examples *)

Lemma compute_hash_fnv_witness :
  compute_hash "Foo.WEM" = compute_hash "foo.wem".
Proof.
  destruct compute_hash_fnv as (_ & _ & _ & H & _).
  apply H. unfold same_up_to_case. simpl. repeat constructor.
Defined.

Lemma catalog_nonempty (stored : list string) (p : string)
    (mfl : gmap Z MediaEntry.t) :
  p ∈ stored → fill_media_file_lookup stored ∅ = ([], Ok mfl) →
  (0 < size mfl)%nat.
Proof.
  intros Hp Ef.
  destruct (fill_media_file_lookup_inv stored ∅) as (mfl0 & Ef0 & _ & Hdom).
  rewrite Ef in Ef0. injection Ef0 as <-.
  assert (Hs : is_Some (mfl !! compute_hash p)).
  { apply Hdom. right. by exists p. }
  destruct (decide (size mfl = 0%nat)) as [Hz|Hnz]; [|lia].
  apply map_size_empty_iff in Hz. subst mfl.
  rewrite lookup_empty in Hs. by destruct Hs.
Qed.

Lemma didx_strictly_ascending_witness :
  ∃ chunks didx,
    parse_chunks bank_A = Some chunks ∧
    chunk_body "DIDX" chunks = Some didx ∧
    ascending (map (fun e => e.1.1) (parse_didx didx)).
Proof.
  destruct (didx_strictly_ascending (mkArgs "out.bnk" false) scenario_A
              three_bytes bank_A)
    as (t & mfl & chunks & Et & Ef & Hp & Hsome & Hd);
    [vm_compute; reflexivity|vm_compute; reflexivity|].
  assert (Ht : t = mkTable [] ["foo.wem"] ["bar.wem"]).
  { vm_compute in Et. by injection Et as <-. }
  subst t.
  assert (Hsz : (0 < size mfl)%nat).
  { apply (catalog_nonempty _ "foo.wem" mfl) in Ef; [done|by left]. }
  destruct (Hsome Hsz) as [didx Hdidx].
  exists chunks, didx. split; [done|]. split; [done|].
  by apply Hd.
Defined.

Lemma chunk_lengths_witness :
  ∃ bkhd didx blob hirc n,
    bank_A = chunk "BKHD" bkhd ++ chunk "DIDX" didx ++ chunk "DATA" blob
             ++ chunk "HIRC" hirc ∧
    length bkhd = 24%nat ∧ length didx = (12 * n)%nat.
Proof.
  destruct (chunk_lengths (mkArgs "out.bnk" false) scenario_A three_bytes bank_A)
    as (t & mfl & bkhd & entries & segs & recs & Et & Ef & Eb & _ & Lb & _
        & Le & _ & Ld & _);
    [vm_compute; reflexivity|vm_compute; reflexivity|].
  assert (Ht : t = mkTable [] ["foo.wem"] ["bar.wem"]).
  { vm_compute in Et. by injection Et as <-. }
  subst t.
  assert (Hsz : (0 <? size mfl)%nat = true).
  { apply Nat.ltb_lt.
    apply (catalog_nonempty _ "foo.wem" mfl) in Ef; [done|by left]. }
  rewrite Hsz in Eb.
  eexists bkhd, _, _, _, (size mfl). split; [|split; [exact Lb|exact Ld]].
  rewrite Eb, <-!app_assoc. reflexivity.
Defined.

Lemma hirc_object_count_witness :
  ∃ chunks hirc recs,
    parse_chunks bank_A = Some chunks ∧
    chunk_body "HIRC" chunks = Some hirc ∧
    int_at 0 4 hirc = 2 + 3 * 1 + 5 * 1 ∧
    parse_records (drop 4 hirc) = Some recs ∧
    length recs = 10%nat.
Proof.
  destruct (hirc_object_count (mkArgs "out.bnk" false) scenario_A three_bytes
              bank_A)
    as (t & chunks & hirc & recs & Et & C1 & C2 & Hp & Hh & Hc & Hr & Hl);
    [vm_compute; reflexivity|vm_compute; reflexivity|].
  exists chunks, hirc, recs. split; [done|]. split; [done|].
  assert (Ht : t = mkTable [] ["foo.wem"] ["bar.wem"]).
  { vm_compute in Et. by injection Et as <-. }
  subst t.
  assert (Hten : int_at 0 4 hirc = 10).
  { rewrite Hc. vm_compute. reflexivity. }
  split; [by rewrite Hten|]. split; [done|].
  rewrite Hten in Hl. lia.
Defined.

Lemma events_sorted_after_their_actions_witness :
  ∃ chunks hirc sounds events,
    parse_chunks bank_A = Some chunks ∧
    chunk_body "HIRC" chunks = Some hirc ∧
    parse_records (drop 4 hirc) = Some (sounds ++ events) ∧
    map read_object events
      = event_objects (event_entry SFX "foo.wem")
        ++ event_objects (event_entry BGM "bar.wem").
Proof.
  destruct (events_sorted_after_their_actions (mkArgs "out.bnk" false)
              scenario_A three_bytes bank_A)
    as (t & chunks & hirc & sounds & events & Et & Hp & Hh & Hr & _ & He & _);
    [vm_compute; reflexivity|vm_compute; reflexivity|].
  exists chunks, hirc, sounds, events.
  split; [done|]. split; [done|]. split; [done|].
  assert (Ht : t = mkTable [] ["foo.wem"] ["bar.wem"]).
  { vm_compute in Et. by injection Et as <-. }
  subst t. rewrite He.
  assert (El : event_entry_list ["foo.wem"] ["bar.wem"]
               = [event_entry SFX "foo.wem"; event_entry BGM "bar.wem"])
    by (vm_compute; reflexivity).
  cbn [in_sfx_wems in_bgm_wems]. rewrite El. cbn [flat_map].
  by rewrite app_nil_r.
Defined.

Lemma excluded_bgm_hierarchy_witness :
  ∃ chunks hirc sounds events parent,
    parse_chunks bank_A_excluded = Some chunks ∧
    chunk_body "HIRC" chunks = Some hirc ∧
    parse_records (drop 4 hirc) = Some (sounds ++ events) ∧
    Sound (compute_hash "bar.wem_sound") (compute_hash "bar.wem")
          PLACEHOLDER_SIZE parent ∈ map read_object sounds.
Proof.
  destruct (excluded_bgm_hierarchy (mkArgs "out.bnk" true) scenario_A
              three_bytes bank_A_excluded)
    as (t & chunks & hirc & sounds & events & Et & Hp & Hh & Hr & _ & _ & _ & Hb);
    [reflexivity|vm_compute; reflexivity|vm_compute; reflexivity|].
  assert (Ht : t = mkTable [] ["foo.wem"] ["bar.wem"]).
  { vm_compute in Et. by injection Et as <-. }
  subst t.
  destruct (Hb "bar.wem") as [(parent & uSize & Hin & Hsz) _]; [by left|].
  exists chunks, hirc, sounds, events, parent.
  split; [done|]. split; [done|]. split; [done|].
  rewrite <-Hsz; [done|].
  intros q Hq. apply list_elem_of_singleton in Hq as ->.
  vm_compute. discriminate.
Defined.

Lemma line_without_tab_stops_the_run_witness :
  status (make_bnk (mkArgs "out.bnk" false)
            [line "SFX" "foo.wem"; LF; line "BGM" "bar.wem"] three_bytes)
    = Raise IndexError ∧
  bnk (make_bnk (mkArgs "out.bnk" false)
         [line "SFX" "foo.wem"; LF; line "BGM" "bar.wem"] three_bytes)
    = None.
Proof.
  destruct (line_without_tab_stops_the_run (mkArgs "out.bnk" false)
              [line "SFX" "foo.wem"; LF; line "BGM" "bar.wem"] three_bytes LF)
    as (_ & _ & H1 & H2); [by right; left|reflexivity|].
  by split.
Defined.

Lemma invalid_category_is_reported_and_skipped_witness :
  status (make_bnk (mkArgs "out.bnk" false)
            [line "SFX" "foo.wem"; line "XXX" "baz.wem"; line "BGM" "bar.wem"]
            three_bytes) = Ok tt ∧
  bnk (make_bnk (mkArgs "out.bnk" false)
         [line "SFX" "foo.wem"; line "XXX" "baz.wem"; line "BGM" "bar.wem"]
         three_bytes) = Some bank_A ∧
  InvalidWemType 1 (Str.points "XXX")
    ∈ stdout (make_bnk (mkArgs "out.bnk" false)
                [line "SFX" "foo.wem"; line "XXX" "baz.wem"; line "BGM" "bar.wem"]
                three_bytes).
Proof.
  destruct (invalid_category_is_reported_and_skipped (mkArgs "out.bnk" false)
              [line "SFX" "foo.wem"] [line "BGM" "bar.wem"]
              (line "XXX" "baz.wem") three_bytes)
    as (H1 & H2 & H3);
    [by eexists|vm_compute; discriminate|vm_compute; discriminate|].
  split; [|split].
  - etransitivity; [exact H1|]. vm_compute. reflexivity.
  - etransitivity; [exact H2|]. vm_compute. reflexivity.
  - apply H3. reflexivity.
Defined.

(** C5, counterexample.  A table whose only line has the category XXX: the
    run returns and the bank file is written. *)
Lemma invalid_category_is_fatal_counterexample :
  ¬ invalid_category_is_fatal (mkArgs "out.bnk" false)
      [line "XXX" "foo.wem"] three_bytes.
Proof.
  intros H.
  destruct (H (line "XXX" "foo.wem")) as [_ Hb];
    [by left|vm_compute; discriminate|vm_compute; discriminate|].
  vm_compute in Hb. discriminate.
Qed.

(** C9, counterexample.  The music is excluded, and the BGM clip [a.wem]
    has the identifier of the SFX clip [A.wem]: the clip index has an entry
    with the identifier of the BGM clip, and the sound of the BGM clip
    carries the three bytes of [A.wem] as its size, not the placeholder. *)
Lemma excluded_bgm_as_specified_counterexample :
  ¬ excluded_bgm_as_specified (mkArgs "out.bnk" true)
      [line "SFX" "A.wem"; line "BGM" "a.wem"] three_bytes.
Proof.
  intros H.
  edestruct (H eq_refl) with (p := "a.wem") as [_ Hsize].
  - vm_compute. reflexivity.
  - vm_compute. reflexivity.
  - vm_compute. reflexivity.
  - vm_compute. reflexivity.
  - vm_compute. reflexivity.
  - by left.
  - specialize (Hsize (compute_hash "out.bnk_bgm_mix") 3).
    assert (E : 3 = PLACEHOLDER_SIZE); [|discriminate E].
    apply Hsize. vm_compute. do 2 right. left.
Qed.

(** C4, on the code.  The membership test looks a path up among the integer
    keys of the catalog, so it never fires and the loop never exits: a table
    that names the same path twice runs through, prints nothing and leaves a
    bank file, in which the clip is stored once. *)
Theorem duplicate_path_is_not_rejected :
  (∀ wem_filename (d : gmap Z MediaEntry.t),
     dict_contains (PyStr wem_filename) d = false) ∧
  (∀ stored d, ∃ mfl, fill_media_file_lookup stored d = ([], Ok mfl)) ∧
  status (make_bnk (mkArgs "out.bnk" false)
            [line "SFX" "foo.wem"; line "SFX" "foo.wem"] three_bytes) = Ok tt ∧
  stdout (make_bnk (mkArgs "out.bnk" false)
            [line "SFX" "foo.wem"; line "SFX" "foo.wem"] three_bytes) = [] ∧
  ∃ bytes chunks didx,
    bnk (make_bnk (mkArgs "out.bnk" false)
           [line "SFX" "foo.wem"; line "SFX" "foo.wem"] three_bytes)
      = Some bytes ∧
    parse_chunks bytes = Some chunks ∧
    chunk_body "DIDX" chunks = Some didx ∧
    parse_didx didx = [(compute_hash "foo.wem", 0, 3)].
Proof.
  split; [intros; apply dict_contains_str|].
  split.
  { intros stored d.
    destruct (fill_media_file_lookup_inv stored d) as (mfl & E & _).
    by exists mfl. }
  split; [vm_compute; reflexivity|]. split; [vm_compute; reflexivity|].
  eexists _, _, _. split; [vm_compute; reflexivity|].
  split; [vm_compute; reflexivity|]. split; vm_compute; reflexivity.
Qed.

(** C6, on the code.  Before a clip the loop writes [wem_offset % 8] zeros
    and moves the offset by as much, not by what is missing to the next
    multiple of 8: after a first clip of three bytes the second clip is
    recorded at offset 6. *)
Theorem second_clip_is_not_aligned :
  (∀ fs wem_offset mfl k wem_offset' mfl',
     result (write_wem fs (wem_offset, mfl) k) = Ok (wem_offset', mfl') →
     ∃ e, mfl' !! k = Some e ∧
          MediaEntry.offset e = Z.of_nat (wem_offset + wem_offset mod 8)) ∧
  status (make_bnk (mkArgs "out.bnk" false)
            [line "SFX" "foo.wem"; line "SFX" "bar.wem"] three_bytes) = Ok tt ∧
  ∃ bytes chunks didx,
    bnk (make_bnk (mkArgs "out.bnk" false)
           [line "SFX" "foo.wem"; line "SFX" "bar.wem"] three_bytes)
      = Some bytes ∧
    parse_chunks bytes = Some chunks ∧
    chunk_body "DIDX" chunks = Some didx ∧
    parse_didx didx
      = [(compute_hash "bar.wem", 0, 3); (compute_hash "foo.wem", 6, 3)] ∧
    6 mod 8 ≠ 0.
Proof.
  split.
  { intros fs off mfl k off' mfl' H.
    apply write_wem_inv in H as (e & wem & He & _ & _ & _ & ->).
    eexists. by rewrite lookup_insert_eq. }
  split; [vm_compute; reflexivity|].
  eexists _, _, _. split; [vm_compute; reflexivity|].
  split; [vm_compute; reflexivity|]. split; [vm_compute; reflexivity|].
  split; [vm_compute; reflexivity|]. done.
Qed.

(** * Further properties *)

(** ** Clips can be read back *)

Lemma write_wems_unchanged (fs : filesystem) (l : list Z) (wem_offset : nat)
    (mfl : gmap Z MediaEntry.t) (wem_offset' : nat)
    (mfl' : gmap Z MediaEntry.t) (k : Z) :
  result (for_fold (write_wem fs) l (wem_offset, mfl)) = Ok (wem_offset', mfl') →
  k ∉ l → mfl' !! k = mfl !! k.
Proof.
  revert wem_offset mfl. induction l as [|k0 l IH]; intros off mfl H Hk.
  - unfold result in H. simpl in H. by injection H as _ <-.
  - cbn [for_fold] in H.
    apply bind_Ok_inv in H as ([off1 mfl1] & H1 & H2 & _); [|seq|intros; seq].
    apply write_wem_inv in H1 as (e & wem & He & _ & _ & -> & ->).
    apply not_elem_of_cons in Hk as [Hne Hk].
    rewrite (IH _ _ H2 Hk). by rewrite lookup_insert_ne.
Qed.

(** Where the loop records a clip, there its bytes are. *)
Lemma write_wems_offsets (fs : filesystem) (l : list Z) (wem_offset : nat)
    (mfl : gmap Z MediaEntry.t) (wem_offset' : nat)
    (mfl' : gmap Z MediaEntry.t) :
  result (for_fold (write_wem fs) l (wem_offset, mfl)) = Ok (wem_offset', mfl') →
  NoDup l →
  ∀ k, k ∈ l →
    ∃ e wem o,
      mfl' !! k = Some e ∧
      fs (MediaEntry.wem_filename e) = Some wem ∧
      MediaEntry.size e = Z.of_nat (length wem) ∧
      MediaEntry.offset e = Z.of_nat o ∧
      (wem_offset ≤ o)%nat ∧
      (o + length wem ≤ wem_offset')%nat ∧
      take (length wem)
           (drop (o - wem_offset)
                 (output (for_fold (write_wem fs) l (wem_offset, mfl)))) = wem.
Proof.
  revert wem_offset mfl. induction l as [|k0 l IH]; intros off mfl H Hnd k Hk.
  { by apply elem_of_nil in Hk. }
  cbn [for_fold] in H |- *.
  apply bind_Ok_inv in H as ([off1 mfl1] & H1 & H2 & Ho); [|seq|intros; seq].
  rewrite Ho. clear Ho.
  apply NoDup_cons in Hnd as [Hk0 Hnd].
  pose proof H1 as H1'.
  apply write_wem_inv in H1 as (e & wem & He & Hfs & Eo & -> & ->).
  rewrite Eo.
  destruct (write_wems_inv _ _ _ _ _ _ H2) as (_ & Eoff & _).
  apply elem_of_cons in Hk as [->|Hk].
  - exists (MediaEntry.mk (MediaEntry.hash e) (MediaEntry.wem_filename e)
              (Z.of_nat (off + off mod 8)) (Z.of_nat (length wem))),
           wem, (off + off mod 8)%nat.
    rewrite (write_wems_unchanged _ _ _ _ _ _ k0 H2 Hk0), lookup_insert_eq.
    cbn [MediaEntry.wem_filename MediaEntry.size MediaEntry.offset].
    split; [done|]. split; [done|]. split; [done|]. split; [done|].
    split; [lia|]. split; [lia|].
    replace (off + off mod 8 - off)%nat
      with (length (replicate (off mod 8)%nat 0%Z))
      by (rewrite length_replicate; lia).
    rewrite <-app_assoc, drop_app_length, take_app_length. done.
  - destruct (IH _ _ H2 Hnd k Hk) as (e' & wem' & o & He' & Hfs' & Hs & Ho & Hle & Hle' & Ht).
    exists e', wem', o.
    split; [done|]. split; [done|]. split; [done|]. split; [done|].
    split; [lia|]. split; [lia|].
    replace (o - off)%nat
      with (length (replicate (off mod 8)%nat 0%Z ++ wem)
            + (o - (off + off mod 8 + length wem)))%nat
      by (rewrite length_app, length_replicate; lia).
    by rewrite drop_app_add.
Qed.

Lemma NoDup_sorted_keys {V} (d : gmap Z V) : NoDup (sorted_keys d).
Proof.
  unfold sorted_keys. rewrite sort_by_Permutation.
  apply NoDup_fst_map_to_list.
Qed.

Lemma Forall2_elem_of_r {A B} (P : A → B → Prop) (l : list A) (k : list B)
    (y : B) :
  Forall2 P l k → y ∈ k → ∃ x, x ∈ l ∧ P x y.
Proof.
  induction 1 as [|x y' l k Hxy _ IH]; intros Hy.
  - by apply elem_of_nil in Hy.
  - apply elem_of_cons in Hy as [->|Hy].
    + exists x. split; [left|done].
    + destruct (IH Hy) as (x' & Hx' & HP). exists x'. split; [by right|done].
Qed.

(** The chunks of a produced file in terms of the loops that wrote them. *)
Lemma make_bnk_loops (a : args) (wem_table_file : list string)
    (fs : filesystem) (bytes : list Z) :
  status (make_bnk a wem_table_file fs) = Ok tt →
  bnk (make_bnk a wem_table_file fs) = Some bytes →
  ∃ t mfl mfl' bkhd,
    read_wem_table 0 wem_table_file (mkTable [] [] []) = (t, None) ∧
    fill_media_file_lookup (stored_wems a t) ∅ = ([], Ok mfl) ∧
    length bkhd = 24%nat ∧
    (if (0 <? size mfl)%nat
     then ∃ wem_offset,
            result (for_fold (write_wem fs) (sorted_keys mfl) (0%nat, mfl))
              = Ok (wem_offset, mfl') ∧
            result (for_each (write_media_header mfl') (sorted_keys mfl))
              = Ok tt
     else mfl' = mfl) ∧
    result (write_hirc_objects (bnk_file a) (in_sfx_wems t) (in_bgm_wems t) mfl')
      = Ok tt ∧
    parse_chunks bytes
      = Some ([(b "BKHD", bkhd)]
              ++ (if (0 <? size mfl)%nat
                  then [(b "DIDX",
                         output (for_each (write_media_header mfl')
                                   (sorted_keys mfl)));
                        (b "DATA",
                         output (for_fold (write_wem fs) (sorted_keys mfl)
                                   (0%nat, mfl)))]
                  else [])
              ++ [(b "HIRC",
                   le_bytes 4 (hirc_entry_count (in_sfx_wems t) (in_bgm_wems t))
                   ++ output (write_hirc_objects (bnk_file a) (in_sfx_wems t)
                                (in_bgm_wems t) mfl'))]).
Proof.
  intros Hs Hb.
  destruct (make_bnk_Ok a wem_table_file fs bytes Hs Hb)
    as (t & mfl & f' & Et & Ef & Ew & ->).
  apply write_bnk_run in Ew
    as (bkhd & mfl' & Lb & Hd & Rh & Uc & Ud & Uh & Ed).
  exists t, mfl, mfl', bkhd. repeat (split; [done|]).
  rewrite <-parse_chunks_chunks.
  - f_equal. rewrite Ed. unfold chunk, chunk_bytes.
    destruct (0 <? size mfl)%nat; cbn [flat_map app fst snd];
      by rewrite <-!app_assoc, app_nil_r.
  - apply Forall_app. split.
    { apply Forall_singleton. split; [done|]. simpl. by rewrite Lb. }
    apply Forall_app. split; [|by apply Forall_singleton].
    destruct (0 <? size mfl)%nat eqn:Esz; [|constructor].
    apply Nat.ltb_lt in Esz. destruct (Ud Esz) as [U1 U2].
    apply Forall_cons_2; [by split|]. apply Forall_singleton. by split.
Qed.

(** X1. Every entry of the clip index of a produced file points at the
    bytes of its clip: the [uSize] bytes at [uOffset] in the body of the
    DATA chunk are the content of the file of a stored path whose hash is
    the entry's id. *)
Theorem clips_read_back (a : args) (wem_table_file : list string)
    (fs : filesystem) (bytes : list Z) :
  status (make_bnk a wem_table_file fs) = Ok tt →
  bnk (make_bnk a wem_table_file fs) = Some bytes →
  ∃ t chunks,
    read_wem_table 0 wem_table_file (mkTable [] [] []) = (t, None) ∧
    parse_chunks bytes = Some chunks ∧
    ∀ didx, chunk_body "DIDX" chunks = Some didx →
      ∃ blob,
        chunk_body "DATA" chunks = Some blob ∧
        ∀ id uOffset uSize, (id, uOffset, uSize) ∈ parse_didx didx →
          ∃ p, p ∈ stored_wems a t ∧ compute_hash p = id ∧
               (Z.to_nat uOffset + Z.to_nat uSize ≤ length blob)%nat ∧
               fs p = Some (take (Z.to_nat uSize) (drop (Z.to_nat uOffset) blob)).
Proof.
  intros Hs Hb.
  destruct (make_bnk_loops a wem_table_file fs bytes Hs Hb)
    as (t & mfl & mfl' & bkhd & Et & Ef & _ & Hloops & _ & Hp).
  eexists t, _. split; [done|]. split; [exact Hp|].
  intros didx Hd. destruct (0 <? size mfl)%nat; [|done].
  destruct Hloops as (off & R1 & R2).
  injection Hd as <-.
  eexists. split; [reflexivity|].
  intros id uOffset uSize Hin.
  destruct (write_media_headers_inv _ _ R2) as (es & Ee & HF & HU).
  rewrite Ee, (parse_didx_entries es HU) in Hin.
  apply list_elem_of_fmap in Hin as (e & [= -> -> ->] & He).
  destruct (Forall2_elem_of_r _ _ _ e HF He) as (k & Hk & Hke).
  destruct (write_wems_offsets _ _ _ _ _ _ R1 (NoDup_sorted_keys mfl) k Hk)
    as (e' & wem & o & He' & Hfs & Hsz & Hoff & _ & Hle & Ht).
  assert (e' = e) as -> by congruence.
  destruct (write_wems_inv _ _ _ _ _ _ R1) as (Hsame & Eoff & _).
  destruct (same_clips_lookup mfl' mfl k e (fun k => eq_sym (Hsame k)) Hke)
    as (e0 & He0 & Hh & Hn).
  destruct (fill_media_file_lookup_names _ _ _ _ Ef k e0 He0)
    as [Hempty|(Hin & Hh0 & Hh1 & _)].
  { by rewrite lookup_empty in Hempty. }
  exists (MediaEntry.wem_filename e).
  rewrite Hn in Hin, Hh0. rewrite Hh in Hh1.
  rewrite Hsz, Hoff, !Nat2Z.id.
  rewrite Nat.sub_0_r in Ht. cbn [snd]. rewrite Ht.
  simpl in Eoff.
  split; [done|]. split; [congruence|]. split; [lia|done].
Qed.

Lemma clips_read_back_witness :
  ∃ t chunks,
    read_wem_table 0 scenario_A (mkTable [] [] []) = (t, None) ∧
    parse_chunks bank_A = Some chunks ∧
    ∀ didx, chunk_body "DIDX" chunks = Some didx →
      ∃ blob,
        chunk_body "DATA" chunks = Some blob ∧
        ∀ id uOffset uSize, (id, uOffset, uSize) ∈ parse_didx didx →
          ∃ p, p ∈ stored_wems (mkArgs "out.bnk" false) t ∧
               compute_hash p = id ∧
               (Z.to_nat uOffset + Z.to_nat uSize ≤ length blob)%nat ∧
               three_bytes p
                 = Some (take (Z.to_nat uSize) (drop (Z.to_nat uOffset) blob)).
Proof.
  apply (clips_read_back (mkArgs "out.bnk" false) scenario_A three_bytes bank_A);
    vm_compute; reflexivity.
Defined.


(** ** Clips lie one after another *)

Lemma write_wems_laid_out (fs : filesystem) (l : list Z) (wem_offset : nat)
    (mfl : gmap Z MediaEntry.t) (wem_offset' : nat)
    (mfl' : gmap Z MediaEntry.t) (es : list MediaEntry.t) :
  result (for_fold (write_wem fs) l (wem_offset, mfl)) = Ok (wem_offset', mfl') →
  NoDup l →
  Forall2 (fun k e => mfl' !! k = Some e) l es →
  laid_out (Z.of_nat wem_offset)
    (map (fun e => (MediaEntry.hash e, MediaEntry.offset e, MediaEntry.size e)) es)
    (Z.of_nat wem_offset').
Proof.
  revert wem_offset mfl es.
  induction l as [|k l IH]; intros off mfl es H Hnd HF.
  - apply Forall2_nil_inv_l in HF as ->.
    unfold result in H. simpl in H. by injection H as <- _.
  - apply Forall2_cons_inv_l in HF as (e & es' & He & HF & ->).
    apply NoDup_cons in Hnd as [Hk Hnd].
    cbn [for_fold] in H.
    apply bind_Ok_inv in H as ([off1 mfl1] & H1 & H2 & _); [|seq|intros; seq].
    rewrite (write_wems_unchanged _ _ _ _ _ _ _ H2 Hk) in He.
    apply write_wem_inv in H1 as (e0 & wem & _ & _ & _ & -> & ->).
    rewrite lookup_insert_eq in He. apply (inj Some) in He as <-.
    cbn [map laid_out MediaEntry.offset MediaEntry.size].
    split; [by rewrite Nat2Z.inj_add, Nat2Z.inj_mod|]. split; [lia|].
    rewrite <-Nat2Z.inj_add. by eapply IH.
Qed.

Lemma laid_out_bounds (start stop : Z) (entries : list (Z * Z * Z)) :
  0 ≤ start → laid_out start entries stop →
  start ≤ stop ∧
  Forall (fun e => start ≤ e.1.2 ∧ e.1.2 + e.2 ≤ stop) entries.
Proof.
  revert start. induction entries as [|[[id o] s] r IH]; intros start H0 H.
  - simpl in H. subst. split; [lia|constructor].
  - destruct H as (-> & Hs & H).
    assert (0 ≤ start mod 8) by (apply Z.mod_pos_bound; lia).
    destruct (IH (start + start `mod` 8 + s) ltac:(lia) H) as [Hle HF].
    split; [lia|]. constructor; [simpl; lia|].
    eapply Forall_impl; [exact HF|]. simpl. intros [[??]?]; simpl. lia.
Qed.

Lemma laid_out_sorted (start stop : Z) (entries : list (Z * Z * Z)) :
  0 ≤ start → laid_out start entries stop →
  StronglySorted (fun x y => x.1.2 + x.2 ≤ y.1.2) entries.
Proof.
  revert start. induction entries as [|[[id o] s] r IH]; intros start H0 H.
  - constructor.
  - destruct H as (-> & Hs & H).
    assert (0 ≤ start mod 8) by (apply Z.mod_pos_bound; lia).
    constructor; [by apply (IH (start + start `mod` 8 + s)); [lia|]|].
    destruct (laid_out_bounds (start + start `mod` 8 + s) stop r ltac:(lia) H)
      as [_ HF].
    eapply Forall_impl; [exact HF|]. simpl. intros [[??]?]; simpl. lia.
Qed.

(** X2. The clip index of a produced file describes the blob area from its
    first byte to its last: the first clip is at offset 0, each further
    clip begins [end mod 8] bytes after the end [end] of the one before,
    and the last one ends where the blob area ends.  So the clips lie in
    the order of the index and none overlaps another. *)
Theorem clips_laid_out (a : args) (wem_table_file : list string)
    (fs : filesystem) (bytes : list Z) :
  status (make_bnk a wem_table_file fs) = Ok tt →
  bnk (make_bnk a wem_table_file fs) = Some bytes →
  ∃ chunks,
    parse_chunks bytes = Some chunks ∧
    ∀ didx blob,
      chunk_body "DIDX" chunks = Some didx →
      chunk_body "DATA" chunks = Some blob →
      laid_out 0 (parse_didx didx) (Z.of_nat (length blob)) ∧
      StronglySorted (fun x y => x.1.2 + x.2 ≤ y.1.2) (parse_didx didx).
Proof.
  intros Hs Hb.
  destruct (make_bnk_loops a wem_table_file fs bytes Hs Hb)
    as (t & mfl & mfl' & bkhd & Et & Ef & _ & Hloops & _ & Hp).
  eexists. split; [exact Hp|].
  intros didx blob Hd Hblob. destruct (0 <? size mfl)%nat; [|done].
  destruct Hloops as (off & R1 & R2).
  injection Hd as <-. injection Hblob as <-.
  destruct (write_media_headers_inv _ _ R2) as (es & Ee & HF & HU).
  rewrite Ee, (parse_didx_entries es HU).
  destruct (write_wems_inv _ _ _ _ _ _ R1) as (_ & Eoff & _).
  simpl in Eoff. rewrite <-Eoff.
  pose proof (write_wems_laid_out _ _ _ _ _ _ es R1 (NoDup_sorted_keys mfl) HF)
    as Hl.
  split; [exact Hl|]. by eapply laid_out_sorted; [|exact Hl].
Qed.

Lemma clips_laid_out_witness :
  ∃ chunks,
    parse_chunks bank_A = Some chunks ∧
    ∀ didx blob,
      chunk_body "DIDX" chunks = Some didx →
      chunk_body "DATA" chunks = Some blob →
      laid_out 0 (parse_didx didx) (Z.of_nat (length blob)) ∧
      StronglySorted (fun x y => x.1.2 + x.2 ≤ y.1.2) (parse_didx didx).
Proof.
  apply (clips_laid_out (mkArgs "out.bnk" false) scenario_A three_bytes bank_A);
    vm_compute; reflexivity.
Defined.

(** ** Which chunks a file has *)

(** X3. A produced file consists of the chunks BKHD, DIDX, DATA and HIRC, in
    this order, when at least one clip is stored in the bank, and of BKHD
    and HIRC alone when none is: an empty table, or a table of BGM lines
    only with the exclude-BGM option. *)
Theorem chunk_order (a : args) (wem_table_file : list string)
    (fs : filesystem) (bytes : list Z) :
  status (make_bnk a wem_table_file fs) = Ok tt →
  bnk (make_bnk a wem_table_file fs) = Some bytes →
  ∃ t chunks,
    read_wem_table 0 wem_table_file (mkTable [] [] []) = (t, None) ∧
    parse_chunks bytes = Some chunks ∧
    map fst chunks
      = match stored_wems a t with
        | [] => [b "BKHD"; b "HIRC"]
        | _ :: _ => [b "BKHD"; b "DIDX"; b "DATA"; b "HIRC"]
        end.
Proof.
  intros Hs Hb.
  destruct (make_bnk_loops a wem_table_file fs bytes Hs Hb)
    as (t & mfl & mfl' & bkhd & Et & Ef & _ & _ & _ & Hp).
  eexists t, _. split; [done|]. split; [exact Hp|].
  destruct (stored_wems a t) as [|p l] eqn:Es.
  - simpl in Ef. injection Ef as <-. by rewrite map_size_empty.
  - apply (catalog_nonempty _ p) in Ef; [|by left].
    apply Nat.ltb_lt in Ef. by rewrite Ef.
Qed.

Lemma chunk_order_witness :
  ∃ t chunks,
    read_wem_table 0 [line "BGM" "bar.wem"] (mkTable [] [] []) = (t, None) ∧
    parse_chunks
      (default [] (bnk (make_bnk (mkArgs "out.bnk" true)
                          [line "BGM" "bar.wem"] three_bytes)))
      = Some chunks ∧
    map fst chunks
      = match stored_wems (mkArgs "out.bnk" true) t with
        | [] => [b "BKHD"; b "HIRC"]
        | _ :: _ => [b "BKHD"; b "DIDX"; b "DATA"; b "HIRC"]
        end.
Proof.
  apply (chunk_order (mkArgs "out.bnk" true) [line "BGM" "bar.wem"]
           three_bytes); vm_compute; reflexivity.
Defined.




(** ** What the table reader returns *)

Lemma split_sep (sep : ascii) (s : string) :
  Str.contains sep s = true → is_Some (Str.split sep s !! 1%nat).
Proof.
  induction s as [|c rest IH]; simpl; [done|].
  destruct (Ascii.eqb c sep); simpl.
  - intros _. destruct rest as [|c' rest']; simpl; [by eexists|].
    destruct (Ascii.eqb c' sep); [by eexists|].
    destruct (Str.split sep rest'); by eexists.
  - intros H. destruct (IH H) as [p Hp].
    destruct (Str.split sep rest) as [|w [|w' ws]]; first [done|by eexists].
Qed.

Lemma read_wem_table_closed (lines : list string) (i : nat) (t : table) :
  Forall (fun l => Str.contains TAB (Str.strip l) = true) lines →
  read_wem_table i lines t
  = (mkTable (printed t ++ invalid_lines i lines)
             (in_sfx_wems t ++ paths_of "SFX" lines)
             (in_bgm_wems t ++ paths_of "BGM" lines), None).
Proof.
  intros H. revert i t. induction H as [|l lines Hl _ IH]; intros i t.
  - simpl. unfold paths_of. rewrite filter_nil. simpl.
    rewrite !app_nil_r. by destruct t.
  - cbn [read_wem_table invalid_lines].
    destruct (split_sep _ _ Hl) as [p Hp].
    destruct (read_line i l t) as [t1|e] eqn:E.
    2: { rewrite read_line_eq in E.
         destruct (Str.split TAB (Str.strip l)) as [|f0 [|f1 fs]]; try done.
         simpl in E.
         destruct (String.eqb (Str.upper f0) "SFX"); [done|].
         by destruct (String.eqb (Str.upper f0) "BGM"). }
    apply read_line_Ok in E as (p' & Hp' & ->).
    change (line_path l = Some p') in Hp'.
    rewrite IH. unfold paths_of. rewrite !filter_cons.
    destruct (String.eqb (line_category l) "SFX") eqn:E1.
    { apply String.eqb_eq in E1. rewrite E1.
      rewrite decide_True by done. rewrite decide_False by done.
      cbn [omap list_omap printed in_sfx_wems in_bgm_wems].
      rewrite Hp'. cbn [app]. by rewrite <-!app_assoc. }
    apply String.eqb_neq in E1. rewrite (decide_False (P := _ = "SFX")) by done.
    destruct (String.eqb (line_category l) "BGM") eqn:E2.
    { apply String.eqb_eq in E2. rewrite decide_True by done.
      cbn [omap list_omap printed in_sfx_wems in_bgm_wems].
      rewrite Hp'. cbn [app]. by rewrite <-!app_assoc. }
    apply String.eqb_neq in E2. rewrite decide_False by done.
    cbn [omap list_omap printed in_sfx_wems in_bgm_wems]. by rewrite <-!app_assoc.
Qed.

(** X4. When every line of the table has a tab after stripping, the reader
    goes through all of it: the SFX list and the BGM list hold the second
    fields of the lines of their category, in the order of the lines (the
    category is compared in upper case, further fields are ignored), and
    one message is printed for every other line, with the index of the
    line and its upper-cased token.  The run prints these messages and
    nothing else, and it opens the bank file. *)
Theorem wem_table_read (a : args) (wem_table_file : list string)
    (fs : filesystem) :
  Forall (fun l => Str.contains TAB (Str.strip l) = true) wem_table_file →
  read_wem_table 0 wem_table_file (mkTable [] [] [])
  = (mkTable (invalid_lines 0 wem_table_file)
             (paths_of "SFX" wem_table_file)
             (paths_of "BGM" wem_table_file), None) ∧
  stdout (make_bnk a wem_table_file fs) = invalid_lines 0 wem_table_file ∧
  is_Some (bnk (make_bnk a wem_table_file fs)).
Proof.
  intros H.
  pose proof (read_wem_table_closed wem_table_file 0 (mkTable [] [] []) H)
    as Et.
  cbn [printed in_sfx_wems in_bgm_wems app] in Et.
  split; [exact Et|].
  rewrite make_bnk_unfold, Et. cbn [fst snd]. cbv zeta.
  set (t := mkTable _ _ _).
  destruct (fill_media_file_lookup_inv (stored_wems a t) ∅) as (mfl & -> & _).
  destruct (write_bnk _ _ _ _ _ _ _) as [r f].
  cbn [stdout bnk]. split; [by rewrite app_nil_r|by eexists].
Qed.

Lemma wem_table_read_witness :
  read_wem_table 0
    [line "bgm" "bar.wem"; line "XXX" "baz.wem"; line "Sfx" "foo.wem"]
    (mkTable [] [] [])
  = (mkTable [InvalidWemType 1 (Str.points "XXX")] ["foo.wem"] ["bar.wem"],
     None) ∧
  stdout (make_bnk (mkArgs "out.bnk" false)
            [line "bgm" "bar.wem"; line "XXX" "baz.wem"; line "Sfx" "foo.wem"]
            three_bytes)
  = [InvalidWemType 1 (Str.points "XXX")].
Proof.
  destruct (wem_table_read (mkArgs "out.bnk" false)
              [line "bgm" "bar.wem"; line "XXX" "baz.wem"; line "Sfx" "foo.wem"]
              three_bytes) as (H1 & H2 & _).
  - repeat constructor.
  - split.
    + rewrite H1. vm_compute. reflexivity.
    + rewrite H2. vm_compute. reflexivity.
Defined.

(** ** The catalog keeps the last path of an identifier *)

Lemma fill_media_file_lookup_last (stored : list string)
    (d mfl : gmap Z MediaEntry.t) (out : list message) (k : Z) :
  fill_media_file_lookup stored d = (out, Ok mfl) →
  mfl !! k
  = match last (filter (fun p => compute_hash p = k) stored) with
    | Some p => Some (MediaEntry.mk k p (-1) (-1))
    | None => d !! k
    end.
Proof.
  revert d. induction stored as [|p l IH]; intros d H; simpl in H.
  - by injection H as _ <-.
  - rewrite dict_contains_str in H. rewrite (IH _ H), filter_cons.
    destruct (decide (compute_hash p = k)) as [<-|Hne].
    + rewrite last_cons.
      destruct (last (filter _ l)); [done|]. by rewrite lookup_insert_eq.
    + destruct (last (filter _ l)); [done|]. by rewrite lookup_insert_ne.
Qed.

Lemma fill_media_file_lookup_size (stored : list string)
    (d mfl : gmap Z MediaEntry.t) (out : list message) :
  fill_media_file_lookup stored d = (out, Ok mfl) →
  (size mfl ≤ size d + length stored)%nat.
Proof.
  revert d. induction stored as [|p l IH]; intros d H; simpl in H.
  - injection H as _ <-. simpl. lia.
  - rewrite dict_contains_str in H. apply IH in H.
    pose proof (map_size_insert (compute_hash p)
                  (MediaEntry.mk (compute_hash p) p (-1) (-1)) d) as Hs.
    destruct (d !! compute_hash p); simpl in *; lia.
Qed.

(** X5. The loop that fills the catalog never stops early and prints
    nothing.  Under an identifier the catalog holds the last of the stored
    paths with that identifier, with offset and size still unset, and
    nothing under an identifier that no stored path has; so paths that
    collide share one entry, and the catalog has at most as many entries as
    there are stored paths. *)
Theorem catalog_keeps_last_path (stored : list string) :
  ∃ mfl,
    fill_media_file_lookup stored ∅ = ([], Ok mfl) ∧
    (∀ k, mfl !! k
          = (fun p => MediaEntry.mk k p (-1) (-1))
              <$> last (filter (fun p => compute_hash p = k) stored)) ∧
    (size mfl ≤ length stored)%nat.
Proof.
  destruct (fill_media_file_lookup_inv stored ∅) as (mfl & Ef & _).
  exists mfl. split; [done|]. split.
  - intros k. rewrite (fill_media_file_lookup_last _ _ _ _ k Ef).
    destruct (last _); [done|]. by rewrite lookup_empty.
  - apply fill_media_file_lookup_size in Ef. by rewrite map_size_empty in Ef.
Qed.

(** ** The hierarchy, object by object *)

Lemma ints_at_le_bytes {A} (f : A → Z) (l : list A) (pre : list Z) :
  Forall (fun x => u32 (f x)) l →
  ints_at (length pre) (length l)
          (pre ++ flat_map (fun x => le_bytes 4 (f x)) l) = map f l.
Proof.
  intros H. revert pre. induction H as [|x l Hx _ IH]; intros pre; [done|].
  cbn [length ints_at flat_map map]. f_equal.
  - unfold int_at. rewrite drop_app_length.
    destruct (le_bytes_4_shape _ Hx) as (a0 & a1 & a2 & a3 & -> & <-). done.
  - specialize (IH (pre ++ le_bytes 4 (f x))).
    rewrite length_app, length_le_bytes, <-app_assoc in IH. exact IH.
Qed.

Lemma int_at_app (i n : nat) (pre rest : list Z) :
  (i + n ≤ length pre)%nat → int_at i n (pre ++ rest) = int_at i n pre.
Proof.
  intros H. unfold int_at. rewrite drop_app_le by lia.
  rewrite take_app_le; [done|]. rewrite length_drop. lia.
Qed.

(** Reading a mixer record whose body ends in the identifiers of its
    children: [c] is the number of properties at byte 18. *)
Lemma read_object_mixer {A} (f : A → Z) (l : list A) (pre : list Z)
    (mh : Z) (c : nat) :
  length pre = (41 + 5 * c)%nat →
  int_at 0 4 pre = mh →
  int_at 18 1 pre = Z.of_nat c →
  int_at (37 + 5 * c) 4 pre = Z.of_nat (length l) →
  Forall (fun x => u32 (f x)) l →
  read_object (7, pre ++ flat_map (fun x => le_bytes 4 (f x)) l)
  = ActorMixer mh (map f l).
Proof.
  intros Hl E0 E18 En U. unfold read_object.
  change (7 =? 2) with false. change (7 =? 7) with true. cbv iota zeta.
  rewrite !int_at_app by lia. rewrite E18, Nat2Z.id, En, Nat2Z.id, E0.
  f_equal. replace (37 + 5 * c + 4)%nat with (length pre) by lia.
  by apply ints_at_le_bytes.
Qed.

Ltac mixer_children U5 :=
  let Fn := fresh "Fn" in
  destruct (le_bytes_4_shape _ U5) as (? & ? & ? & ? & -> & Fn);
  name_bytes; rewrite !app_assoc;
  match goal with
  | |- read_object (7, ?pre ++ flat_map _ _) = _ =>
      let v := eval vm_compute in pre in change pre with v
  end;
  first [ apply (read_object_mixer _ _ _ _ 2);
          [reflexivity|reflexivity|reflexivity|exact Fn|assumption]
        | apply (read_object_mixer _ _ _ _ 1);
          [reflexivity|reflexivity|reflexivity|exact Fn|assumption] ].

Lemma write_mixer_sfx_children (mh : Z) (l : list SoundEntry.t) :
  result (write_mixer_sfx mh l) = Ok tt →
  ∃ body,
    output (write_mixer_sfx mh l) = record (7, body) ∧
    well_sized (7, body) ∧
    read_object (7, body) = ActorMixer mh (map SoundEntry.hash l).
Proof.
  intros H. pose proof (eq_refl (output (write_mixer_sfx mh l))) as Hout.
  unfold write_mixer_sfx in H, Hout at 2.
  step_write H Hout. step_int H Hout U1. step_int H Hout U2.
  step_write H Hout. step_int H Hout U3. step_int H Hout U4.
  step_write H Hout. step_int H Hout U5.
  apply for_each_write_int_inv in H as [U6 H]. rewrite H in Hout. clear H.
  match type of Hout with _ = _ ++ _ ++ ?body => set (B := body) in * end.
  assert (HB : Z.of_nat (length B) = 51 + Z.of_nat (length l) * 4).
  { unfold B. rewrite !length_app, !length_le_bytes, length_flat_map_le_bytes.
    simpl length. lia. }
  exists B. split; [by eapply record_intro|]. split.
  - change (u32 (Z.of_nat (length B))). by rewrite HB.
  - unfold B. clear HB Hout B U1. mixer_children U5.
Qed.

Lemma write_mixer_bgm_children (mh : Z) (l : list SoundEntry.t) :
  result (write_mixer_bgm mh l) = Ok tt →
  ∃ body,
    output (write_mixer_bgm mh l) = record (7, body) ∧
    well_sized (7, body) ∧
    read_object (7, body) = ActorMixer mh (map SoundEntry.hash l).
Proof.
  intros H. pose proof (eq_refl (output (write_mixer_bgm mh l))) as Hout.
  unfold write_mixer_bgm in H, Hout at 2.
  step_write H Hout. step_int H Hout U1. step_int H Hout U2.
  step_write H Hout. step_int H Hout U3. step_int H Hout U4.
  step_write H Hout. step_int H Hout U5.
  apply for_each_write_int_inv in H as [U6 H]. rewrite H in Hout. clear H.
  match type of Hout with _ = _ ++ _ ++ ?body => set (B := body) in * end.
  assert (HB : Z.of_nat (length B) = 46 + Z.of_nat (length l) * 4).
  { unfold B. rewrite !length_app, !length_le_bytes, length_flat_map_le_bytes.
    simpl length. lia. }
  exists B. split; [by eapply record_intro|]. split.
  - change (u32 (Z.of_nat (length B))). by rewrite HB.
  - unfold B. clear HB Hout B U1. mixer_children U5.
Qed.





Lemma sound_of_object (mfl : gmap Z MediaEntry.t) (parent : Z)
    (se : SoundEntry.t) :
  sound_of mfl parent se
  = sound_object (fun k => MediaEntry.size <$> mfl !! k) parent se.
Proof.
  unfold sound_of, sound_object. by destruct (mfl !! SoundEntry.wem_hash se).
Qed.

Lemma write_mixer_objects (mfl : gmap Z MediaEntry.t)
    (sel : list SoundEntry.t) (m : Z * wem_type) :
  result (write_mixer mfl sel m) = Ok tt →
  ∃ recs,
    output (write_mixer mfl sel m) = flat_map record recs ∧
    Forall well_sized recs ∧
    map read_object recs
      = mixer_objects (fun k => MediaEntry.size <$> mfl !! k) sel m.
Proof.
  destruct m as [mh mt]. unfold write_mixer, mixer_objects. cbn [fst snd].
  set (mixer_sounds := List.filter _ sel).
  destruct (length mixer_sounds =? 0)%nat eqn:En.
  { intros _. exists []. by repeat split; try constructor. }
  intros H.
  assert (∃ srecs mbody,
    output (match mt with
            | SFX => for_each (write_sound_sfx mfl mh) mixer_sounds;;
                     write_mixer_sfx mh mixer_sounds
            | BGM => for_each (write_sound_bgm mfl mh) mixer_sounds;;
                     write_mixer_bgm mh mixer_sounds
            end) = flat_map record (srecs ++ [(7, mbody)]) ∧
    Forall well_sized srecs ∧ well_sized (7, mbody) ∧
    map read_object srecs = map (sound_of mfl mh) mixer_sounds ∧
    read_object (7, mbody) = ActorMixer mh (map SoundEntry.hash mixer_sounds))
    as (srecs & mbody & Eo & Hws & Hwm & Hrs & Hrm).
  { destruct mt.
    - step H Hs Ho. rewrite Ho.
      apply (write_sounds_records mfl mh SFX) in Hs as (srecs & Es & Hws & Hrs).
      apply write_mixer_sfx_children in H as (mbody & Em & Hwm & Hrm).
      exists srecs, mbody. rewrite flat_map_app, Es, Em. simpl.
      by rewrite app_nil_r.
    - step H Hs Ho. rewrite Ho.
      apply (write_sounds_records mfl mh BGM) in Hs as (srecs & Es & Hws & Hrs).
      apply write_mixer_bgm_children in H as (mbody & Em & Hwm & Hrm).
      exists srecs, mbody. rewrite flat_map_app, Es, Em. simpl.
      by rewrite app_nil_r. }
  exists (srecs ++ [(7, mbody)]). split; [done|]. split.
  { apply Forall_app. split; [done|]. by apply Forall_singleton. }
  rewrite map_app, Hrs. cbn [map]. rewrite Hrm. f_equal.
  apply map_ext. intros se. apply sound_of_object.
Qed.

Lemma write_hirc_objects_objects (bnk_out : string) (t : table)
    (mfl : gmap Z MediaEntry.t) :
  result (write_hirc_objects bnk_out (in_sfx_wems t) (in_bgm_wems t) mfl)
    = Ok tt →
  ∃ recs,
    output (write_hirc_objects bnk_out (in_sfx_wems t) (in_bgm_wems t) mfl)
      = flat_map record recs ∧
    Forall well_sized recs ∧
    map read_object recs
      = hirc_objects bnk_out t (fun k => MediaEntry.size <$> mfl !! k).
Proof.
  intros H. unfold write_hirc_objects in *.
  step H Hm Ho. rewrite Ho. clear Ho.
  apply write_events_records in H as (events & -> & Hwe & Hre).
  set (sel := sound_entry_list (in_sfx_wems t) (in_bgm_wems t)) in *.
  destruct (for_each_records (write_mixer mfl sel)
              (fun m recs =>
                 Forall well_sized recs ∧
                 map read_object recs
                   = mixer_objects (fun k => MediaEntry.size <$> mfl !! k) sel m)
              (mixer_order bnk_out))
    as (recss & E & HF); [intros; seq| |done|].
  { intros m _ Hr. by apply write_mixer_objects. }
  exists (concat recss ++ events).
  split; [by rewrite E, flat_map_app|]. split.
  - apply Forall_app. split; [|done].
    eapply Forall2_concat_Forall; [exact HF|]. by intros m recs [? _].
  - rewrite map_app, Hre. unfold hirc_objects. f_equal.
    eapply Forall2_concat_map; [exact HF|]. by intros m recs [_ ?].
Qed.


Lemma find_entry (m : gmap Z MediaEntry.t) (l : list Z)
    (es : list MediaEntry.t) (k : Z) :
  Forall2 (fun k e => m !! k = Some e) l es →
  keyed m → (is_Some (m !! k) → k ∈ l) →
  snd <$> List.find (fun e => bool_decide (e.1.1 = k))
            (map (fun e => (MediaEntry.hash e, MediaEntry.offset e,
                            MediaEntry.size e)) es)
  = MediaEntry.size <$> m !! k.
Proof.
  intros HF Hk. induction HF as [|k0 e l es He _ IH]; intros Hin.
  - simpl. destruct (m !! k) as [e|] eqn:E; [|done].
    assert (Hnil : k ∈ @nil Z) by (apply Hin; by eexists).
    by apply elem_of_nil in Hnil.
  - cbn [map List.find fst]. rewrite (Hk _ _ He).
    destruct (decide (k0 = k)) as [->|Hne].
    + rewrite bool_decide_true by done. by rewrite He.
    + rewrite bool_decide_false by done. apply IH. intros Hs.
      apply Hin in Hs. apply elem_of_cons in Hs as [->|Hs]; done.
Qed.

(** The sizes in the catalog after the clips were written are those of the
    clip index of the file. *)
Lemma clip_size_catalog (a : args) (wem_table_file : list string)
    (fs : filesystem) (bytes : list Z) :
  status (make_bnk a wem_table_file fs) = Ok tt →
  bnk (make_bnk a wem_table_file fs) = Some bytes →
  ∃ t mfl' chunks,
    read_wem_table 0 wem_table_file (mkTable [] [] []) = (t, None) ∧
    result (write_hirc_objects (bnk_file a) (in_sfx_wems t) (in_bgm_wems t) mfl')
      = Ok tt ∧
    parse_chunks bytes = Some chunks ∧
    chunk_body "HIRC" chunks
      = Some (le_bytes 4 (hirc_entry_count (in_sfx_wems t) (in_bgm_wems t))
              ++ output (write_hirc_objects (bnk_file a) (in_sfx_wems t)
                           (in_bgm_wems t) mfl')) ∧
    (∀ p, p ∈ stored_wems a t → is_Some (mfl' !! compute_hash p)) ∧
    (∀ k, is_Some (mfl' !! k) → ∃ p, p ∈ stored_wems a t ∧ k = compute_hash p) ∧
    ∀ k, MediaEntry.size <$> mfl' !! k = clip_size chunks k.
Proof.
  intros Hs Hb.
  destruct (make_bnk_loops a wem_table_file fs bytes Hs Hb)
    as (t & mfl & mfl' & bkhd & Et & Ef & _ & Hloops & Hh & Hp).
  destruct (fill_media_file_lookup_inv (stored_wems a t) ∅)
    as (mfl0 & Ef0 & Hkeyed & Hdom).
  rewrite Ef in Ef0. injection Ef0 as <-.
  assert (Hk : keyed mfl) by (apply Hkeyed; intros k e; by rewrite lookup_empty).
  assert (Hdom' : ∀ k, is_Some (mfl !! k) ↔
                       ∃ p, p ∈ stored_wems a t ∧ k = compute_hash p).
  { intros k. rewrite Hdom, lookup_empty. split; [|by right].
    intros [[? [=]]|H]; done. }
  eexists t, mfl', _. split; [done|]. split; [done|]. split; [exact Hp|].
  unfold clip_size.
  destruct (0 <? size mfl)%nat eqn:Esz.
  - destruct Hloops as (off & R1 & R2).
    destruct (write_wems_inv _ _ _ _ _ _ R1) as (Hsame & _ & _).
    destruct (write_media_headers_inv _ _ R2) as (es & Ee & HF & HU).
    assert (Hk' : keyed mfl').
    { intros k e He.
      destruct (same_clips_lookup mfl' mfl k e (fun k => eq_sym (Hsame k)) He)
        as (e0 & He0 & Hh0 & _). rewrite <-Hh0. by apply Hk. }
    split; [done|]. split; [|split].
    + intros p Hin. apply (same_clips_is_Some _ _ _ Hsame), Hdom'. eauto.
    + intros k Hsome. by apply Hdom', (same_clips_is_Some _ _ _ Hsame).
    + intros k.
      change (chunk_body "DIDX" _)
        with (Some (output (for_each (write_media_header mfl')
                              (sorted_keys mfl)))).
      cbn [mbind option_bind]. rewrite Ee, (parse_didx_entries es HU).
      symmetry. apply (find_entry mfl' (sorted_keys mfl)); [done|done|].
      intros Hsome. apply sorted_keys_elem_of.
      by apply (same_clips_is_Some _ _ _ Hsame).
  - subst mfl'. split; [done|]. split; [|split].
    + intros p Hin. apply Hdom'. eauto.
    + intros k Hsome. by apply Hdom'.
    + intros k. apply Nat.ltb_ge in Esz.
      assert (mfl = ∅) as -> by (apply map_size_empty_iff; lia).
      by rewrite lookup_empty.
Qed.




(** ** References inside the hierarchy *)

Lemma elem_of_flat_map {A B} (f : A → list B) (l : list A) (y : B) :
  y ∈ flat_map f l ↔ ∃ x, x ∈ l ∧ y ∈ f x.
Proof.
  rewrite list_elem_of_In, in_flat_map. split.
  - intros (x & Hx & Hy). exists x. by rewrite !list_elem_of_In.
  - intros (x & Hx & Hy). exists x. by rewrite <-!list_elem_of_In.
Qed.

Lemma elem_of_mixer_objects (sizes : Z → option Z) (sel : list SoundEntry.t)
    (m : Z * wem_type) (o : object) :
  o ∈ mixer_objects sizes sel m ↔
  ∃ se, se ∈ sel ∧ SoundEntry.wem_type se = m.2 ∧
        (o = sound_object sizes m.1 se ∨
         o = ActorMixer m.1
               (map SoundEntry.hash
                  (List.filter
                     (fun x => wem_type_eqb (SoundEntry.wem_type x) m.2) sel))).
Proof.
  unfold mixer_objects. set (ms := List.filter _ sel).
  assert (Hms : ∀ se, se ∈ ms ↔ se ∈ sel ∧ SoundEntry.wem_type se = m.2).
  { intros se. unfold ms. rewrite !list_elem_of_In, filter_In.
    by rewrite wem_type_eqb_eq. }
  destruct (length ms =? 0)%nat eqn:En.
  - apply Nat.eqb_eq, length_zero_iff_nil in En.
    split; [by intros ?%elem_of_nil|].
    intros (se & Hse & Ht & _). exfalso.
    assert (Hin : se ∈ ms) by (by apply Hms). rewrite En in Hin.
    by apply elem_of_nil in Hin.
  - assert (Hne : ∃ se0, se0 ∈ ms).
    { destruct ms as [|se0 ms']; [done|]. exists se0. left. }
    split.
    + intros [Ho|Ho]%elem_of_app.
      * apply list_elem_of_fmap in Ho as (se & -> & Hse).
        apply Hms in Hse as [Hse Ht]. exists se. eauto.
      * apply list_elem_of_singleton in Ho as ->.
        destruct Hne as [se0 [Hse Ht]%Hms]. exists se0. eauto.
    + intros (se & Hse & Ht & [->| ->]); apply elem_of_app.
      * left. apply list_elem_of_fmap_2. by apply Hms.
      * right. by apply list_elem_of_singleton.
Qed.

Lemma mixer_order_type (bnk_out : string) (t : wem_type) :
  ∃ mh, (mh, t) ∈ mixer_order bnk_out.
Proof.
  destruct (mixer_order_cases bnk_out) as [E|E]; rewrite E; destruct t;
    eexists; first [by left | by right; left].
Qed.

Lemma elem_of_event_entry_list (in_sfx_wems in_bgm_wems : list string)
    (e : EventEntry.t) :
  e ∈ event_entry_list in_sfx_wems in_bgm_wems →
  ∃ t p, e = event_entry t p ∧
         p ∈ match t with SFX => in_sfx_wems | BGM => in_bgm_wems end.
Proof.
  rewrite event_entry_list_Permutation.
  intros [H|H]%elem_of_app; apply list_elem_of_fmap in H as (p & -> & Hp);
    [by exists SFX, p|by exists BGM, p].
Qed.

Lemma hirc_objects_well_linked (bnk_out : string) (t : table)
    (sizes : Z → option Z) :
  well_linked (hirc_objects bnk_out t sizes).
Proof.
  unfold hirc_objects.
  set (sel := sound_entry_list (in_sfx_wems t) (in_bgm_wems t)).
  set (events := flat_map event_objects _).
  intros o [Ho|Ho]%elem_of_app.
  - apply elem_of_flat_map in Ho as (m & Hm & Ho).
    pose proof Ho as Ho'.
    apply elem_of_mixer_objects in Ho' as (se & Hse & Ht & [->| ->]).
    + exists (map SoundEntry.hash
                (List.filter
                   (fun x => wem_type_eqb (SoundEntry.wem_type x) m.2) sel)).
      split.
      * apply elem_of_app. left. apply elem_of_flat_map. exists m.
        split; [done|]. apply elem_of_mixer_objects. exists se. eauto.
      * apply list_elem_of_fmap_2. apply list_elem_of_In, filter_In.
        split; [by apply list_elem_of_In|by apply wem_type_eqb_eq].
    + intros c Hc. apply list_elem_of_fmap in Hc as (se' & -> & Hse').
      apply list_elem_of_In, filter_In in Hse' as [Hse' Ht'].
      apply list_elem_of_In in Hse'. apply wem_type_eqb_eq in Ht'.
      do 2 eexists. apply elem_of_app. left. apply elem_of_flat_map.
      exists m. split; [done|]. apply elem_of_mixer_objects.
      exists se'. split; [done|]. split; [done|]. left. reflexivity.
  - apply elem_of_flat_map in Ho as (e & He & Ho).
    apply elem_of_event_entry_list in He as (ty & p & -> & Hp).
    assert (Hsound : ∃ clip uSize parent,
              Sound (compute_hash (p +:+ "_sound")) clip uSize parent
                ∈ flat_map (mixer_objects sizes sel) (mixer_order bnk_out)
                  ++ events).
    { destruct (mixer_order_type bnk_out ty) as [mh Hm].
      do 3 eexists. apply elem_of_app. left. apply elem_of_flat_map.
      exists (mh, ty). split; [done|]. apply elem_of_mixer_objects.
      exists (sound_entry ty p). split; [by apply sound_entry_elem_of|].
      split; [done|]. left. reflexivity. }
    assert (Hev : ∀ o', o' ∈ event_objects (event_entry ty p) →
                        o' ∈ flat_map (mixer_objects sizes sel)
                               (mixer_order bnk_out) ++ events).
    { intros o' Ho'. apply elem_of_app. right. apply elem_of_flat_map.
      exists (event_entry ty p). split; [|done].
      rewrite event_entry_list_Permutation. apply elem_of_app.
      destruct ty; [left|right]; by apply list_elem_of_fmap_2. }
    destruct ty; cbn in Ho;
      repeat (apply elem_of_cons in Ho as [->|Ho]);
      try (by apply elem_of_nil in Ho).
    + intros _. exact Hsound.
    + intros x ->%list_elem_of_singleton. do 2 eexists. apply Hev. left.
    + done.
    + intros _. exact Hsound.
    + done.
    + intros x Hx. repeat (apply elem_of_cons in Hx as [->|Hx]);
        try (by apply elem_of_nil in Hx); do 2 eexists; apply Hev; cbn.
      * left.
      * right; left.
      * right; right; left.
Qed.

(** X7. In the hierarchy of a produced file every reference leads to an
    object of the same file: the parent of a sound is a mixer of the file
    that lists the sound among its children, the children of a mixer are
    sounds of the file with the mixer as their parent, the target of a play
    action is a sound of the file, and the actions of an event are actions
    of the file. *)
Theorem hierarchy_well_linked (a : args) (wem_table_file : list string)
    (fs : filesystem) (bytes : list Z) :
  status (make_bnk a wem_table_file fs) = Ok tt →
  bnk (make_bnk a wem_table_file fs) = Some bytes →
  ∃ chunks hirc recs,
    parse_chunks bytes = Some chunks ∧
    chunk_body "HIRC" chunks = Some hirc ∧
    parse_records (drop 4 hirc) = Some recs ∧
    well_linked (map read_object recs).
Proof.
  intros Hs Hb.
  destruct (clip_size_catalog a wem_table_file fs bytes Hs Hb)
    as (t & mfl' & chunks & Et & Hh & Hp & Hc & _ & _ & Hsz).
  apply write_hirc_objects_objects in Hh as (recs & Eo & Hw & Hr).
  exists chunks. eexists _, recs. split; [done|].
  split; [exact Hc|]. rewrite drop_count, Eo.
  split; [by apply parse_records_records|].
  rewrite Hr. apply hirc_objects_well_linked.
Qed.

Lemma hierarchy_well_linked_witness :
  ∃ chunks hirc recs,
    parse_chunks bank_A = Some chunks ∧
    chunk_body "HIRC" chunks = Some hirc ∧
    parse_records (drop 4 hirc) = Some recs ∧
    well_linked (map read_object recs).
Proof.
  apply (hierarchy_well_linked (mkArgs "out.bnk" false) scenario_A three_bytes
           bank_A); vm_compute; reflexivity.
Defined.
